(** * fpaq0f2: adaptive order-0 arithmetic coder (ext/fpaq0f2/fpaq0f2.cpp)

    A shallow embedding of the codec and the proofs of its properties.

    Conventions of the embedding.
    - [U8], [U32] and [size_t] values are integers of [Z] reduced modulo
      2^8, 2^32 and 2^64 ([unsigned int] is 32 bits wide, [size_t] 64 bits,
      the LP64 data model); [int] values are integers of [Z] as they are.
      The one [int] product, in [StateMap::update], is converted to
      [unsigned] by its mask, hence read modulo 2^32; it fits an [int] in
      every state of the codec ([update_no_signed_overflow]).
    - An [assert] does nothing in the embedding; the conditions asserted
      are properties to prove.
    - The table of a [StateMap] and the history array of a [Predictor] are
      lists read with [!!!] and written with [<[_:=_]>].
    - Memory reached through a pointer is a function from the index to the
      byte stored there, defined at every index, in and out of the bounds
      the caller announced.  The coder logs every index it loads from its
      input and every store it makes to its output, so that the bounds of
      the accesses can be stated.  Nothing lies behind a null pointer: a
      load through a null [inBuf] is a null dereference, and the call that
      makes it returns nothing.
    - A [while] loop whose number of iterations has a constant bound is a
      recursion on that bound, and a lemma shows the bound is not reached;
      the two loops over the data take fuel. *)

From stdpp Require Import base list list_numbers.
From Stdlib Require Import ZArith Lia.

#[local] Open Scope Z_scope.

(** ** Machine integers *)

Definition U8 (z : Z) : Z := z mod 2 ^ 8.
Definition U32 (z : Z) : Z := z mod 2 ^ 32.
Definition size_t (z : Z) : Z := z mod 2 ^ 64.
Definition SIZE_MAX : Z := 2 ^ 64 - 1.

(** ** Memory behind a pointer *)

Definition memory : Type := Z → Z.

Inductive pointer : Type :=
  | NULL : pointer
  | Ptr : memory → pointer.

Definition is_null (p : pointer) : bool :=
  match p with NULL => true | Ptr _ => false end.

(** The memory of a pointer.  Nothing lies behind [NULL]; the value given
    for it is never the result of a load of a call that returns (see
    [null_load]). *)
Definition mem_of (p : pointer) : memory :=
  match p with NULL => λ _, 0 | Ptr m => m end.

(** Reading a [U8] object. *)
Definition load (m : memory) (i : Z) : Z := U8 (m i).

(** The bytes of [l] from index 0 on, and [rest] at every later index. *)
Definition bytes_then (l : list Z) (rest : Z) : memory :=
  λ i, if i <? 0 then rest else nth (Z.to_nat i) l rest.

(** ** StateMap *)

Module StateMap.

Record obj : Type := mk {
  N : Z;          (* number of contexts *)
  cxt : Z;        (* context of last prediction *)
  t : list Z      (* cxt -> prediction in high 24 bits, count in low 8 bits *)
}.

(** [dt], filled by the first constructor call: i -> 32768/(i+i+3). *)
Definition dt_table : list Z := (λ i, 32768 / (i + i + 3)) <$> seqZ 0 256.
Definition dt (n : Z) : Z := dt_table !!! Z.to_nat n.

(** The seed [n] of cell [i] in the constructor. *)
Definition seed (i : Z) : Z :=
  Z.land i 1 * 2 + Z.land i 2 + Z.land (Z.shiftr i 2) 1
  + Z.land (Z.shiftr i 3) 1 + Z.land (Z.shiftr i 4) 1
  + Z.land (Z.shiftr i 5) 1 + Z.land (Z.shiftr i 6) 1
  + Z.land (Z.shiftr i 7) 1 + 3.

Definition init_cell (i : Z) : Z := Z.lor (U32 (Z.shiftl (U32 (seed i)) 28)) 6.

(** [for (int i=0; i<N; ++i) t[i] = ...], with [k] cells to go from [i]. *)
Fixpoint init_from (k : nat) (i : Z) : list Z :=
  match k with
  | O => []
  | S k' => init_cell i :: init_from k' (i + 1)
  end.

Definition new (n : Z) : obj :=
  {| N := n; cxt := 0; t := init_from (Z.to_nat n) 0 |}.

Definition cell (sm : obj) (cx : Z) : Z := t sm !!! Z.to_nat cx.

Definition p (cx : Z) (sm : obj) : Z * obj :=
  (Z.shiftr (cell sm cx) 16, {| N := N sm; cxt := cx; t := t sm |}).

(** The new value of a cell holding [c]. *)
Definition update_cell (y limit c : Z) : Z :=
  let n := Z.land c 255 in
  let p := Z.shiftr c 14 in
  let c1 := if n <? limit then U32 (c + 1) else c in
  U32 (c1 + Z.land ((Z.shiftl y 18 - p) * dt n) 0xffffff00).

Definition update (y limit : Z) (sm : obj) : obj :=
  {| N := N sm; cxt := cxt sm;
     t := <[Z.to_nat (cxt sm) := update_cell y limit (cell sm (cxt sm))]> (t sm) |}.

End StateMap.

Arguments StateMap.new : simpl never.

(** ** Predictor *)

Module Predictor.

Record obj : Type := mk {
  cxt : Z;              (* 0 = not EOF, 1..255 = last 0-7 bits with a leading 1 *)
  sm : StateMap.obj;
  state : list Z
}.

Definition new : obj :=
  {| cxt := 0; sm := StateMap.new 0x10000; state := replicate 0x100 0x66 |}.

Definition key (pr : obj) : Z :=
  Z.lor (Z.shiftl (cxt pr) 8) (state pr !!! Z.to_nat (cxt pr)).

Definition p (pr : obj) : Z * obj :=
  let '(v, sm') := StateMap.p (key pr) (sm pr) in
  (v, {| cxt := cxt pr; sm := sm'; state := state pr |}).

Definition update (y : Z) (pr : obj) : obj :=
  let sm' := StateMap.update y 90 (sm pr) in
  let st := state pr !!! Z.to_nat (cxt pr) in
  let st' := Z.land (st + (st + y)) 255 in
  let cxt' := cxt pr + (cxt pr + y) in
  {| cxt := if 256 <=? cxt' then 0 else cxt';
     sm := sm';
     state := <[Z.to_nat (cxt pr) := st']> (state pr) |}.

End Predictor.

(** ** Encoder *)

Inductive Mode : Type := COMPRESS | DECOMPRESS.

Module Encoder.

Record obj : Type := mk {
  predictor : Predictor.obj;
  mode : Mode;
  inBuf : memory;            (* read compressed data *)
  loads : list Z;            (* indices loaded from inBuf, latest first *)
  outBuf : list (Z * Z);     (* stores made to outBuf, index and byte, latest first *)
  bufIdx : Z;
  bufSize : Z;
  x1 : Z;
  x2 : Z;
  x : Z
}.

(** Constructor, COMPRESS mode. *)
Definition new_compress (size : Z) : obj :=
  {| predictor := Predictor.new; mode := COMPRESS;
     inBuf := mem_of NULL; loads := []; outBuf := [];
     bufIdx := 0; bufSize := U32 size;
     x1 := 0; x2 := 0xffffffff; x := 0 |}.

(** One round of the loop that fills [x] in the DECOMPRESS constructor. *)
Definition fill (e : obj) : obj :=
  if bufIdx e <=? bufSize e then
    {| predictor := predictor e; mode := mode e;
       inBuf := inBuf e; loads := bufIdx e :: loads e; outBuf := outBuf e;
       bufIdx := U32 (bufIdx e + 1); bufSize := bufSize e;
       x1 := x1 e; x2 := x2 e;
       x := U32 (U32 (Z.shiftl (x e) 8) + Z.land (load (inBuf e) (bufIdx e)) 0xff) |}
  else
    {| predictor := predictor e; mode := mode e;
       inBuf := inBuf e; loads := loads e; outBuf := outBuf e;
       bufIdx := bufIdx e; bufSize := bufSize e;
       x1 := x1 e; x2 := x2 e;
       x := U32 (U32 (Z.shiftl (x e) 8) + Z.land 0 0xff) |}.

(** Constructor, DECOMPRESS mode. *)
Definition new_decompress (buf : pointer) (size : Z) : obj :=
  Nat.iter 4 fill
    {| predictor := Predictor.new; mode := DECOMPRESS;
       inBuf := mem_of buf; loads := []; outBuf := [];
       bufIdx := 0; bufSize := U32 size;
       x1 := 0; x2 := 0xffffffff; x := 0 |}.

(** The split point of [x1, x2] for the probability [p]. *)
Definition xmid (x1 x2 p : Z) : Z :=
  U32 (U32 (x1 + U32 (Z.shiftr (U32 (x2 - x1)) 16 * p))
       + Z.shiftr (U32 (Z.land (U32 (x2 - x1)) 0xffff * p)) 16).

(** The condition of the three shift loops. *)
Definition msb_equal (e : obj) : bool :=
  Z.land (Z.lxor (x1 e) (x2 e)) 0xff000000 =? 0.

(** The interval after the split, before any shift. *)
Definition narrow (y xm : Z) (pr : Predictor.obj) (e : obj) : obj :=
  {| predictor := pr; mode := mode e;
     inBuf := inBuf e; loads := loads e; outBuf := outBuf e;
     bufIdx := bufIdx e; bufSize := bufSize e;
     x1 := if y =? 0 then U32 (xm + 1) else x1 e;
     x2 := if y =? 0 then x2 e else xm;
     x := x e |}.

(** Body of the shift loop of [encode] and [flush] once the buffer has room. *)
Definition emit (e : obj) : obj :=
  {| predictor := predictor e; mode := mode e;
     inBuf := inBuf e; loads := loads e;
     outBuf := (bufIdx e, U8 (Z.shiftr (x2 e) 24)) :: outBuf e;
     bufIdx := U32 (bufIdx e + 1); bufSize := bufSize e;
     x1 := U32 (Z.shiftl (x1 e) 8);
     x2 := U32 (U32 (Z.shiftl (x2 e) 8) + 255);
     x := x e |}.

(** The shift loop of [encode] and [flush]; it runs at most four times. *)
Fixpoint shift_out (n : nat) (e : obj) : bool * obj :=
  if msb_equal e then
    match n with
    | O => (true, e)
    | S n' => if bufIdx e <? bufSize e then shift_out n' (emit e) else (false, e)
    end
  else (true, e).

Definition encode (y : Z) (e : obj) : bool * obj :=
  let '(p, pr) := Predictor.p (predictor e) in
  let xm := xmid (x1 e) (x2 e) (U32 p) in
  shift_out 4 (narrow y xm (Predictor.update y pr) e).

(** Body of the shift loop of [decode]. *)
Definition refill (e : obj) : obj :=
  let rd := bufIdx e <? bufSize e in
  let c := if rd then load (inBuf e) (bufIdx e) else 0 in
  {| predictor := predictor e; mode := mode e;
     inBuf := inBuf e;
     loads := if rd then bufIdx e :: loads e else loads e;
     outBuf := outBuf e;
     bufIdx := if rd then U32 (bufIdx e + 1) else bufIdx e;
     bufSize := bufSize e;
     x1 := U32 (Z.shiftl (x1 e) 8);
     x2 := U32 (U32 (Z.shiftl (x2 e) 8) + 255);
     x := U32 (U32 (Z.shiftl (x e) 8) + c) |}.

(** The shift loop of [decode]; it runs at most four times. *)
Fixpoint shift_in (n : nat) (e : obj) : obj :=
  if msb_equal e then
    match n with
    | O => e
    | S n' => shift_in n' (refill e)
    end
  else e.

Definition decode (e : obj) : Z * obj :=
  let '(p, pr) := Predictor.p (predictor e) in
  let xm := xmid (x1 e) (x2 e) (U32 p) in
  let y := if x e <=? xm then 1 else 0 in
  (y, shift_in 4 (narrow y xm (Predictor.update y pr) e)).

(** Store of the first unequal byte at the end of [flush]. *)
Definition put_last (e : obj) : obj :=
  {| predictor := predictor e; mode := mode e;
     inBuf := inBuf e; loads := loads e;
     outBuf := (bufIdx e, U8 (Z.shiftr (x2 e) 24)) :: outBuf e;
     bufIdx := U32 (bufIdx e + 1); bufSize := bufSize e;
     x1 := x1 e; x2 := x2 e; x := x e |}.

Definition flush (e : obj) : bool * obj :=
  match mode e with
  | COMPRESS =>
      let '(ok, e1) := shift_out 4 e in
      if ok then
        if bufIdx e1 <? bufSize e1 then (true, put_last e1) else (false, e1)
      else (false, e1)
  | DECOMPRESS => (true, e)
  end.

Definition getBufIdx (e : obj) : Z := bufIdx e.

End Encoder.

(** ** The two entry points *)

(** What a call leaves behind: the value returned ([None] when the call
    returns nothing: the fuel ran out first, or the call has loaded through
    a null pointer) and the stores made to [out], latest first. *)
Record outcome : Type := mk_outcome {
  ret : option Z;
  stores : list (Z * Z)
}.

(** [for (int i=7; i>=0; --i) if (!e.encode((c>>i)&1)) return ...], with
    [k = i + 1] bits to go. *)
Fixpoint encode_bits (k : nat) (c : Z) (e : Encoder.obj) : bool * Encoder.obj :=
  match k with
  | O => (true, e)
  | S i =>
      let '(ok, e1) := Encoder.encode (Z.land (Z.shiftr c (Z.of_nat i)) 1) e in
      if ok then encode_bits i c e1 else (false, e1)
  end.

(** The loop over the input bytes in [fpaq0f2_compress]: [Some (false, _)]
    when an [encode] reported overflow, [Some (true, _)] when [idx] reached
    [len]. *)
Fixpoint compress_loop (fuel : nat) (inp : memory) (len idx : Z) (e : Encoder.obj)
  : option (bool * Encoder.obj) :=
  if idx <? len then
    match fuel with
    | O => None
    | S f =>
        let c := load inp idx in
        let '(ok, e1) := Encoder.encode 1 e in
        if ok then
          let '(ok, e2) := encode_bits 8 c e1 in
          if ok then compress_loop f inp len (U32 (idx + 1)) e2
          else Some (false, e2)
        else Some (false, e1)
    end
  else Some (true, e).

Definition fpaq0f2_compress (fuel : nat) (in_ : pointer) (len : Z)
    (out : pointer) (bufsize : Z) : outcome :=
  if is_null in_ && (0 <? len) then {| ret := Some SIZE_MAX; stores := [] |}
  else if is_null out && (0 <? bufsize) then {| ret := Some SIZE_MAX; stores := [] |}
  else
    match compress_loop fuel (mem_of in_) len 0 (Encoder.new_compress bufsize) with
    | None => {| ret := None; stores := [] |}
    | Some (false, e) =>
        {| ret := Some (size_t (bufsize + 1)); stores := Encoder.outBuf e |}
    | Some (true, e) =>
        let '(ok, e1) := Encoder.encode 0 e in
        if ok then
          let '(ok, e2) := Encoder.flush e1 in
          if ok then {| ret := Some (Encoder.getBufIdx e2); stores := Encoder.outBuf e2 |}
          else {| ret := Some (size_t (bufsize + 1)); stores := Encoder.outBuf e2 |}
        else {| ret := Some (size_t (bufsize + 1)); stores := Encoder.outBuf e1 |}
    end.

(** [while (c<256) c+=c+e.decode()]; from [c = 1] it runs eight times. *)
Fixpoint decode_bits (n : nat) (c : Z) (e : Encoder.obj) : Z * Encoder.obj :=
  if c <? 256 then
    match n with
    | O => (c, e)
    | S n' => let '(y, e1) := Encoder.decode e in decode_bits n' (c + (c + y)) e1
    end
  else (c, e).

(** The loop over the decoded bytes in [fpaq0f2_decompress]. *)
Fixpoint decompress_loop (fuel : nat) (bufsize idx : Z) (out : list (Z * Z))
    (e : Encoder.obj) : outcome :=
  match fuel with
  | O => {| ret := None; stores := out |}
  | S f =>
      let '(y, e1) := Encoder.decode e in
      if y =? 0 then {| ret := Some idx; stores := out |}
      else
        let '(c, e2) := decode_bits 8 1 e1 in
        if idx <? bufsize then
          decompress_loop f bufsize (U32 (idx + 1)) ((idx, U8 (c - 256)) :: out) e2
        else {| ret := Some (size_t (bufsize + 1)); stores := out |}
  end.

(** A coder that has loaded from [inBuf] when [inBuf] is the null pointer
    [p]: the load is a null dereference, which ends the call with no value
    returned. *)
Definition null_load (p : pointer) (e : Encoder.obj) : bool :=
  match p with
  | NULL => match Encoder.loads e with [] => false | _ :: _ => true end
  | Ptr _ => false
  end.

(** [Encoder e(DECOMPRESS, in, len)] runs the constructor's loop, loads
    included, before the first [decode]. *)
Definition fpaq0f2_decompress (fuel : nat) (in_ : pointer) (len : Z)
    (out : pointer) (bufsize : Z) : outcome :=
  if is_null in_ && (0 <? len) then {| ret := Some SIZE_MAX; stores := [] |}
  else if is_null out && (0 <? bufsize) then {| ret := Some SIZE_MAX; stores := [] |}
  else if null_load in_ (Encoder.new_decompress in_ len)
  then {| ret := None; stores := [] |}
  else decompress_loop fuel bufsize 0 [] (Encoder.new_decompress in_ len).

(** The bytes a store log leaves in the buffer, in the order of the stores. *)
Definition stored_bytes (log : list (Z * Z)) : list Z := rev (snd <$> log).

(** ** Reference definitions for the statements *)

(** Bit [k] of [v] as a number. *)
Definition bit (v k : Z) : Z := Z.b2z (Z.testbit v k).

(** Population count of the low eight bits. *)
Definition popcount8 (v : Z) : Z :=
  bit v 0 + bit v 1 + bit v 2 + bit v 3 + bit v 4 + bit v 5 + bit v 6 + bit v 7.

(** A cell seeded by the plain population count of the low byte of its index. *)
Definition popcount_cell (i : Z) : Z :=
  Z.lor (Z.shiftl (popcount8 (Z.land i 0xFF) + 3) 28) 6.

(** A cell seeded by the population count of the low byte of its index with
    the two lowest bits counted twice. *)
Definition weighted_cell (i : Z) : Z :=
  Z.lor (Z.shiftl (popcount8 (Z.land i 0xFF) + popcount8 (Z.land i 3) + 3) 28) 6.

(** ** Invariants and runs *)

(** Every cell of the table is a 32-bit word. *)
Definition cells_in_range (sm : StateMap.obj) : Prop :=
  Forall (λ c, 0 <= c < 2 ^ 32) (StateMap.t sm).

(** The interval is a pair of ordered 32-bit words. *)
Definition interval_le (e : Encoder.obj) : Prop :=
  0 <= Encoder.x1 e ∧ Encoder.x1 e <= Encoder.x2 e ∧ Encoder.x2 e < 2 ^ 32.

(** What holds of a coder between two calls. *)
Definition coder_ok (e : Encoder.obj) : Prop :=
  interval_le e
  ∧ Encoder.x1 e < Encoder.x2 e
  ∧ cells_in_range (Predictor.sm (Encoder.predictor e)).

(** The cursor is not negative and every store logged so far went to an
    index below the size given to the constructor. *)
Definition out_ok (e : Encoder.obj) : Prop :=
  0 <= Encoder.bufIdx e
  ∧ Forall (λ s, 0 <= s.1 < Encoder.bufSize e) (Encoder.outBuf e).

(** The coders a run of the codec goes through: a constructor, then calls of
    [encode] with a bit, each made after the previous one returned [true]
    (both callers return at the first [false]), or calls of [decode]. *)
Inductive reachable : Encoder.obj → Prop :=
  | reach_compress size : reachable (Encoder.new_compress size)
  | reach_decompress buf size : reachable (Encoder.new_decompress buf size)
  | reach_encode e y e' :
      reachable e → y = 0 ∨ y = 1 → Encoder.encode y e = (true, e') → reachable e'
  | reach_decode e y e' :
      reachable e → Encoder.decode e = (y, e') → reachable e'.

(** A settled cell: a 32-bit word whose count is in 6..90 and whose
    distance to 2^32 is bounded below, by a margin that shrinks as the count
    grows and stays at 16000 once the count has reached 90. *)
Definition cell_ok (c : Z) : Prop :=
  0 <= c < 2 ^ 32
  ∧ 6 <= c mod 256 <= 90
  ∧ (c mod 256 < 90 →
     10 ^ 10 <= (2 ^ 32 - c) * (2 * (c mod 256) + 1) + 40000 * (c mod 256))
  ∧ (c mod 256 = 90 → 16000 <= 2 ^ 32 - c).

Definition table_ok (sm : StateMap.obj) : Prop :=
  Z.of_nat (length (StateMap.t sm)) = 65536
  ∧ 0 <= StateMap.cxt sm < 65536
  ∧ Forall cell_ok (StateMap.t sm).

(** The state maps the codec goes through: the one [Predictor()] builds,
    then predictions in a context below 0x10000 and updates with a bit and
    the limit 90 of [Predictor::update]. *)
Inductive sm_reachable : StateMap.obj → Prop :=
  | sm_reach_new : sm_reachable (StateMap.new 0x10000)
  | sm_reach_p sm cx :
      sm_reachable sm → 0 <= cx < 0x10000 → sm_reachable (snd (StateMap.p cx sm))
  | sm_reach_update sm y :
      sm_reachable sm → y = 0 ∨ y = 1 → sm_reachable (StateMap.update y 90 sm).

(** A predictor of the codec: position and histories are bytes, and its
    state map is one of the above. *)
Definition predictor_ok (pr : Predictor.obj) : Prop :=
  0 <= Predictor.cxt pr < 256
  ∧ Z.of_nat (length (Predictor.state pr)) = 256
  ∧ Forall (λ s, 0 <= s < 256) (Predictor.state pr)
  ∧ sm_reachable (Predictor.sm pr).

(** The cursor of a coder in COMPRESS mode counts the stores made so far
    and has not passed the size. *)
Definition cursor_ok (e : Encoder.obj) : Prop :=
  0 <= Encoder.bufIdx e
  ∧ Encoder.bufIdx e <= Encoder.bufSize e
  ∧ Encoder.bufSize e < 2 ^ 32
  ∧ Encoder.bufIdx e = Z.of_nat (length (Encoder.outBuf e)).

(** A bound on the calls of [encode] a coder can still answer with [true]:
    each one stores a byte or narrows the interval. *)
Definition work_left (e : Encoder.obj) : Z :=
  (Encoder.bufSize e - Encoder.bufIdx e) * 2 ^ 32 + (Encoder.x2 e - Encoder.x1 e).

(** The argument check at the head of both entry points. *)
Definition null_pair (in_ : pointer) (len : Z) (out : pointer) (bufsize : Z) : bool :=
  is_null in_ && (0 <? len) || is_null out && (0 <? bufsize).

(** After [k] rounds of a shift loop the low [k] bytes of [x1] are 00 and
    those of [x2] are ff. *)
Definition shifted (k : nat) (e : Encoder.obj) : Prop :=
  Encoder.x1 e mod 256 ^ Z.of_nat k = 0
  ∧ Encoder.x2 e mod 256 ^ Z.of_nat k = 256 ^ Z.of_nat k - 1.

(** ** The bit stream and the lockstep of the two coders *)

(** The bits [7..0] of a byte, in the order [fpaq0f2_compress] encodes them. *)
Definition byte_bits (c : Z) : list Z :=
  (λ i, Z.land (Z.shiftr c (Z.of_nat i)) 1) <$> [7; 6; 5; 4; 3; 2; 1; 0]%nat.

(** The bits encoded for the bytes [s]: a 1 before each byte. *)
Fixpoint body_bits (s : list Z) : list Z :=
  match s with
  | [] => []
  | c :: s' => 1 :: byte_bits c ++ body_bits s'
  end.

(** ... and the 0 that ends the stream. *)
Definition frame (s : list Z) : list Z := body_bits s ++ [0].

(** Calls of [encode] in a row, stopping at the first [false]. *)
Fixpoint encode_all (ys : list Z) (e : Encoder.obj) : bool * Encoder.obj :=
  match ys with
  | [] => (true, e)
  | y :: ys' =>
      let '(ok, e1) := Encoder.encode y e in
      if ok then encode_all ys' e1 else (false, e1)
  end.

(** Calls of [decode] in a row. *)
Fixpoint decode_all (n : nat) (d : Encoder.obj) : list Z * Encoder.obj :=
  match n with
  | O => ([], d)
  | S n' =>
      let '(y, d1) := Encoder.decode d in
      let '(ys, d2) := decode_all n' d1 in
      (y :: ys, d2)
  end.

(** The number whose bits, most significant first, are [ys], after [c]. *)
Fixpoint push_bits (c : Z) (ys : list Z) : Z :=
  match ys with
  | [] => c
  | y :: ys' => push_bits (c + (c + y)) ys'
  end.

Definition is_byte (b : Z) : Prop := 0 <= b < 256.

(** The first four bytes of [l] as a big-endian word, 0 past its end. *)
Definition window (l : list Z) : Z :=
  nth 0 l 0 * 2 ^ 24 + nth 1 l 0 * 2 ^ 16 + nth 2 l 0 * 2 ^ 8 + nth 3 l 0.

(** The byte the decoder gets at its [j]-th next load. *)
Definition pending (d : Encoder.obj) (j : nat) : Z :=
  if Encoder.bufIdx d + Z.of_nat j <? Encoder.bufSize d
  then load (Encoder.inBuf d) (Encoder.bufIdx d + Z.of_nat j)
  else 0.

(** The decoder [d] follows the encoder [e] when [fut] are the bytes [e]
    has still to store: same predictor and interval, [x] holds the first
    four bytes of [fut] and the loads to come deliver the rest. *)
Definition in_step (fut : list Z) (e d : Encoder.obj) : Prop :=
  Encoder.predictor d = Encoder.predictor e
  ∧ Encoder.x1 d = Encoder.x1 e
  ∧ Encoder.x2 d = Encoder.x2 e
  ∧ Encoder.x d = window fut
  ∧ (∀ j, pending d j = nth (4 + j) fut 0)
  ∧ 0 <= Encoder.bufIdx d
  ∧ Encoder.bufSize d < 2 ^ 32.

(** A decoder over zero bytes whose window and lower bound are 0. *)
Definition at_zero (e : Encoder.obj) : Prop :=
  Encoder.x e = 0 ∧ Encoder.x1 e = 0 ∧ ∀ i, load (Encoder.inBuf e) i = 0.

(** ** Footprints, store order and variants of a coder *)

(** One bit through the predictor, as [encode] and [decode] do it: a
    prediction, then the update with the bit. *)
Definition observe (pr : Predictor.obj) (y : Z) : Predictor.obj :=
  Predictor.update y (snd (Predictor.p pr)).

(** The indices a decoder may load: those below [bufSize], and [bufSize]
    itself when it is less than 4 (the test of the constructor is [<=]). *)
Definition footprint (size i : Z) : Prop :=
  0 <= i < size ∨ (i = size ∧ size < 4).

(** What holds of the load log of a coder between two calls. *)
Definition loads_ok (e : Encoder.obj) : Prop :=
  0 <= Encoder.bufIdx e
  ∧ Forall (footprint (Encoder.bufSize e)) (Encoder.loads e).

(** The coder [e] over another input memory. *)
Definition with_input (m : memory) (e : Encoder.obj) : Encoder.obj :=
  {| Encoder.predictor := Encoder.predictor e; Encoder.mode := Encoder.mode e;
     Encoder.inBuf := m; Encoder.loads := Encoder.loads e;
     Encoder.outBuf := Encoder.outBuf e;
     Encoder.bufIdx := Encoder.bufIdx e; Encoder.bufSize := Encoder.bufSize e;
     Encoder.x1 := Encoder.x1 e; Encoder.x2 := Encoder.x2 e; Encoder.x := Encoder.x e |}.

(** The indices a store log has written, in the order of the stores. *)
Definition store_indices (log : list (Z * Z)) : list Z := rev (fst <$> log).

(** The stores of a coder so far went to 0, 1, 2, ... in this order, and
    the cursor is the next index. *)
Definition ordered (e : Encoder.obj) : Prop :=
  cursor_ok e ∧ store_indices (Encoder.outBuf e) = seqZ 0 (Encoder.bufIdx e).

(** What a call leaves of an [ordered] coder of COMPRESS mode: order, size
    and mode are kept, and a [false] is returned with the buffer full. *)
Definition kept (e : Encoder.obj) (b : bool) (e' : Encoder.obj) : Prop :=
  ordered e'
  ∧ Encoder.bufSize e' = Encoder.bufSize e
  ∧ Encoder.mode e' = Encoder.mode e
  ∧ Encoder.bufIdx e <= Encoder.bufIdx e'
  ∧ (b = false → Encoder.bufIdx e' = Encoder.bufSize e').

(** The coder [e] over a buffer of another size. *)
Definition with_size (size : Z) (e : Encoder.obj) : Encoder.obj :=
  {| Encoder.predictor := Encoder.predictor e; Encoder.mode := Encoder.mode e;
     Encoder.inBuf := Encoder.inBuf e; Encoder.loads := Encoder.loads e;
     Encoder.outBuf := Encoder.outBuf e;
     Encoder.bufIdx := Encoder.bufIdx e; Encoder.bufSize := size;
     Encoder.x1 := Encoder.x1 e; Encoder.x2 := Encoder.x2 e; Encoder.x := Encoder.x e |}.

(** The store log of [e'] continues that of [e]. *)
Definition grows (e e' : Encoder.obj) : Prop :=
  ∃ bs, Encoder.outBuf e' = bs ++ Encoder.outBuf e.

(** * Properties *)

(** ** Machine integers and bit operations *)

Ltac words := unfold U8, U32, size_t, SIZE_MAX in *.
Ltac word_lia := words; Z.div_mod_to_equations; lia.
Ltac word_nia := words; Z.div_mod_to_equations; nia.

Lemma U32_range z : 0 <= U32 z < 2 ^ 32.
Proof. word_lia. Qed.

Lemma U32_small z : 0 <= z < 2 ^ 32 → U32 z = z.
Proof. intros. unfold U32. by apply Z.mod_small. Qed.

Lemma U8_range z : 0 <= U8 z < 256.
Proof. word_lia. Qed.

Lemma land_low_bit a : Z.land a 1 = bit a 0.
Proof.
  unfold bit. change 1 with (Z.ones 1). rewrite Z.land_ones by lia.
  by rewrite Z.bit0_mod.
Qed.

Lemma land_shiftr_bit a k : 0 <= k → Z.land (Z.shiftr a k) 1 = bit a k.
Proof.
  intros Hk. rewrite land_low_bit. unfold bit.
  by rewrite Z.shiftr_spec by lia.
Qed.

Lemma bit_range a k : 0 <= bit a k <= 1.
Proof. unfold bit. destruct (Z.testbit a k); simpl; lia. Qed.

(** Masking with a run of [j] ones that starts at bit [k]. *)
Lemma land_shifted_ones a j k :
  0 <= j → 0 <= k →
  Z.land a (Z.shiftl (Z.ones j) k) = (a / 2 ^ k) mod 2 ^ j * 2 ^ k.
Proof.
  intros Hj Hk.
  rewrite <- Z.shiftl_mul_pow2, <- Z.land_ones, <- Z.shiftr_div_pow2 by lia.
  apply Z.bits_inj'. intros n Hn.
  rewrite Z.land_spec.
  destruct (Z.lt_ge_cases n k) as [Hlt|Hge].
  - rewrite !Z.shiftl_spec_low by lia. by rewrite andb_false_r.
  - rewrite !Z.shiftl_spec by lia.
    rewrite Z.land_spec, Z.shiftr_spec by lia.
    by replace (n - k + k) with n by lia.
Qed.

Lemma land_0xffffff00 a : Z.land a 0xffffff00 = (a / 256) mod 2 ^ 24 * 256.
Proof. change 0xffffff00 with (Z.shiftl (Z.ones 24) 8). by rewrite land_shifted_ones. Qed.

Lemma land_0xff000000 a : Z.land a 0xff000000 = (a / 2 ^ 24) mod 256 * 2 ^ 24.
Proof. change 0xff000000 with (Z.shiftl (Z.ones 8) 24). by rewrite land_shifted_ones. Qed.

Lemma land_2 a : Z.land a 2 = bit a 1 * 2.
Proof.
  change 2 with (Z.shiftl (Z.ones 1) 1) at 1. rewrite land_shifted_ones by lia.
  unfold bit. by rewrite Z.testbit_spec' by lia.
Qed.

Lemma land_255 a : Z.land a 255 = a mod 256.
Proof. change 255 with (Z.ones 8). by rewrite Z.land_ones by lia. Qed.

Lemma land_0xffff a : Z.land a 0xffff = a mod 65536.
Proof. change 0xffff with (Z.ones 16). by rewrite Z.land_ones by lia. Qed.

(** The top bytes of two 32-bit words agree exactly when the loop test says so. *)
Lemma top_byte_test a b :
  0 <= a < 2 ^ 32 → 0 <= b < 2 ^ 32 →
  (Z.land (Z.lxor a b) 0xff000000 =? 0) = (a / 2 ^ 24 =? b / 2 ^ 24).
Proof.
  intros Ha Hb. rewrite land_0xff000000.
  rewrite <- Z.shiftr_div_pow2, Z.shiftr_lxor, !Z.shiftr_div_pow2 by lia.
  assert (Hx : 0 <= Z.lxor (a / 2 ^ 24) (b / 2 ^ 24) < 256).
  { assert (0 <= a / 2 ^ 24 < 2 ^ 8) by (Z.div_mod_to_equations; lia).
    assert (0 <= b / 2 ^ 24 < 2 ^ 8) by (Z.div_mod_to_equations; lia).
    split; [apply Z.lxor_nonneg; lia|].
    destruct (Z.eq_dec (Z.lxor (a / 2 ^ 24) (b / 2 ^ 24)) 0) as [->|Hne]; [lia|].
    apply Z.log2_lt_pow2 with (b := 8); [|].
    - pose proof (Z.lxor_nonneg (a / 2 ^ 24) (b / 2 ^ 24)). lia.
    - eapply Z.le_lt_trans; [apply Z.log2_lxor; lia|].
      apply Z.max_lub_lt.
      + destruct (Z.eq_dec (a / 2 ^ 24) 0) as [->|]; [done|].
        apply Z.log2_lt_pow2; lia.
      + destruct (Z.eq_dec (b / 2 ^ 24) 0) as [->|]; [done|].
        apply Z.log2_lt_pow2; lia. }
  rewrite Z.mod_small by lia.
  destruct (Z.eqb_spec (a / 2 ^ 24) (b / 2 ^ 24)) as [->|Hne].
  - rewrite Z.lxor_nilpotent. done.
  - apply Z.eqb_neq. intros H0.
    apply Hne, Z.lxor_eq. lia.
Qed.

(** ** StateMap: construction *)

Lemma dt_spec n : 0 <= n < 256 → StateMap.dt n = 32768 / (n + n + 3).
Proof.
  intros Hn. unfold StateMap.dt, StateMap.dt_table.
  rewrite (list_lookup_total_fmap _ (seqZ 0 256)) by (rewrite length_seqZ; lia).
  rewrite lookup_total_seqZ_lt by lia.
  by replace (0 + Z.of_nat (Z.to_nat n)) with n by lia.
Qed.

Lemma dt_bounds n : 0 <= n < 256 → 63 <= StateMap.dt n <= 10922.
Proof. intros Hn. rewrite dt_spec by done. Z.div_mod_to_equations. nia. Qed.

Lemma length_init_from k i : length (StateMap.init_from k i) = k.
Proof. revert i. induction k as [|k IH]; intros i; simpl; [done|]. by rewrite IH. Qed.

Lemma init_from_lookup k i j :
  (j < k)%nat → StateMap.init_from k i !!! j = StateMap.init_cell (i + Z.of_nat j).
Proof.
  revert i j. induction k as [|k IH]; intros i j Hj; [lia|].
  destruct j as [|j]; simpl.
  - by rewrite Z.add_0_r.
  - rewrite IH by lia. f_equal. lia.
Qed.

Lemma new_cell n i :
  0 <= i < n → StateMap.cell (StateMap.new n) i = StateMap.init_cell i.
Proof.
  intros Hi. unfold StateMap.cell, StateMap.new. simpl.
  rewrite init_from_lookup by lia. f_equal. lia.
Qed.

Lemma length_new n : Z.of_nat (length (StateMap.t (StateMap.new n))) = Z.max 0 n.
Proof. unfold StateMap.new. simpl. rewrite length_init_from. lia. Qed.

Lemma bit_land_255 i k : 0 <= k < 8 → bit (Z.land i 255) k = bit i k.
Proof.
  intros Hk. unfold bit. rewrite Z.land_spec.
  assert (Z.testbit 255 k = true) as ->; [|by rewrite andb_true_r].
  assert (k = 0 ∨ k = 1 ∨ k = 2 ∨ k = 3 ∨ k = 4 ∨ k = 5 ∨ k = 6 ∨ k = 7)
    as Hc by lia.
  by repeat (destruct Hc as [->|Hc]; [done|]); subst k.
Qed.

Lemma popcount8_low_byte i :
  popcount8 (Z.land i 255)
  = bit i 0 + bit i 1 + bit i 2 + bit i 3 + bit i 4 + bit i 5 + bit i 6 + bit i 7.
Proof. unfold popcount8. by rewrite !bit_land_255 by lia. Qed.

Lemma popcount8_low_two i : popcount8 (Z.land i 3) = bit i 0 + bit i 1.
Proof.
  unfold popcount8, bit. rewrite !Z.land_spec.
  change (Z.testbit 3 0) with true. change (Z.testbit 3 1) with true.
  change (Z.testbit 3 2) with false. change (Z.testbit 3 3) with false.
  change (Z.testbit 3 4) with false. change (Z.testbit 3 5) with false.
  change (Z.testbit 3 6) with false. change (Z.testbit 3 7) with false.
  rewrite !andb_true_r, !andb_false_r. simpl. lia.
Qed.

(** The seed is the population count of the low byte, bits 0 and 1 twice. *)
Lemma seed_weighted i :
  StateMap.seed i = popcount8 (Z.land i 255) + popcount8 (Z.land i 3) + 3.
Proof.
  unfold StateMap.seed.
  rewrite land_low_bit, land_2, !land_shiftr_bit by lia.
  rewrite popcount8_low_byte, popcount8_low_two. lia.
Qed.

Lemma seed_range i : 3 <= StateMap.seed i <= 13.
Proof.
  rewrite seed_weighted, popcount8_low_byte, popcount8_low_two.
  pose proof (bit_range i 0). pose proof (bit_range i 1).
  pose proof (bit_range i 2). pose proof (bit_range i 3).
  pose proof (bit_range i 4). pose proof (bit_range i 5).
  pose proof (bit_range i 6). pose proof (bit_range i 7). lia.
Qed.

Lemma lor_shiftl_28_6 s : 0 <= s → Z.lor (Z.shiftl s 28) 6 = s * 2 ^ 28 + 6.
Proof.
  intros Hs. rewrite <- Z.shiftl_mul_pow2 by lia.
  symmetry. apply Z.add_nocarry_lor.
  apply Z.bits_inj'. intros n Hn. rewrite Z.land_spec, Z.bits_0.
  destruct (Z.lt_ge_cases n 28).
  - by rewrite Z.shiftl_spec_low by lia.
  - rewrite (Z.bits_above_log2 6 n); [by rewrite andb_false_r|lia|].
    change (Z.log2 6) with 2. lia.
Qed.

Lemma init_cell_value i : StateMap.init_cell i = StateMap.seed i * 2 ^ 28 + 6.
Proof.
  pose proof (seed_range i) as Hs. unfold StateMap.init_cell.
  rewrite (U32_small (StateMap.seed i)) by lia.
  rewrite U32_small by (rewrite Z.shiftl_mul_pow2; lia).
  apply lor_shiftl_28_6. lia.
Qed.

Lemma init_cell_weighted i : StateMap.init_cell i = weighted_cell i.
Proof.
  unfold weighted_cell. rewrite init_cell_value, seed_weighted.
  pose proof (seed_range i) as Hs. rewrite seed_weighted in Hs.
  rewrite lor_shiftl_28_6; lia.
Qed.

(** C3, as stated, fails: cell 1 of the table is seeded with 5, not with
    popcount(1) + 3 = 4. *)
Lemma C3_plain_popcount_fails :
  StateMap.cell (StateMap.new 256) 1 ≠ popcount_cell 1.
Proof. vm_compute. intros H. discriminate H. Qed.

(** C3, amended: after construction with [n] contexts, cell [i] holds
    [(popcount(i & 0xFF) + popcount(i & 3) + 3) << 28 | 6]: the seed counts
    the one bits of the low byte of the index with bits 0 and 1 counted
    twice, and the count field starts at 6. *)
Theorem C3_new_cells_weighted_popcount n i :
  0 <= i < n →
  StateMap.cell (StateMap.new n) i = weighted_cell i
  ∧ Z.land (StateMap.cell (StateMap.new n) i) 0xFF = 6
  ∧ Z.shiftr (StateMap.cell (StateMap.new n) i) 28
    = popcount8 (Z.land i 0xFF) + popcount8 (Z.land i 3) + 3.
Proof.
  intros Hi. rewrite new_cell by done. split; [apply init_cell_weighted|].
  rewrite init_cell_value, land_255, Z.shiftr_div_pow2 by lia.
  pose proof (seed_range i) as Hs. rewrite <- seed_weighted.
  split; Z.div_mod_to_equations; lia.
Qed.

Lemma C3_new_cells_weighted_popcount_witness :
  StateMap.cell (StateMap.new 256) 0x66 = weighted_cell 0x66
  ∧ Z.land (StateMap.cell (StateMap.new 256) 0x66) 0xFF = 6
  ∧ Z.shiftr (StateMap.cell (StateMap.new 256) 0x66) 28
    = popcount8 (Z.land 0x66 0xFF) + popcount8 (Z.land 0x66 3) + 3.
Proof. apply (C3_new_cells_weighted_popcount 256 0x66). lia. Defined.

(** ** StateMap: update *)

Lemma lookup_total_insert_Z (l : list Z) i v :
  0 <= i < Z.of_nat (length l) → <[Z.to_nat i := v]> l !!! Z.to_nat i = v.
Proof. intros Hi. apply list_lookup_total_insert_eq. lia. Qed.

Lemma update_cell_sum y limit c :
  StateMap.update_cell y limit c
  = U32 (c + (if Z.land c 255 <? limit then 1 else 0)
         + Z.land ((Z.shiftl y 18 - Z.shiftr c 14) * StateMap.dt (Z.land c 255))
             0xffffff00).
Proof.
  unfold StateMap.update_cell. cbv zeta.
  destruct (Z.land c 255 <? limit).
  - unfold U32. by rewrite Zplus_mod_idemp_l.
  - by rewrite Z.add_0_r.
Qed.

(** C5: [update] rewrites the cell of the last prediction, and only that
    cell, to [(c + (n < limit)) + ((((y << 18) - p) * dt[n]) & 0xFFFFFF00)]
    modulo 2^32, where [c] is its prior value, [n = c & 0xFF] and
    [p = c >> 14]; the mask sees the product modulo 2^32, the masked term
    leaves the low 8 bits alone, and the count changes by the conditional
    increment only. *)
Theorem C5_update_exact sm y limit :
  0 <= StateMap.cxt sm < Z.of_nat (length (StateMap.t sm)) →
  0 <= StateMap.cell sm (StateMap.cxt sm) < 2 ^ 32 →
  y = 0 ∨ y = 1 →
  1 <= limit <= 254 →
  let c := StateMap.cell sm (StateMap.cxt sm) in
  let n := Z.land c 0xFF in
  let p := Z.shiftr c 14 in
  let inc := if n <? limit then 1 else 0 in
  let delta := (Z.shiftl y 18 - p) * StateMap.dt n in
  let c' := StateMap.cell (StateMap.update y limit sm) (StateMap.cxt sm) in
  c' = U32 ((c + inc) + Z.land delta 0xFFFFFF00)
  ∧ Z.land delta 0xFFFFFF00 = Z.land (U32 delta) 0xFFFFFF00
  ∧ Z.land c' 0xFF = Z.land (c + inc) 0xFF
  ∧ Z.land c' 0xFF = n + inc
  ∧ ∀ cx, Z.to_nat cx ≠ Z.to_nat (StateMap.cxt sm) →
      StateMap.cell (StateMap.update y limit sm) cx = StateMap.cell sm cx.
Proof.
  intros Hcx Hc Hy Hlim. cbv zeta.
  assert (Hc' : StateMap.cell (StateMap.update y limit sm) (StateMap.cxt sm)
                = StateMap.update_cell y limit (StateMap.cell sm (StateMap.cxt sm))).
  { unfold StateMap.cell at 1, StateMap.update. simpl.
    by rewrite lookup_total_insert_Z. }
  rewrite Hc', update_cell_sum. clear Hc'.
  set (c := StateMap.cell sm (StateMap.cxt sm)) in *.
  rewrite !land_0xffffff00, !land_255.
  set (inc := if c mod 256 <? limit then 1 else 0).
  assert (Hinc : 0 <= inc <= 1 ∧ c mod 256 + inc < 256).
  { subst inc. destruct (Z.ltb_spec (c mod 256) limit); word_lia. }
  clearbody inc.
  generalize ((Z.shiftl y 18 - Z.shiftr c 14) * StateMap.dt (c mod 256)). intros d.
  repeat split.
  - word_lia.
  - word_lia.
  - word_lia.
  - intros cx Hne. unfold StateMap.cell, StateMap.update. simpl.
    by rewrite list_lookup_total_insert_ne by done.
Qed.

Lemma C5_update_exact_witness :
  let sm := snd (StateMap.p 0x66 (StateMap.new 256)) in
  let c := StateMap.cell sm (StateMap.cxt sm) in
  let c' := StateMap.cell (StateMap.update 1 90 sm) (StateMap.cxt sm) in
  c' = U32 ((c + 1) + Z.land ((Z.shiftl 1 18 - Z.shiftr c 14) * StateMap.dt 6) 0xFFFFFF00)
  ∧ Z.land c' 0xFF = 7.
Proof.
  pose proof (C5_update_exact (snd (StateMap.p 0x66 (StateMap.new 256))) 1 90) as H.
  destruct H as (H1 & _ & _ & H4 & _).
  - vm_compute. split; [discriminate|reflexivity].
  - vm_compute. split; [discriminate|reflexivity].
  - by right.
  - lia.
  - split; [exact H1|exact H4].
Defined.

(** ** Encoder: the interval split *)

Lemma split_product w p :
  0 <= w → 0 <= p →
  w * p / 65536 = w / 65536 * p + w mod 65536 * p / 65536.
Proof.
  intros Hw Hp.
  rewrite (Z.div_mod w 65536) at 1 by lia.
  replace ((65536 * (w / 65536) + w mod 65536) * p)
    with (w / 65536 * p * 65536 + w mod 65536 * p) by ring.
  by rewrite Z.div_add_l by lia.
Qed.

Lemma xmid_value x1 x2 p :
  0 <= p <= 65535 →
  Encoder.xmid x1 x2 p = U32 (x1 + U32 (x2 - x1) * p / 65536).
Proof.
  intros Hp. unfold Encoder.xmid.
  rewrite land_0xffff, !Z.shiftr_div_pow2 by lia. change (2 ^ 16) with 65536.
  pose proof (U32_range (x2 - x1)) as Hw. set (w := U32 (x2 - x1)) in *.
  assert (Hh : 0 <= w / 65536 < 65536) by (Z.div_mod_to_equations; lia).
  assert (Hl : 0 <= w mod 65536 < 65536) by (Z.div_mod_to_equations; lia).
  rewrite (U32_small (w / 65536 * p)) by nia.
  rewrite (U32_small (w mod 65536 * p)) by nia.
  rewrite (split_product w p) by lia.
  unfold U32. rewrite Zplus_mod_idemp_l. f_equal. ring.
Qed.

Lemma xmid_in_interval x1 x2 p :
  0 <= x1 → x1 <= x2 → x2 < 2 ^ 32 → 0 <= p <= 65535 →
  Encoder.xmid x1 x2 p = x1 + (x2 - x1) * p / 65536
  ∧ x1 <= Encoder.xmid x1 x2 p <= x2
  ∧ (x1 < x2 → Encoder.xmid x1 x2 p < x2).
Proof.
  intros H1 H12 H2 Hp. rewrite xmid_value by done.
  rewrite (U32_small (x2 - x1)) by lia.
  assert (Hq : 0 <= (x2 - x1) * p / 65536 <= x2 - x1
               ∧ (x1 < x2 → (x2 - x1) * p / 65536 < x2 - x1)).
  { split; [split|intros Hlt].
    - apply Z.div_pos; nia.
    - apply Z.div_le_upper_bound; nia.
    - apply Z.div_lt_upper_bound; nia. }
  rewrite U32_small by lia. lia.
Qed.

(** C6: the split expression of [encode] and [decode] equals
    [x1 + floor(width * p / 65536)] modulo 2^32 for the 32-bit
    [width = x2 - x1] and every [p] in 0..65535; neither partial product
    exceeds 2^32 - 1, so the 32-bit products are exact, and with
    [x1 <= x2] the sum does not wrap either. *)
Theorem C6_split_no_overflow x1 x2 p :
  0 <= x1 < 2 ^ 32 → 0 <= x2 < 2 ^ 32 → 0 <= p <= 65535 →
  let width := U32 (x2 - x1) in
  Encoder.xmid x1 x2 p = U32 (x1 + width * p / 65536)
  ∧ Z.shiftr width 16 * p <= 2 ^ 32 - 1
  ∧ Z.land width 0xffff * p <= 2 ^ 32 - 1
  ∧ U32 (Z.shiftr width 16 * p) = Z.shiftr width 16 * p
  ∧ U32 (Z.land width 0xffff * p) = Z.land width 0xffff * p
  ∧ (x1 <= x2 → Encoder.xmid x1 x2 p = x1 + (x2 - x1) * p / 65536).
Proof.
  intros H1 H2 Hp width. split; [by apply xmid_value|].
  pose proof (U32_range (x2 - x1)) as Hw. fold width in Hw.
  rewrite land_0xffff, Z.shiftr_div_pow2 by lia. change (2 ^ 16) with 65536.
  assert (Hh : 0 <= width / 65536 < 65536) by (Z.div_mod_to_equations; lia).
  assert (Hl : 0 <= width mod 65536 < 65536) by (Z.div_mod_to_equations; lia).
  repeat split.
  - nia.
  - nia.
  - apply U32_small. nia.
  - apply U32_small. nia.
  - intros H12. apply xmid_in_interval; lia.
Qed.

Lemma C6_split_no_overflow_witness :
  Encoder.xmid 0x80000000 0xffffffff 0x9000
  = U32 (0x80000000 + U32 (0xffffffff - 0x80000000) * 0x9000 / 65536).
Proof.
  apply (C6_split_no_overflow 0x80000000 0xffffffff 0x9000); lia.
Defined.

(** ** Predictor: construction *)

Lemma predictor_fill e : Encoder.predictor (Encoder.fill e) = Encoder.predictor e.
Proof. unfold Encoder.fill. by destruct (_ <=? _). Qed.

Lemma predictor_new_decompress buf size :
  Encoder.predictor (Encoder.new_decompress buf size) = Predictor.new.
Proof. unfold Encoder.new_decompress. simpl. by rewrite !predictor_fill. Qed.

(** C9: a new [Predictor] has [cxt = 0] and 256 history entries, all 0x66;
    both constructors of [Encoder] start from it, so the first prediction of
    a coder of either mode looks up [StateMap] context 0x66 (and reads
    0x8000 there). *)
Theorem C9_first_context_is_0x66 size buf :
  Predictor.cxt Predictor.new = 0
  ∧ length (Predictor.state Predictor.new) = 256%nat
  ∧ Forall (λ s, s = 0x66) (Predictor.state Predictor.new)
  ∧ Predictor.key (Encoder.predictor (Encoder.new_compress size)) = 0x66
  ∧ Predictor.key (Encoder.predictor (Encoder.new_decompress buf size)) = 0x66
  ∧ StateMap.cxt (Predictor.sm (snd (Predictor.p
      (Encoder.predictor (Encoder.new_compress size))))) = 0x66
  ∧ StateMap.cxt (Predictor.sm (snd (Predictor.p
      (Encoder.predictor (Encoder.new_decompress buf size))))) = 0x66
  ∧ fst (Predictor.p (Encoder.predictor (Encoder.new_compress size))) = 0x8000
  ∧ fst (Predictor.p (Encoder.predictor (Encoder.new_decompress buf size))) = 0x8000.
Proof.
  rewrite predictor_new_decompress.
  change (Encoder.predictor (Encoder.new_compress size)) with Predictor.new.
  split; [done|]. split; [vm_compute; reflexivity|].
  split; [by apply Forall_replicate|].
  repeat split; vm_compute; reflexivity.
Qed.

(** ** Encoder: the DECOMPRESS constructor *)

Lemma byte_window_shift b : 0 <= b < 2 ^ 24 → U32 (U32 (Z.shiftl b 8) + Z.land 0 255) = b * 256.
Proof.
  intros Hb. rewrite Z.shiftl_mul_pow2 by lia. change (Z.land 0 255) with 0.
  rewrite Z.add_0_r. unfold U32. rewrite Z.mod_mod by lia.
  apply Z.mod_small. lia.
Qed.

(** C4 does not hold of the code: over an empty input ([bufSize = 0]) the
    first round of the constructor's loop passes the test [bufIdx <= bufSize]
    and loads [inBuf[0]], an index that is not below the size, and [x] ends
    as that byte shifted to the top, not as 0. *)
Theorem C4_empty_input_is_loaded m :
  let e := Encoder.new_decompress (Ptr m) 0 in
  Encoder.bufSize e = 0
  ∧ Encoder.loads e = [0]
  ∧ Encoder.x e = load m 0 * 2 ^ 24
  ∧ Encoder.loads (Encoder.new_decompress NULL 0) = [0]
  ∧ Encoder.x (Encoder.new_decompress (Ptr (bytes_then [] 1)) 0) = 0x01000000.
Proof.
  assert (Hx : ∀ m', Encoder.x (Encoder.new_decompress (Ptr m') 0) = load m' 0 * 2 ^ 24).
  { intros m'. pose proof (U8_range (m' 0)) as Hb. fold (load m' 0) in Hb.
    unfold Encoder.new_decompress, Encoder.fill. simpl.
    rewrite land_255, (Z.mod_small (load m' 0)) by lia.
    change (U32 (Z.shiftl 0 8)) with 0. rewrite Z.add_0_l.
    rewrite (U32_small (load m' 0)) by lia.
    rewrite (byte_window_shift (load m' 0)) by lia.
    rewrite (byte_window_shift (load m' 0 * 256)) by lia.
    rewrite (byte_window_shift (load m' 0 * 256 * 256)) by lia. lia. }
  cbv zeta. rewrite !Hx. repeat split.
Qed.

(** ** The round trip at a compressed stream shorter than four bytes *)

(** C1 does not hold of the code.  The two bytes 00 01 compress to the three
    bytes 7f c7 47.  Decompressing them with [len = 3], the constructor's
    fourth load reads index 3, past the end; when the byte there is 0x80 the
    call returns 3 and has stored 00 00 ff, and when it is 0xff the bytes
    stored begin with 00 00 and the 2-byte buffer overflows.  (With 0 past
    the end the input comes back.) *)
Theorem C1_round_trip_fails_on_short_stream :
  let s := [0; 1] in
  let c := [0x7f; 0xc7; 0x47] in
  let enc := fpaq0f2_compress 2 (Ptr (bytes_then s 0)) 2 (Ptr (λ _, 0)) 16 in
  let dec := fpaq0f2_decompress 4 (Ptr (bytes_then c 0x80)) 3 (Ptr (λ _, 0)) 16 in
  let dec' := fpaq0f2_decompress 4 (Ptr (bytes_then c 0xff)) 3 (Ptr (λ _, 0)) 2 in
  let dec0 := fpaq0f2_decompress 4 (Ptr (bytes_then c 0)) 3 (Ptr (λ _, 0)) 2 in
  ret enc = Some 3 ∧ stored_bytes (stores enc) = c
  ∧ Encoder.loads (Encoder.new_decompress (Ptr (bytes_then c 0x80)) 3) = [3; 2; 1; 0]
  ∧ ret dec = Some 3 ∧ stored_bytes (stores dec) = [0; 0; 0xff]
  ∧ ret dec' = Some 3 ∧ stored_bytes (stores dec') = [0; 0]
  ∧ ret dec0 = Some 2 ∧ stored_bytes (stores dec0) = s.
Proof. vm_compute. repeat split. Qed.

(** ** Stores stay below the capacity *)

Lemma out_ok_emit e :
  out_ok e → Encoder.bufIdx e < Encoder.bufSize e → out_ok (Encoder.emit e).
Proof.
  intros [Hi Hlog] Hlt. split; simpl.
  - pose proof (U32_range (Encoder.bufIdx e + 1)). lia.
  - constructor; [simpl; lia|done].
Qed.

Lemma out_ok_shift_out n e b e' :
  Encoder.shift_out n e = (b, e') →
  out_ok e → out_ok e' ∧ Encoder.bufSize e' = Encoder.bufSize e.
Proof.
  revert e. induction n as [|n IH]; intros e Hs Hok; simpl in Hs.
  - destruct (Encoder.msb_equal e); by simplify_eq.
  - destruct (Encoder.msb_equal e); [|by simplify_eq].
    destruct (Z.ltb_spec (Encoder.bufIdx e) (Encoder.bufSize e)); [|by simplify_eq].
    apply IH in Hs as [? ?]; [done|by apply out_ok_emit].
Qed.

Lemma out_ok_encode y e b e' :
  Encoder.encode y e = (b, e') →
  out_ok e → out_ok e' ∧ Encoder.bufSize e' = Encoder.bufSize e.
Proof.
  unfold Encoder.encode. destruct (Predictor.p (Encoder.predictor e)) as [p pr].
  intros Hs Hok. by apply out_ok_shift_out in Hs.
Qed.

Lemma out_ok_encode_bits k c e b e' :
  encode_bits k c e = (b, e') →
  out_ok e → out_ok e' ∧ Encoder.bufSize e' = Encoder.bufSize e.
Proof.
  revert e. induction k as [|k IH]; intros e Hs Hok; simpl in Hs; [by simplify_eq|].
  destruct (Encoder.encode _ e) as [ok e1] eqn:He.
  apply out_ok_encode in He as [Hok1 Hsz]; [|done].
  destruct ok; [|by simplify_eq].
  apply IH in Hs as [? ?]; [|done]. split; [done|congruence].
Qed.

Lemma out_ok_compress_loop fuel inp len idx e b e' :
  compress_loop fuel inp len idx e = Some (b, e') →
  out_ok e → out_ok e' ∧ Encoder.bufSize e' = Encoder.bufSize e.
Proof.
  revert idx e. induction fuel as [|fuel IH]; intros idx e Hs Hok;
    cbn [compress_loop] in Hs.
  - destruct (idx <? len); by simplify_eq.
  - destruct (idx <? len); [|by simplify_eq].
    destruct (Encoder.encode 1 e) as [ok e1] eqn:He.
    apply out_ok_encode in He as [Hok1 Hsz1]; [|done].
    destruct ok; [|by simplify_eq].
    destruct (encode_bits 8 _ e1) as [ok e2] eqn:Hb.
    apply out_ok_encode_bits in Hb as [Hok2 Hsz2]; [|done].
    destruct ok; [|simplify_eq; split; [done|congruence]].
    apply IH in Hs as [? ?]; [|done]. split; [done|congruence].
Qed.

Lemma out_ok_flush e b e' :
  Encoder.flush e = (b, e') →
  out_ok e → out_ok e' ∧ Encoder.bufSize e' = Encoder.bufSize e.
Proof.
  unfold Encoder.flush. intros Hs Hok.
  destruct (Encoder.mode e); [|by simplify_eq].
  destruct (Encoder.shift_out 4 e) as [ok e1] eqn:He.
  apply out_ok_shift_out in He as [[Hi Hlog] Hsz]; [|done].
  destruct ok; [|by simplify_eq].
  destruct (Z.ltb_spec (Encoder.bufIdx e1) (Encoder.bufSize e1)); simplify_eq; [|done].
  split; [|done]. split; simpl.
  - pose proof (U32_range (Encoder.bufIdx e1 + 1)). lia.
  - constructor; [simpl; lia|done].
Qed.

Lemma out_ok_new_compress size : out_ok (Encoder.new_compress size).
Proof. split; simpl; [lia|constructor]. Qed.

Lemma stores_below_weaken (cap cap' : Z) (log : list (Z * Z)) :
  cap <= cap' →
  Forall (λ s, 0 <= s.1 < cap) log → Forall (λ s, 0 <= s.1 < cap') log.
Proof.
  intros Hle Hlog. eapply Forall_impl; [exact Hlog|].
  intros s Hs. simpl in *. lia.
Qed.

Lemma compress_stores_below fuel in_ len out bufsize :
  0 <= bufsize →
  Forall (λ s, 0 <= s.1 < bufsize) (stores (fpaq0f2_compress fuel in_ len out bufsize)).
Proof.
  intros Hcap. unfold fpaq0f2_compress.
  destruct (is_null in_ && (0 <? len)); [constructor|].
  destruct (is_null out && (0 <? bufsize)); [constructor|].
  assert (Hsz : Encoder.bufSize (Encoder.new_compress bufsize) <= bufsize).
  { simpl. word_lia. }
  destruct (compress_loop _ _ _ _ _) as [[b e]|] eqn:Hl; [|constructor].
  apply out_ok_compress_loop in Hl as [Hok Hsz']; [|apply out_ok_new_compress].
  destruct b.
  - destruct (Encoder.encode 0 e) as [ok e1] eqn:He.
    apply out_ok_encode in He as [Hok1 Hsz1]; [|done].
    destruct ok.
    + destruct (Encoder.flush e1) as [ok e2] eqn:Hf.
      apply out_ok_flush in Hf as [[_ Hlog] Hsz2]; [|done].
      destruct ok; simpl; eapply stores_below_weaken; try exact Hlog; lia.
    + simpl. destruct Hok1 as [_ Hlog].
      eapply stores_below_weaken; [|exact Hlog]. lia.
  - simpl. destruct Hok as [_ Hlog].
    eapply stores_below_weaken; [|exact Hlog]. lia.
Qed.

Lemma decompress_loop_stores_below fuel bufsize idx out e :
  0 <= idx →
  Forall (λ s, 0 <= s.1 < bufsize) out →
  Forall (λ s, 0 <= s.1 < bufsize) (stores (decompress_loop fuel bufsize idx out e)).
Proof.
  revert idx out e. induction fuel as [|fuel IH]; intros idx out e Hi Hout;
    cbn [decompress_loop]; [done|].
  destruct (Encoder.decode e) as [y e1].
  destruct (y =? 0); [done|].
  destruct (decode_bits 8 1 e1) as [c e2].
  destruct (Z.ltb_spec idx bufsize); [|done].
  apply IH.
  - pose proof (U32_range (idx + 1)). lia.
  - constructor; [simpl; lia|done].
Qed.

(** C10: in a call of either entry point every store to [out] goes to an
    index in [0, bufsize): the stores of [encode] and [flush] and the byte
    store of [fpaq0f2_decompress] are each made under an index-below-capacity
    test.  It holds of every prefix of a run, whatever the fuel. *)
Theorem C10_stores_within_capacity fuel in_ len out bufsize :
  0 <= bufsize < 2 ^ 64 →
  Forall (λ s, 0 <= s.1 < bufsize) (stores (fpaq0f2_compress fuel in_ len out bufsize))
  ∧ Forall (λ s, 0 <= s.1 < bufsize) (stores (fpaq0f2_decompress fuel in_ len out bufsize)).
Proof.
  intros Hcap. split; [apply compress_stores_below; lia|].
  unfold fpaq0f2_decompress.
  destruct (is_null in_ && (0 <? len)); [constructor|].
  destruct (is_null out && (0 <? bufsize)); [constructor|].
  destruct (null_load in_ _); [constructor|].
  apply decompress_loop_stores_below; [lia|constructor].
Qed.

Lemma C10_stores_within_capacity_witness :
  Forall (λ s, 0 <= s.1 < 16)
    (stores (fpaq0f2_compress 2 (Ptr (bytes_then [0; 1] 0)) 2 (Ptr (λ _, 0)) 16))
  ∧ Forall (λ s, 0 <= s.1 < 16)
    (stores (fpaq0f2_decompress 2 (Ptr (bytes_then [0; 1] 0)) 2 (Ptr (λ _, 0)) 16)).
Proof.
  apply (C10_stores_within_capacity 2 (Ptr (bytes_then [0; 1] 0)) 2 (Ptr (λ _, 0)) 16).
  lia.
Defined.

(** ** The interval invariant *)

Lemma lookup_total_Forall (P : Z → Prop) (l : list Z) i :
  Forall P l → P inhabitant → P (l !!! i).
Proof.
  intros Hl Hd. rewrite list_lookup_total_alt.
  destruct (l !! i) as [c|] eqn:Hc; simpl; [|done].
  by eapply Forall_lookup_1.
Qed.

Lemma cell_in_range sm cx : cells_in_range sm → 0 <= StateMap.cell sm cx < 2 ^ 32.
Proof. intros Hsm. apply (lookup_total_Forall (λ c, 0 <= c < 2 ^ 32)); [done|]. by vm_compute. Qed.

Lemma p_in_range sm cx :
  cells_in_range sm → 0 <= fst (StateMap.p cx sm) <= 65535.
Proof.
  intros Hsm. pose proof (cell_in_range sm cx Hsm) as Hc. simpl.
  rewrite Z.shiftr_div_pow2 by lia. Z.div_mod_to_equations. lia.
Qed.

Lemma cells_in_range_p sm cx : cells_in_range sm → cells_in_range (snd (StateMap.p cx sm)).
Proof. done. Qed.

Lemma cells_in_range_update sm y limit :
  cells_in_range sm → cells_in_range (StateMap.update y limit sm).
Proof.
  intros Hsm. unfold cells_in_range, StateMap.update. simpl.
  apply Forall_insert; [done|]. apply U32_range.
Qed.

Lemma init_cell_range i : 0 <= StateMap.init_cell i < 2 ^ 32.
Proof. rewrite init_cell_value. pose proof (seed_range i). lia. Qed.

Lemma init_from_range k i : Forall (λ c, 0 <= c < 2 ^ 32) (StateMap.init_from k i).
Proof.
  revert i. induction k as [|k IH]; intros i; simpl; constructor.
  - apply init_cell_range.
  - apply IH.
Qed.

Lemma cells_in_range_new n : cells_in_range (StateMap.new n).
Proof. apply init_from_range. Qed.

Lemma predictor_p_range pr :
  cells_in_range (Predictor.sm pr) →
  0 <= fst (Predictor.p pr) <= 65535
  ∧ cells_in_range (Predictor.sm (snd (Predictor.p pr))).
Proof.
  intros Hsm. unfold Predictor.p.
  pose proof (p_in_range (Predictor.sm pr) (Predictor.key pr) Hsm) as Hp.
  destruct (StateMap.p _ _) as [v sm'] eqn:Hq. simpl in *.
  split; [done|]. by injection Hq as _ <-.
Qed.

Lemma cells_in_range_predictor_update y pr :
  cells_in_range (Predictor.sm pr) →
  cells_in_range (Predictor.sm (Predictor.update y pr)).
Proof. intros Hsm. simpl. by apply cells_in_range_update. Qed.

(** Equal top bytes, seen arithmetically. *)
Lemma msb_equal_div e :
  interval_le e →
  Encoder.msb_equal e = (Encoder.x1 e / 2 ^ 24 =? Encoder.x2 e / 2 ^ 24).
Proof. intros (H1 & H12 & H2). unfold Encoder.msb_equal. apply top_byte_test; lia. Qed.

Lemma shift_words a b :
  0 <= a → a <= b → b < 2 ^ 32 → a / 2 ^ 24 = b / 2 ^ 24 →
  U32 (Z.shiftl a 8) = a mod 2 ^ 24 * 256
  ∧ U32 (U32 (Z.shiftl b 8) + 255) = b mod 2 ^ 24 * 256 + 255
  ∧ a mod 2 ^ 24 <= b mod 2 ^ 24.
Proof.
  intros Ha Hab Hb Htop. rewrite !Z.shiftl_mul_pow2 by lia.
  unfold U32. rewrite Zplus_mod_idemp_l.
  repeat split; Z.div_mod_to_equations; lia.
Qed.

Lemma interval_emit e :
  interval_le e → Encoder.msb_equal e = true →
  interval_le (Encoder.emit e) ∧ Encoder.x1 (Encoder.emit e) < Encoder.x2 (Encoder.emit e).
Proof.
  intros Hle Hmsb. rewrite msb_equal_div in Hmsb by done.
  destruct Hle as (H1 & H12 & H2). apply Z.eqb_eq in Hmsb.
  destruct (shift_words _ _ H1 H12 H2 Hmsb) as (Ha & Hb & Hab).
  unfold interval_le. simpl. rewrite Ha, Hb.
  repeat split; Z.div_mod_to_equations; lia.
Qed.

Lemma interval_refill e :
  interval_le e → Encoder.msb_equal e = true →
  interval_le (Encoder.refill e) ∧ Encoder.x1 (Encoder.refill e) < Encoder.x2 (Encoder.refill e).
Proof.
  intros Hle Hmsb. rewrite msb_equal_div in Hmsb by done.
  destruct Hle as (H1 & H12 & H2). apply Z.eqb_eq in Hmsb.
  destruct (shift_words _ _ H1 H12 H2 Hmsb) as (Ha & Hb & Hab).
  unfold interval_le. simpl. rewrite Ha, Hb.
  repeat split; Z.div_mod_to_equations; lia.
Qed.

Lemma msb_differ_strict e :
  interval_le e → Encoder.msb_equal e = false → Encoder.x1 e < Encoder.x2 e.
Proof.
  intros Hle Hmsb. rewrite msb_equal_div in Hmsb by done.
  destruct Hle as (H1 & H12 & H2). apply Z.eqb_neq in Hmsb.
  destruct (Z.eq_dec (Encoder.x1 e) (Encoder.x2 e)) as [Heq|]; [|lia].
  by rewrite Heq in Hmsb.
Qed.

(** The shift loop keeps the interval ordered; when it ends by its own test,
    after at least one round or from a proper interval, the interval is
    proper. *)
Lemma shift_out_interval n e b e' :
  Encoder.shift_out n e = (b, e') →
  interval_le e →
  interval_le e'
  ∧ Encoder.predictor e' = Encoder.predictor e
  ∧ (b = true → (0 < n)%nat ∨ Encoder.x1 e < Encoder.x2 e →
     Encoder.x1 e' < Encoder.x2 e').
Proof.
  revert e. induction n as [|n IH]; intros e Hs Hle; simpl in Hs.
  - assert (e' = e) as -> by (destruct (Encoder.msb_equal e); by simplify_eq).
    repeat split; try apply Hle. intros _ [?|?]; [lia|done].
  - destruct (Encoder.msb_equal e) eqn:Hmsb.
    + destruct (Encoder.bufIdx e <? Encoder.bufSize e).
      * destruct (interval_emit e Hle Hmsb) as [Hle1 Hlt1].
        destruct (IH _ Hs Hle1) as (Hle' & Hpr & Hstrict).
        repeat split; try apply Hle'; [done|]. intros Hb _. apply Hstrict; auto.
      * simplify_eq. repeat split; try apply Hle. done.
    + simplify_eq. repeat split; try apply Hle.
      intros _ _. by apply msb_differ_strict.
Qed.

Lemma shift_in_interval n e :
  interval_le e →
  interval_le (Encoder.shift_in n e)
  ∧ Encoder.predictor (Encoder.shift_in n e) = Encoder.predictor e
  ∧ ((0 < n)%nat ∨ Encoder.x1 e < Encoder.x2 e →
     Encoder.x1 (Encoder.shift_in n e) < Encoder.x2 (Encoder.shift_in n e)).
Proof.
  revert e. induction n as [|n IH]; intros e Hle; simpl.
  - assert (Encoder.shift_in 0 e = e) as Heq by (simpl; by destruct (Encoder.msb_equal e)).
    simpl in Heq. rewrite Heq. repeat split; try apply Hle. intros [?|?]; [lia|done].
  - destruct (Encoder.msb_equal e) eqn:Hmsb.
    + destruct (interval_refill e Hle Hmsb) as [Hle1 Hlt1].
      destruct (IH _ Hle1) as (Hle' & Hpr & Hstrict).
      repeat split; try apply Hle'; [done|]. intros _. apply Hstrict; auto.
    + repeat split; try apply Hle. intros _. by apply msb_differ_strict.
Qed.

(** The split point lies in [x1, x2) and the interval left by the split is
    ordered and strictly narrower. *)
Lemma narrow_interval y p pr e :
  interval_le e → Encoder.x1 e < Encoder.x2 e → 0 <= p <= 65535 →
  let xm := Encoder.xmid (Encoder.x1 e) (Encoder.x2 e) p in
  Encoder.x1 e <= xm < Encoder.x2 e
  ∧ interval_le (Encoder.narrow y xm pr e)
  ∧ Encoder.x2 (Encoder.narrow y xm pr e) - Encoder.x1 (Encoder.narrow y xm pr e)
    < Encoder.x2 e - Encoder.x1 e.
Proof.
  intros (H1 & H12 & H2) Hlt Hp xm.
  destruct (xmid_in_interval (Encoder.x1 e) (Encoder.x2 e) p) as (_ & Hm & Hm'); try done.
  fold xm in Hm, Hm'. specialize (Hm' Hlt).
  split; [lia|]. unfold interval_le. simpl.
  destruct (y =? 0); rewrite ?U32_small by lia; lia.
Qed.

Lemma coder_ok_encode y e b e' :
  coder_ok e → Encoder.encode y e = (b, e') →
  interval_le e'
  ∧ cells_in_range (Predictor.sm (Encoder.predictor e'))
  ∧ (b = true → coder_ok e').
Proof.
  intros (Hle & Hlt & Hsm) He. unfold Encoder.encode in He.
  destruct (predictor_p_range _ Hsm) as [Hp Hsm1].
  destruct (Predictor.p (Encoder.predictor e)) as [p pr]. simpl in Hp, Hsm1.
  rewrite (U32_small p) in He by lia.
  destruct (narrow_interval y p (Predictor.update y pr) e Hle Hlt Hp) as (_ & Hle1 & _).
  destruct (shift_out_interval _ _ _ _ He Hle1) as (Hle' & Hpr & Hstrict).
  assert (Hsm' : cells_in_range (Predictor.sm (Encoder.predictor e'))).
  { rewrite Hpr. simpl. by apply cells_in_range_update. }
  repeat split; try apply Hle'; try done.
  apply Hstrict; [done|]. left. lia.
Qed.

Lemma coder_ok_decode e y e' :
  coder_ok e → Encoder.decode e = (y, e') → coder_ok e' ∧ (y = 0 ∨ y = 1).
Proof.
  intros (Hle & Hlt & Hsm) He. unfold Encoder.decode in He.
  destruct (predictor_p_range _ Hsm) as [Hp Hsm1].
  destruct (Predictor.p (Encoder.predictor e)) as [p pr]. simpl in Hp, Hsm1.
  rewrite (U32_small p) in He by lia.
  set (y' := if Encoder.x e <=? _ then 1 else 0) in *.
  assert (Hy : y' = y) by congruence.
  assert (He' : e' = Encoder.shift_in 4
            (Encoder.narrow y' (Encoder.xmid (Encoder.x1 e) (Encoder.x2 e) p)
               (Predictor.update y' pr) e)) by congruence.
  clear He. subst e'.
  destruct (narrow_interval y' p (Predictor.update y' pr) e Hle Hlt Hp) as (_ & Hle1 & _).
  destruct (shift_in_interval 4 _ Hle1) as (Hle' & Hpr & Hstrict).
  split; [|subst y y'; destruct (_ <=? _); auto].
  assert (Hlt' := Hstrict (or_introl (Nat.lt_0_succ 3))).
  assert (Hsm' := cells_in_range_update (Predictor.sm pr) y' 90 Hsm1).
  unfold coder_ok. rewrite Hpr. done.
Qed.

Lemma coder_ok_new_compress size : coder_ok (Encoder.new_compress size).
Proof.
  repeat split; simpl; try lia. apply cells_in_range_new.
Qed.

Lemma fill_interval e :
  Encoder.x1 (Encoder.fill e) = Encoder.x1 e ∧ Encoder.x2 (Encoder.fill e) = Encoder.x2 e.
Proof. unfold Encoder.fill. by destruct (_ <=? _). Qed.

Lemma coder_ok_new_decompress buf size : coder_ok (Encoder.new_decompress buf size).
Proof.
  unfold coder_ok, interval_le. rewrite predictor_new_decompress.
  unfold Encoder.new_decompress. simpl.
  repeat (rewrite (proj1 (fill_interval _)) || rewrite (proj2 (fill_interval _))).
  simpl. repeat split; try lia. apply cells_in_range_new.
Qed.

Lemma reachable_coder_ok e : reachable e → coder_ok e.
Proof.
  induction 1 as [size|buf size|e y e' _ IH Hy He|e y e' _ IH He].
  - apply coder_ok_new_compress.
  - apply coder_ok_new_decompress.
  - by apply (coder_ok_encode y e true e' IH He).
  - by apply (coder_ok_decode e y e' IH He).
Qed.

(** Why a run ends at the first [false]: over a 0-byte buffer the eighth
    [encode(1)] returns [false] from inside its shift loop; were
    [encode(1)] called on regardless, which neither entry point does, the
    interval would shrink to x1 = x2 = 0 after 41 calls, and the split
    point of the next call would not be below [x2]. *)
Lemma encode_after_overflow_empties_interval :
  let again := λ e, snd (Encoder.encode 1 e) in
  let e7 := Nat.iter 7 again (Encoder.new_compress 0) in
  let e := Nat.iter 41 again (Encoder.new_compress 0) in
  let p := U32 (fst (Predictor.p (Encoder.predictor e))) in
  fst (Encoder.encode 1 e7) = false
  ∧ Encoder.x1 e = 0 ∧ Encoder.x2 e = 0
  ∧ ¬ Encoder.xmid (Encoder.x1 e) (Encoder.x2 e) p < Encoder.x2 e.
Proof. vm_compute. repeat split. intros H. discriminate H. Qed.

(** C7: in every coder that a sequence of [encode] and [decode] calls
    reaches from a freshly constructed one (x1 = 0, x2 = 0xffffffff), each
    [encode] made as the two entry points make it, after the previous one
    returned [true], the interval is ordered, the probability the next call
    reads is at most 0xffff, and the split point that call computes lies in
    [x1, x2), so the assertion on [xmid] in [encode] and [decode] holds;
    the interval is ordered also in the coder that the last [encode] of a
    run leaves when it reports overflow. *)
Theorem C7_interval_invariant e :
  reachable e →
  let p := U32 (fst (Predictor.p (Encoder.predictor e))) in
  let xm := Encoder.xmid (Encoder.x1 e) (Encoder.x2 e) p in
  0 <= Encoder.x1 e ∧ Encoder.x1 e <= Encoder.x2 e ∧ Encoder.x2 e <= 0xffffffff
  ∧ p <= 0xffff
  ∧ Encoder.x1 e <= xm ∧ xm < Encoder.x2 e
  ∧ ∀ y b e', Encoder.encode y e = (b, e') → Encoder.x1 e' <= Encoder.x2 e'.
Proof.
  intros Hr p xm. pose proof (reachable_coder_ok e Hr) as Hok.
  destruct Hok as (Hle & Hlt & Hsm).
  destruct (predictor_p_range _ Hsm) as [Hp _].
  assert (Hp' : 0 <= p <= 65535) by (subst p; rewrite U32_small; lia).
  destruct (narrow_interval 0 p (Encoder.predictor e) e Hle Hlt Hp') as (Hxm & _).
  fold xm in Hxm. destruct Hle as (H1 & H12 & H2).
  repeat split; try lia.
  intros y b e' He.
  destruct (coder_ok_encode y e b e') as ((_ & Hle' & _) & _); [done|done|done].
Qed.

Lemma C7_interval_invariant_witness :
  let e := (Encoder.decode
              (Encoder.new_decompress (Ptr (bytes_then [0x7f; 0xc7; 0x47] 0)) 3)).2 in
  let p := U32 (fst (Predictor.p (Encoder.predictor e))) in
  let xm := Encoder.xmid (Encoder.x1 e) (Encoder.x2 e) p in
  0 <= Encoder.x1 e ∧ Encoder.x1 e <= Encoder.x2 e ∧ Encoder.x2 e <= 0xffffffff
  ∧ p <= 0xffff
  ∧ Encoder.x1 e <= xm ∧ xm < Encoder.x2 e
  ∧ ∀ y b e', Encoder.encode y e = (b, e') → Encoder.x1 e' <= Encoder.x2 e'.
Proof.
  apply (C7_interval_invariant
           (Encoder.decode
              (Encoder.new_decompress (Ptr (bytes_then [0x7f; 0xc7; 0x47] 0)) 3)).2).
  eapply reach_decode; [apply reach_decompress|]. apply surjective_pairing.
Defined.

(** ** StateMap: predictions move toward the bit *)

Lemma dt_reciprocal n :
  0 <= n < 256 →
  0 < StateMap.dt n ∧ StateMap.dt n * (2 * n + 3) <= 32768
  ∧ 32768 < (StateMap.dt n + 1) * (2 * n + 3).
Proof.
  intros Hn. rewrite dt_spec by done.
  replace (n + n + 3) with (2 * n + 3) by lia.
  Z.div_mod_to_equations. nia.
Qed.

(** The step toward 1: the error [2^18 - p] times the rate, rounded down to
    a multiple of 256. *)
Lemma update_cell_up limit c :
  0 <= c < 2 ^ 32 →
  StateMap.update_cell 1 limit c
  = U32 (c + (if c mod 256 <? limit then 1 else 0)
         + (2 ^ 18 - c / 2 ^ 14) * StateMap.dt (c mod 256) / 256 * 256).
Proof.
  intros Hc. rewrite update_cell_sum, land_0xffffff00, !land_255.
  rewrite Z.shiftr_div_pow2, Z.shiftl_mul_pow2 by lia. rewrite Z.mul_1_l.
  assert (Hn : 0 <= c mod 256 < 256) by (Z.div_mod_to_equations; lia).
  destruct (dt_bounds _ Hn) as [Hd1 Hd2].
  assert (Hq : 0 < 2 ^ 18 - c / 2 ^ 14 <= 2 ^ 18) by (Z.div_mod_to_equations; lia).
  rewrite (Z.mod_small (_ / 256)); [done|].
  split; [apply Z.div_pos; nia|]. apply Z.div_lt_upper_bound; nia.
Qed.

(** The step toward 0: the error [p] times the rate, rounded up to a
    multiple of 256, taken off. *)
Lemma update_cell_down limit c :
  0 <= c < 2 ^ 32 →
  ∃ k, 0 <= 256 * k <= c
       ∧ (c / 2 ^ 14 * StateMap.dt (c mod 256) <= 256 * k)
       ∧ (0 < k → 2 ^ 14 <= c)
       ∧ StateMap.update_cell 0 limit c
         = c + (if c mod 256 <? limit then 1 else 0) - 256 * k.
Proof.
  intros Hc. rewrite update_cell_sum, land_0xffffff00, !land_255.
  rewrite Z.shiftr_div_pow2, Z.shiftl_mul_pow2 by lia. rewrite Z.mul_0_l, Z.sub_0_l.
  assert (Hn : 0 <= c mod 256 < 256) by (Z.div_mod_to_equations; lia).
  destruct (dt_bounds _ Hn) as [Hd1 Hd2].
  set (d := StateMap.dt (c mod 256)) in *.
  set (inc := if c mod 256 <? limit then 1 else 0).
  assert (Hinc : 0 <= inc <= 1) by (subst inc; destruct (_ <? _); lia).
  assert (Hp : 0 <= c / 2 ^ 14 < 2 ^ 18
               ∧ c / 2 ^ 14 * 2 ^ 14 <= c < (c / 2 ^ 14 + 1) * 2 ^ 14)
    by (Z.div_mod_to_equations; lia).
  set (p := c / 2 ^ 14) in *.
  exists (- (- p * d / 256)).
  assert (Hk : p * d <= 256 * - (- p * d / 256) < p * d + 256)
    by (Z.div_mod_to_equations; nia).
  set (k := - (- p * d / 256)) in *.
  assert (Hk0 : 0 <= k) by nia.
  assert (Hkc : 256 * k <= c ∧ (0 < k → 1 <= p)) by nia.
  split; [lia|]. split; [lia|]. split; [lia|].
  replace (- p * d / 256) with (- k) by lia.
  destruct (Z.eq_dec k 0) as [->|Hk1].
  - simpl. rewrite Z.add_0_r, Z.sub_0_r.
    destruct (Z.eq_dec p 0) as [Hp0|Hp1]; [|nia].
    apply U32_small. lia.
  - assert (k < 2 ^ 24) by nia.
    replace (- k mod 2 ^ 24) with (2 ^ 24 - k) by (Z.div_mod_to_equations; lia).
    unfold U32.
    replace (c + inc + (2 ^ 24 - k) * 256) with (c + inc - 256 * k + 1 * 2 ^ 32) by lia.
    rewrite Z.mod_add by lia. apply Z.mod_small. lia.
Qed.

Lemma cell_parts c :
  0 <= c < 2 ^ 32 →
  0 <= c mod 256 < 256
  ∧ 0 < 2 ^ 18 - c / 2 ^ 14 <= 2 ^ 18
  ∧ ∃ r, 0 <= r < 2 ^ 14 ∧ (2 ^ 18 - c / 2 ^ 14) * 2 ^ 14 = 2 ^ 32 - c + r.
Proof.
  intros Hc. split; [Z.div_mod_to_equations; lia|].
  split; [Z.div_mod_to_equations; lia|].
  exists (c mod 2 ^ 14). Z.div_mod_to_equations. lia.
Qed.

(** From a settled cell the step toward 1 does not wrap. *)
Lemma cell_up_exact limit c :
  cell_ok c → 1 <= limit <= 254 →
  ∃ m, 0 <= m ∧ m mod 256 = 0
       ∧ (2 ^ 18 - c / 2 ^ 14) * StateMap.dt (c mod 256) - 255 <= m
       ∧ m <= (2 ^ 18 - c / 2 ^ 14) * StateMap.dt (c mod 256)
       ∧ 2 <= 2 ^ 32 - c - m
       ∧ (c mod 256 < 90 →
          10 ^ 10 <= (2 ^ 32 - c - 1 - m) * (2 * (c mod 256) + 3)
                     + 40000 * (c mod 256 + 1))
       ∧ (c mod 256 = 90 → 16000 <= 2 ^ 32 - c - m)
       ∧ StateMap.update_cell 1 limit c
         = c + (if c mod 256 <? limit then 1 else 0) + m.
Proof.
  intros (Hc & Hn & Hlow & Htop) Hlim.
  rewrite update_cell_up by done.
  destruct (cell_parts c Hc) as (Hn' & Hq & r & Hr & Hqr).
  destruct (dt_reciprocal _ Hn') as (Hd0 & Hd1 & Hd2).
  set (n := c mod 256) in *. set (d := StateMap.dt n) in *.
  set (q := 2 ^ 18 - c / 2 ^ 14) in *.
  set (inc := if n <? limit then 1 else 0).
  assert (Hinc : 0 <= inc <= 1) by (subst inc; destruct (_ <? _); lia).
  exists (q * d / 256 * 256).
  assert (Hm : 0 <= q * d / 256 * 256 ∧ (q * d / 256 * 256) mod 256 = 0
               ∧ q * d - 255 <= q * d / 256 * 256 <= q * d).
  { assert (0 <= q * d) by nia. Z.div_mod_to_equations. lia. }
  set (m := q * d / 256 * 256) in *.
  assert (Hqd : q * d * (2 * n + 3) <= q * 32768) by nia.
  assert (Hmn : m * (2 * n + 3) <= q * d * (2 * n + 3)) by nia.
  assert (Hnext : n < 90 →
            10 ^ 10 <= (2 ^ 32 - c - 1 - m) * (2 * n + 3) + 40000 * (n + 1)) by nia.
  assert (Hsat : n = 90 → 16000 <= 2 ^ 32 - c - m).
  { intros Hn90. specialize (Htop Hn90).
    assert (d <= 179) by nia.
    destruct (Z.eq_dec q 1) as [Hq1|Hq1].
    - assert (m = 0) by (Z.div_mod_to_equations; nia). lia.
    - assert (m <= 179 * q) by nia. lia. }
  assert (Hroom : 2 <= 2 ^ 32 - c - m).
  { destruct (Z.eq_dec n 90) as [Hn90|Hn90]; [specialize (Hsat Hn90); lia|].
    assert (Hlt : n < 90) by lia. specialize (Hnext Hlt). nia. }
  repeat split; try lia; try done.
  apply U32_small. lia.
Qed.

Lemma cell_ok_up c : cell_ok c → cell_ok (StateMap.update_cell 1 90 c).
Proof.
  intros Hok. destruct (cell_up_exact 90 c Hok) as (m & Hm0 & Hm & _ & _ & Hroom & Hnext & Hsat & ->); [lia|].
  destruct Hok as (Hc & Hn & Hlow & Htop).
  set (n := c mod 256) in *.
  assert (Hinc : (if n <? 90 then 1 else 0) = (if Z.eq_dec n 90 then 0 else 1)).
  { destruct (Z.ltb_spec n 90), (Z.eq_dec n 90); lia. }
  rewrite Hinc. clear Hinc.
  destruct (Z.eq_dec n 90) as [Hn90|Hn90].
  - assert (Hn' : (c + 0 + m) mod 256 = 90) by (subst n; Z.div_mod_to_equations; lia).
    unfold cell_ok. rewrite Hn'. specialize (Hsat Hn90). repeat split; lia.
  - assert (Hn' : (c + 1 + m) mod 256 = n + 1) by (subst n; Z.div_mod_to_equations; lia).
    unfold cell_ok. rewrite Hn'. assert (Hlt : n < 90) by lia. specialize (Hnext Hlt).
    repeat split; try lia.
Qed.

Lemma cell_ok_down c : cell_ok c → cell_ok (StateMap.update_cell 0 90 c).
Proof.
  intros (Hc & Hn & Hlow & Htop).
  destruct (update_cell_down 90 c Hc) as (k & Hk & _ & _ & ->).
  set (n := c mod 256) in *.
  assert (Hinc : (if n <? 90 then 1 else 0) = (if Z.eq_dec n 90 then 0 else 1)).
  { destruct (Z.ltb_spec n 90), (Z.eq_dec n 90); lia. }
  rewrite Hinc. clear Hinc.
  destruct (Z.eq_dec n 90) as [Hn90|Hn90].
  - assert (Hn' : (c + 0 - 256 * k) mod 256 = 90) by (subst n; Z.div_mod_to_equations; lia).
    unfold cell_ok. rewrite Hn'. specialize (Htop Hn90). repeat split; lia.
  - assert (Hn' : (c + 1 - 256 * k) mod 256 = n + 1) by (subst n; Z.div_mod_to_equations; lia).
    unfold cell_ok. rewrite Hn'. assert (Hlt : n < 90) by lia. specialize (Hlow Hlt).
    assert (Hc1 : c + 1 < 2 ^ 32) by (subst n; Z.div_mod_to_equations; lia).
    repeat split; try lia; intros _; nia.
Qed.

(** After a 1 the prediction is not lower; it is the same only when the
    count is 90 and the prediction is at least 65444. *)
Lemma cell_up_monotone limit c :
  cell_ok c → 1 <= limit <= 254 →
  c / 2 ^ 16 <= StateMap.update_cell 1 limit c / 2 ^ 16
  ∧ (StateMap.update_cell 1 limit c / 2 ^ 16 = c / 2 ^ 16 →
     c mod 256 = 90 ∧ 65444 <= c / 2 ^ 16).
Proof.
  intros Hok Hlim.
  destruct (cell_up_exact limit c Hok Hlim) as (m & Hm0 & _ & Hm1 & _ & _ & _ & _ & ->).
  destruct Hok as (Hc & Hn & Hlow & Htop).
  destruct (cell_parts c Hc) as (Hn' & Hq & r & Hr & Hqr).
  destruct (dt_reciprocal _ Hn') as (Hd0 & Hd1 & Hd2).
  set (n := c mod 256) in *. set (d := StateMap.dt n) in *.
  set (inc := if n <? limit then 1 else 0).
  assert (Hinc : 0 <= inc <= 1) by (subst inc; destruct (_ <? _); lia).
  clearbody inc.
  split; [Z.div_mod_to_equations; lia|]. intros Heq.
  assert (Hsmall : inc + m < 2 ^ 16) by (Z.div_mod_to_equations; lia).
  assert (Hpq : c / 2 ^ 16 = c / 2 ^ 14 / 4).
  { rewrite Z.div_div by lia. done. }
  set (q := 2 ^ 18 - c / 2 ^ 14) in *.
  destruct (Z.eq_dec n 90) as [Hn90|Hn90].
  - split; [done|]. assert (179 <= d) by nia.
    assert (q <= 367) by nia. rewrite Hpq. Z.div_mod_to_equations. lia.
  - exfalso. assert (Hlt : n < 90) by lia. specialize (Hlow Hlt).
    assert (181 <= d) by nia. assert (3408 <= q) by nia. nia.
Qed.

(** After a 0 the prediction is not higher. *)
Lemma cell_down_monotone limit c :
  0 <= c < 2 ^ 32 → c mod 256 <= 254 →
  StateMap.update_cell 0 limit c / 2 ^ 16 <= c / 2 ^ 16.
Proof.
  intros Hc Hn.
  destruct (update_cell_down limit c Hc) as (k & Hk & Hpk & Hk14 & ->).
  assert (Hn' : 0 <= c mod 256 < 256) by (Z.div_mod_to_equations; lia).
  destruct (dt_bounds _ Hn') as [Hd _].
  set (inc := if c mod 256 <? limit then 1 else 0).
  assert (Hinc : 0 <= inc <= 1) by (subst inc; destruct (_ <? _); lia).
  clearbody inc.
  destruct (Z.eq_dec k 0) as [->|Hk1].
  - assert (0 <= c / 2 ^ 14) by (apply Z.div_pos; lia).
    assert (c / 2 ^ 14 = 0) by nia.
    assert (c < 2 ^ 14) by (Z.div_mod_to_equations; lia).
    Z.div_mod_to_equations. lia.
  - Z.div_mod_to_equations. lia.
Qed.

Lemma cell_ok_init i : cell_ok (StateMap.init_cell i).
Proof.
  rewrite init_cell_value. pose proof (seed_range i) as Hs.
  assert (Hn : (StateMap.seed i * 2 ^ 28 + 6) mod 256 = 6) by (Z.div_mod_to_equations; lia).
  unfold cell_ok. rewrite Hn. repeat split; lia.
Qed.

Lemma init_from_ok k i : Forall cell_ok (StateMap.init_from k i).
Proof.
  revert i. induction k as [|k IH]; intros i; simpl; constructor.
  - apply cell_ok_init.
  - apply IH.
Qed.

Lemma sm_reachable_table_ok sm : sm_reachable sm → table_ok sm.
Proof.
  induction 1 as [|sm cx _ (Hlen & Hcx & Hall) Hcx'|sm y _ (Hlen & Hcx & Hall) Hy].
  - split; [rewrite length_new; lia|]. split; [done|]. apply init_from_ok.
  - split; [done|]. split; [simpl; lia|done].
  - split; [simpl; by rewrite length_insert|]. split; [done|]. simpl.
    apply Forall_insert; [done|].
    assert (Hc : cell_ok (StateMap.cell sm (StateMap.cxt sm))).
    { unfold StateMap.cell. apply Forall_lookup_total_1; [done|lia]. }
    destruct Hy as [->| ->]; [by apply cell_ok_down|by apply cell_ok_up].
Qed.

(** X1: in the codec the signed product of [update] fits an [int]: the count of
    a cell is at least 6, so the rate is at most 2184 and the product below
    2^18 * 2184 in absolute value. *)
Lemma update_no_signed_overflow sm y :
  sm_reachable sm → y = 0 ∨ y = 1 →
  let c := StateMap.cell sm (StateMap.cxt sm) in
  - 2 ^ 31 <= (Z.shiftl y 18 - Z.shiftr c 14) * StateMap.dt (Z.land c 255) < 2 ^ 31.
Proof.
  intros Hr Hy c. destruct (sm_reachable_table_ok sm Hr) as (Hlen & Hcx & Hall).
  assert (Hc : cell_ok c).
  { subst c. unfold StateMap.cell. apply Forall_lookup_total_1; [done|lia]. }
  clearbody c. destruct Hc as (Hc & Hn & _).
  rewrite land_255, Z.shiftr_div_pow2, Z.shiftl_mul_pow2 by lia.
  assert (Hn' : 0 <= c mod 256 < 256) by lia.
  destruct (dt_reciprocal _ Hn') as (Hd0 & Hd1 & _).
  assert (Hd : StateMap.dt (c mod 256) <= 2184) by nia.
  assert (Hp : 0 <= c / 2 ^ 14 < 2 ^ 18) by (Z.div_mod_to_equations; lia).
  destruct Hy as [-> | ->]; nia.
Qed.

Lemma update_no_signed_overflow_witness :
  let sm := snd (StateMap.p 0x66 (StateMap.new 0x10000)) in
  let c := StateMap.cell sm (StateMap.cxt sm) in
  - 2 ^ 31 <= (Z.shiftl 1 18 - Z.shiftr c 14) * StateMap.dt (Z.land c 255) < 2 ^ 31.
Proof.
  apply (update_no_signed_overflow (snd (StateMap.p 0x66 (StateMap.new 0x10000))) 1).
  - apply sm_reach_p; [apply sm_reach_new|lia].
  - by right.
Defined.

Lemma table_ok_in_range sm : table_ok sm → cells_in_range sm.
Proof.
  intros (_ & _ & Hall). eapply Forall_impl; [exact Hall|].
  by intros c (Hc & _).
Qed.

(** C8, amended: in every state map the codec reaches and for every context
    [cx], when [p(cx)] has returned [v], after [update(1, limit)] a new
    [p(cx)] returns at least [v]; it returns [v] again only when the count
    of the cell has reached its cap 90 and [v] is at least 65444, where one
    step is less than a unit of the 16-bit prediction, whether or not later
    steps still raise it.  After [update(0, limit)] it returns at most
    [v]. *)
Theorem C8_prediction_monotone sm cx limit :
  sm_reachable sm → 0 <= cx < 0x10000 → 1 <= limit <= 254 →
  let v := fst (StateMap.p cx sm) in
  let sm1 := snd (StateMap.p cx sm) in
  let up := fst (StateMap.p cx (StateMap.update 1 limit sm1)) in
  let down := fst (StateMap.p cx (StateMap.update 0 limit sm1)) in
  v <= up
  ∧ (up = v → Z.land (StateMap.cell sm cx) 0xFF = 90 ∧ 65444 <= v)
  ∧ down <= v.
Proof.
  intros Hr Hcx Hlim. destruct (sm_reachable_table_ok sm Hr) as (Hlen & _ & Hall).
  assert (Hc : cell_ok (StateMap.cell sm cx)).
  { unfold StateMap.cell. apply Forall_lookup_total_1; [done|lia]. }
  assert (Hnew : ∀ y, fst (StateMap.p cx (StateMap.update y limit (snd (StateMap.p cx sm))))
                 = StateMap.update_cell y limit (StateMap.cell sm cx) / 2 ^ 16).
  { intros y. simpl. rewrite Z.shiftr_div_pow2 by lia. f_equal.
    unfold StateMap.cell at 1. simpl. apply lookup_total_insert_Z. lia. }
  cbv zeta. rewrite !Hnew. simpl. rewrite Z.shiftr_div_pow2, land_255 by lia.
  destruct (cell_up_monotone limit _ Hc Hlim) as [Hup Heq].
  destruct Hc as (Hc & Hn & _).
  split; [done|]. split; [done|].
  apply cell_down_monotone; [done|lia].
Qed.

Lemma sm_reachable_iter n sm :
  sm_reachable sm → sm_reachable (Nat.iter n (StateMap.update 1 90) sm).
Proof.
  intros Hr. induction n as [|n IH]; [done|].
  change (Nat.iter (S n) (StateMap.update 1 90) sm)
    with (StateMap.update 1 90 (Nat.iter n (StateMap.update 1 90) sm)).
  apply sm_reach_update; [done|by right].
Qed.

Lemma C8_prediction_monotone_witness :
  let sm := Nat.iter 304 (StateMap.update 1 90)
              (snd (StateMap.p 255 (StateMap.new 0x10000))) in
  let v := fst (StateMap.p 255 sm) in
  let sm1 := snd (StateMap.p 255 sm) in
  let up := fst (StateMap.p 255 (StateMap.update 1 90 sm1)) in
  let down := fst (StateMap.p 255 (StateMap.update 0 90 sm1)) in
  v <= up
  ∧ (up = v → Z.land (StateMap.cell sm 255) 0xFF = 90 ∧ 65444 <= v)
  ∧ down <= v.
Proof.
  apply (C8_prediction_monotone
           (Nat.iter 304 (StateMap.update 1 90)
              (snd (StateMap.p 255 (StateMap.new 0x10000)))) 255 90).
  - apply sm_reachable_iter, sm_reach_p; [apply sm_reach_new|lia].
  - lia.
  - lia.
Defined.

(** ** The state maps of the codec *)

Lemma lor_shiftl_byte a b :
  0 <= a → 0 <= b < 256 → Z.lor (Z.shiftl a 8) b = a * 256 + b.
Proof.
  intros Ha Hb. rewrite Z.shiftl_mul_pow2 by lia. change (2 ^ 8) with 256.
  symmetry. apply Z.add_nocarry_lor.
  rewrite <- (Z.mod_small b 256) by lia. change 256 with (2 ^ 8).
  rewrite <- Z.land_ones, <- Z.shiftl_mul_pow2 by lia.
  apply Z.bits_inj'. intros n Hn. rewrite !Z.land_spec, Z.bits_0.
  destruct (Z.lt_ge_cases n 8).
  - by rewrite Z.shiftl_spec_low by lia.
  - rewrite Z.ones_spec_high by lia. by rewrite !andb_false_r.
Qed.

Lemma predictor_ok_new : predictor_ok Predictor.new.
Proof.
  split; [done|]. split; [done|]. split; [|apply sm_reach_new].
  apply Forall_replicate. lia.
Qed.

Lemma key_range pr : predictor_ok pr → 0 <= Predictor.key pr < 0x10000.
Proof.
  intros (Hcx & Hlen & Hst & _). unfold Predictor.key.
  assert (Hs : 0 <= Predictor.state pr !!! Z.to_nat (Predictor.cxt pr) < 256).
  { apply (Forall_lookup_total_1 (λ s, 0 <= s < 256)); [done|lia]. }
  rewrite lor_shiftl_byte by lia. lia.
Qed.

Lemma predictor_ok_p pr : predictor_ok pr → predictor_ok (snd (Predictor.p pr)).
Proof.
  intros Hok. pose proof (key_range pr Hok) as Hk.
  destruct Hok as (Hcx & Hlen & Hst & Hsm). unfold Predictor.p.
  pose proof (sm_reach_p _ _ Hsm Hk) as Hsm'.
  destruct (StateMap.p (Predictor.key pr) (Predictor.sm pr)) as [v sm']. simpl in *.
  done.
Qed.

Lemma predictor_ok_update y pr :
  predictor_ok pr → y = 0 ∨ y = 1 → predictor_ok (Predictor.update y pr).
Proof.
  intros (Hcx & Hlen & Hst & Hsm) Hy. unfold Predictor.update, predictor_ok. simpl.
  split; [destruct (Z.leb_spec 256 (Predictor.cxt pr + (Predictor.cxt pr + y))); lia|].
  split; [by rewrite length_insert|].
  split; [|by apply sm_reach_update].
  apply Forall_insert; [done|]. rewrite land_255. Z.div_mod_to_equations. lia.
Qed.

Lemma predictor_shift_out n e b e' :
  Encoder.shift_out n e = (b, e') → Encoder.predictor e' = Encoder.predictor e.
Proof.
  revert e. induction n as [|n IH]; intros e Hs; simpl in Hs.
  - destruct (Encoder.msb_equal e); by simplify_eq.
  - destruct (Encoder.msb_equal e); [|by simplify_eq].
    destruct (_ <? _); [|by simplify_eq]. by rewrite (IH _ Hs).
Qed.

Lemma predictor_shift_in n e :
  Encoder.predictor (Encoder.shift_in n e) = Encoder.predictor e.
Proof.
  revert e. induction n as [|n IH]; intros e; simpl.
  - by destruct (Encoder.msb_equal e).
  - destruct (Encoder.msb_equal e); [|done]. by rewrite IH.
Qed.

Lemma predictor_ok_encode y e b e' :
  predictor_ok (Encoder.predictor e) → y = 0 ∨ y = 1 →
  Encoder.encode y e = (b, e') → predictor_ok (Encoder.predictor e').
Proof.
  intros Hok Hy He. unfold Encoder.encode in He.
  pose proof (predictor_ok_p _ Hok) as Hok1.
  destruct (Predictor.p (Encoder.predictor e)) as [p pr]. simpl in Hok1.
  rewrite (predictor_shift_out _ _ _ _ He). simpl.
  by apply predictor_ok_update.
Qed.

Lemma predictor_ok_decode e y e' :
  predictor_ok (Encoder.predictor e) →
  Encoder.decode e = (y, e') → predictor_ok (Encoder.predictor e').
Proof.
  intros Hok He. unfold Encoder.decode in He.
  pose proof (predictor_ok_p _ Hok) as Hok1.
  destruct (Predictor.p (Encoder.predictor e)) as [p pr]. simpl in Hok1.
  set (y' := if Encoder.x e <=? _ then 1 else 0) in *.
  assert (e' = Encoder.shift_in 4
            (Encoder.narrow y' (Encoder.xmid (Encoder.x1 e) (Encoder.x2 e) (U32 p))
               (Predictor.update y' pr) e)) as -> by congruence.
  rewrite predictor_shift_in. simpl.
  apply predictor_ok_update; [done|]. subst y'. destruct (_ <=? _); auto.
Qed.

(** The state map inside a coder of a run is one of those [sm_reachable]
    describes, before and after the prediction of the next call. *)
Lemma reachable_state_map e :
  reachable e →
  predictor_ok (Encoder.predictor e)
  ∧ sm_reachable (Predictor.sm (Encoder.predictor e))
  ∧ sm_reachable (Predictor.sm (snd (Predictor.p (Encoder.predictor e)))).
Proof.
  intros Hr.
  assert (Hok : predictor_ok (Encoder.predictor e)).
  { induction Hr as [size|buf size|e y e' _ IH Hy He|e y e' _ IH He].
    - apply predictor_ok_new.
    - rewrite predictor_new_decompress. apply predictor_ok_new.
    - by eapply predictor_ok_encode.
    - by eapply predictor_ok_decode. }
  split; [done|]. split; [apply Hok|]. apply (predictor_ok_p _ Hok).
Qed.

(** ** Return values of the entry points *)

Lemma cursor_ok_emit e :
  cursor_ok e → Encoder.bufIdx e < Encoder.bufSize e →
  cursor_ok (Encoder.emit e) ∧ Encoder.bufIdx (Encoder.emit e) = Encoder.bufIdx e + 1.
Proof.
  intros (Hi & Hle & Hsz & Hlen) Hlt. unfold cursor_ok. simpl.
  rewrite U32_small by lia. repeat split; lia.
Qed.

Lemma shift_out_cursor n e b e' :
  Encoder.shift_out n e = (b, e') →
  cursor_ok e →
  cursor_ok e'
  ∧ Encoder.bufSize e' = Encoder.bufSize e
  ∧ ((Encoder.bufIdx e' = Encoder.bufIdx e
      ∧ Encoder.x1 e' = Encoder.x1 e ∧ Encoder.x2 e' = Encoder.x2 e)
     ∨ Encoder.bufIdx e < Encoder.bufIdx e').
Proof.
  revert e. induction n as [|n IH]; intros e Hs Hok; simpl in Hs.
  - assert (e' = e) as -> by (destruct (Encoder.msb_equal e); by simplify_eq).
    by auto 6.
  - destruct (Encoder.msb_equal e); [|simplify_eq; by auto 6].
    destruct (Z.ltb_spec (Encoder.bufIdx e) (Encoder.bufSize e));
      [|simplify_eq; by auto 6].
    destruct (cursor_ok_emit e Hok) as [Hok1 Hidx]; [done|].
    destruct (IH _ Hs Hok1) as (Hok' & Hsz & Hcase).
    split; [done|]. split; [done|]. right. lia.
Qed.

(** A call of [encode] that returns [true] leaves less to do. *)
Lemma encode_progress y e b e' :
  coder_ok e → cursor_ok e →
  Encoder.encode y e = (b, e') →
  cursor_ok e'
  ∧ Encoder.bufSize e' = Encoder.bufSize e
  ∧ (b = true → coder_ok e' ∧ work_left e' < work_left e).
Proof.
  intros Hok Hcur He.
  destruct (coder_ok_encode y e b e' Hok He) as (Hle' & _ & Hok').
  destruct Hok as (Hle & Hlt & Hsm). unfold Encoder.encode in He.
  destruct (predictor_p_range _ Hsm) as [Hp _].
  destruct (Predictor.p (Encoder.predictor e)) as [p pr]. simpl in Hp.
  rewrite (U32_small p) in He by lia.
  destruct (narrow_interval y p (Predictor.update y pr) e Hle Hlt Hp) as (_ & Hle1 & Hnarrow).
  destruct (shift_out_cursor _ _ _ _ He) as (Hcur' & Hsz & Hcase); [done|].
  split; [done|]. split; [done|]. intros Hb. split; [auto|].
  destruct Hcur as (Hi & Hile & Hsz32 & _). destruct Hcur' as (Hi' & Hile' & _ & _).
  destruct Hle as (H1 & H12 & H2). destruct Hle' as (H1' & H12' & H2').
  unfold work_left. simpl in Hsz, Hcase, Hnarrow. rewrite Hsz.
  destruct Hcase as [(Hidx & Hx1 & Hx2)|Hidx].
  - rewrite Hidx, Hx1, Hx2. lia.
  - nia.
Qed.

Lemma encode_bits_progress k c e b e' :
  coder_ok e → cursor_ok e →
  encode_bits k c e = (b, e') →
  cursor_ok e'
  ∧ Encoder.bufSize e' = Encoder.bufSize e
  ∧ (b = true → coder_ok e' ∧ work_left e' <= work_left e).
Proof.
  revert e. induction k as [|k IH]; intros e Hok Hcur Hs; simpl in Hs.
  - simplify_eq. split; [done|]. split; [done|]. intros _. split; [done|lia].
  - destruct (Encoder.encode _ e) as [ok e1] eqn:He.
    destruct (encode_progress _ _ _ _ Hok Hcur He) as (Hcur1 & Hsz1 & Hok1).
    destruct ok; [|simplify_eq; split; [done|]; split; [done|]; done].
    destruct (Hok1 eq_refl) as [Hok1' Hw1].
    destruct (IH _ Hok1' Hcur1 Hs) as (Hcur' & Hsz' & Hok').
    split; [done|]. split; [congruence|]. intros Hb.
    destruct (Hok' Hb) as [? ?]. split; [done|lia].
Qed.


(** The loop over the input returns once the fuel exceeds [work_left]. *)
Lemma compress_loop_returns fuel inp len idx e :
  coder_ok e → cursor_ok e →
  work_left e < Z.of_nat fuel →
  compress_loop fuel inp len idx e ≠ None.
Proof.
  revert idx e. induction fuel as [|fuel IH]; intros idx e Hok Hcur Hw;
    cbn [compress_loop].
  - exfalso. destruct Hok as ((? & ? & ?) & ? & ?). destruct Hcur as (? & ? & ? & ?).
    unfold work_left in Hw. nia.
  - destruct (idx <? len); [|done].
    destruct (Encoder.encode 1 e) as [ok e1] eqn:He.
    destruct (encode_progress _ _ _ _ Hok Hcur He) as (Hcur1 & Hsz1 & Hok1).
    destruct ok; [|done].
    destruct (Hok1 eq_refl) as [Hok1' Hw1].
    destruct (encode_bits 8 _ e1) as [ok e2] eqn:Hb.
    destruct (encode_bits_progress _ _ _ _ _ Hok1' Hcur1 Hb) as (Hcur2 & Hsz2 & Hok2).
    destruct ok; [|done].
    destruct (Hok2 eq_refl) as [Hok2' Hw2].
    apply IH; [done|done|lia].
Qed.

(** With [len] beyond the range of the 32-bit loop index the loop can end
    only by an overflow report. *)
Lemma compress_loop_long fuel inp len idx e b e' :
  2 ^ 32 <= len → 0 <= idx < 2 ^ 32 →
  compress_loop fuel inp len idx e = Some (b, e') → b = false.
Proof.
  intros Hlen. revert idx e. induction fuel as [|fuel IH]; intros idx e Hidx Hs;
    cbn [compress_loop] in Hs.
  - destruct (Z.ltb_spec idx len); [done|lia].
  - destruct (Z.ltb_spec idx len); [|lia].
    destruct (Encoder.encode 1 e) as [ok e1].
    destruct ok; [|by simplify_eq].
    destruct (encode_bits 8 _ e1) as [ok e2].
    destruct ok; [|by simplify_eq].
    eapply IH; [|exact Hs]. apply U32_range.
Qed.

Lemma cursor_ok_new_compress size :
  cursor_ok (Encoder.new_compress size).
Proof. unfold cursor_ok. simpl. pose proof (U32_range size). lia. Qed.


Lemma null_pair_false in_ len out bufsize :
  null_pair in_ len out bufsize = false →
  is_null in_ && (0 <? len) = false ∧ is_null out && (0 <? bufsize) = false.
Proof. unfold null_pair. by intros [? ?]%orb_false_elim. Qed.


(** [fpaq0f2_compress] returns, whatever its arguments. *)
Lemma compress_returns in_ len out bufsize :
  ∃ fuel r, ret (fpaq0f2_compress fuel in_ len out bufsize) = Some r.
Proof.
  exists (Z.to_nat (work_left (Encoder.new_compress bufsize) + 1)).
  unfold fpaq0f2_compress.
  destruct (is_null in_ && (0 <? len)); [by eexists|].
  destruct (is_null out && (0 <? bufsize)); [by eexists|].
  set (fuel := Z.to_nat _).
  pose proof (compress_loop_returns fuel (mem_of in_) len 0 _
                (coder_ok_new_compress bufsize) (cursor_ok_new_compress bufsize)) as Hret.
  destruct (compress_loop _ _ _ _ _) as [[b e]|] eqn:Hl.
  - destruct b; [|by eexists].
    destruct (Encoder.encode 0 e) as [ok e1]. destruct ok; [|by eexists].
    destruct (Encoder.flush e1) as [ok e2]. destruct ok; by eexists.
  - exfalso. apply Hret; [|done]. subst fuel.
    assert (0 <= work_left (Encoder.new_compress bufsize)).
    { unfold work_left. simpl. pose proof (U32_range bufsize). lia. }
    lia.
Qed.




Lemma at_zero_fill e : at_zero e → at_zero (Encoder.fill e).
Proof.
  intros (Hx & H1 & Hm). unfold at_zero, Encoder.fill.
  destruct (_ <=? _); cbn [Encoder.x Encoder.x1 Encoder.inBuf]; rewrite Hx, ?Hm; done.
Qed.

Lemma at_zero_new_decompress size :
  at_zero (Encoder.new_decompress (Ptr (λ _, 0)) size).
Proof.
  unfold Encoder.new_decompress.
  generalize 4%nat. intros k. induction k as [|k IH].
  - by repeat split.
  - change (Nat.iter (S k) Encoder.fill ?e) with (Encoder.fill (Nat.iter k Encoder.fill e)).
    by apply at_zero_fill.
Qed.

Lemma at_zero_refill e : at_zero e → at_zero (Encoder.refill e).
Proof.
  intros (Hx & H1 & Hm). unfold at_zero.
  cbn [Encoder.refill Encoder.x Encoder.x1 Encoder.inBuf]. rewrite Hx, H1, Hm.
  by destruct (_ <? _).
Qed.

Lemma at_zero_shift_in n e : at_zero e → at_zero (Encoder.shift_in n e).
Proof.
  revert e. induction n as [|n IH]; intros e He; simpl.
  - by destruct (Encoder.msb_equal e).
  - destruct (Encoder.msb_equal e); [|done]. by apply IH, at_zero_refill.
Qed.

(** With the window at 0 the test [x <= xmid] passes: [decode] returns 1. *)
Lemma at_zero_decode e :
  at_zero e → fst (Encoder.decode e) = 1 ∧ at_zero (snd (Encoder.decode e)).
Proof.
  intros (Hx & H1 & Hm). unfold Encoder.decode.
  destruct (Predictor.p (Encoder.predictor e)) as [p pr]. rewrite Hx.
  set (xm := Encoder.xmid _ _ _).
  assert (Hxm : 0 <= xm) by (subst xm; unfold Encoder.xmid; apply U32_range).
  clearbody xm. destruct (Z.leb_spec 0 xm); [|lia].
  cbn [fst snd]. split; [done|]. apply at_zero_shift_in. by repeat split.
Qed.

Lemma at_zero_decode_bits n c e : at_zero e → at_zero (snd (decode_bits n c e)).
Proof.
  revert c e. induction n as [|n IH]; intros c e He; cbn [decode_bits].
  - by destruct (c <? 256).
  - destruct (c <? 256); [|done].
    destruct (at_zero_decode e He) as [_ He1].
    destruct (Encoder.decode e) as [y e1]. by apply IH.
Qed.

Lemma decompress_loop_forever fuel bufsize idx out e :
  2 ^ 32 <= bufsize → 0 <= idx < 2 ^ 32 → at_zero e →
  ret (decompress_loop fuel bufsize idx out e) = None.
Proof.
  intros Hcap. revert idx out e.
  induction fuel as [|fuel IH]; intros idx out e Hi He; cbn [decompress_loop]; [done|].
  destruct (at_zero_decode e He) as [Hy He1].
  destruct (Encoder.decode e) as [y e1]. cbn [fst snd] in Hy, He1. subst y.
  change (1 =? 0) with false. cbv iota.
  pose proof (at_zero_decode_bits 8 1 e1 He1) as He2.
  destruct (decode_bits 8 1 e1) as [c e2]. cbn [snd] in He2.
  destruct (Z.ltb_spec idx bufsize); [|lia].
  apply IH; [apply U32_range|done].
Qed.

(** X2: with a capacity of 2^32 or more the 32-bit [idx] stays below [bufsize];
    over an input of zero bytes every [decode] returns 1, and
    [fpaq0f2_decompress] does not return, whatever the fuel. *)
Lemma decompress_runs_forever fuel len m bufsize :
  2 ^ 32 <= bufsize →
  ret (fpaq0f2_decompress fuel (Ptr (λ _, 0)) len (Ptr m) bufsize) = None.
Proof.
  intros Hcap. unfold fpaq0f2_decompress. cbn [is_null andb null_load].
  apply decompress_loop_forever; [done|lia|apply at_zero_new_decompress].
Qed.

Lemma decompress_runs_forever_witness :
  ret (fpaq0f2_decompress 3 (Ptr (λ _, 0)) 4 (Ptr (λ _, 0)) (2 ^ 32)) = None.
Proof. apply (decompress_runs_forever 3 4 (λ _, 0) (2 ^ 32)). lia. Defined.

Lemma compress_long_input fuel in_ len out bufsize r :
  2 ^ 32 <= len →
  null_pair in_ len out bufsize = false →
  ret (fpaq0f2_compress fuel in_ len out bufsize) = Some r →
  r = size_t (bufsize + 1).
Proof.
  intros Hlen [Hin Hout]%null_pair_false. unfold fpaq0f2_compress.
  rewrite Hin, Hout.
  destruct (compress_loop _ _ _ _ _) as [[b e]|] eqn:Hl; [|done].
  apply compress_loop_long in Hl as ->; [|done|lia].
  simpl. congruence.
Qed.

(** The overflow value can be the value of the argument check: with a
    2^32-byte input and [bufsize = SIZE_MAX - 1] no pointer is null, yet
    [fpaq0f2_compress] returns [SIZE_MAX]: the loop index is 32 bits wide
    and never reaches [len], so the call ends by the overflow return, whose
    value [bufsize + 1] is [SIZE_MAX]. *)
Lemma overflow_value_can_be_SIZE_MAX :
  null_pair (Ptr (λ _, 0)) (2 ^ 32) (Ptr (λ _, 0)) (SIZE_MAX - 1) = false
  ∧ ∃ fuel,
      ret (fpaq0f2_compress fuel (Ptr (λ _, 0)) (2 ^ 32) (Ptr (λ _, 0)) (SIZE_MAX - 1))
      = Some SIZE_MAX.
Proof.
  split; [done|].
  destruct (compress_returns (Ptr (λ _, 0)) (2 ^ 32) (Ptr (λ _, 0)) (SIZE_MAX - 1))
    as (fuel & r & Hr).
  exists fuel. rewrite Hr. f_equal.
  by rewrite (compress_long_input fuel (Ptr (λ _, 0)) (2 ^ 32) (Ptr (λ _, 0))
                (SIZE_MAX - 1) r (Z.le_refl _) eq_refl Hr).
Qed.



(** The first round of the constructor's loop passes its test
    [bufIdx <= bufSize] whatever the size: a DECOMPRESS coder over a null
    [inBuf] has loaded through it. *)
Lemma null_load_new_decompress len :
  null_load NULL (Encoder.new_decompress NULL len) = true.
Proof.
  assert (Hfill : ∀ e, Encoder.loads e ≠ [] → Encoder.loads (Encoder.fill e) ≠ []).
  { intros e He. unfold Encoder.fill. by destruct (_ <=? _). }
  assert (Hne : Encoder.loads (Encoder.new_decompress NULL len) ≠ []).
  { unfold Encoder.new_decompress. cbn [Nat.iter nat_rect].
    do 3 apply Hfill. unfold Encoder.fill. cbn [Encoder.bufIdx Encoder.bufSize].
    pose proof (U32_range len). by destruct (Z.leb_spec 0 (U32 len)); [|lia]. }
  cbn [null_load]. by destruct (Encoder.loads _).
Qed.

(** C2 does not hold of the code.  [in == NULL] with [len == 0] passes the
    argument check of [fpaq0f2_decompress] (a null pointer is refused only
    with a positive length); the DECOMPRESS constructor then tests
    [bufIdx <= bufSize] with both 0 and loads [inBuf[0]] through the null
    pointer.  The call returns no value, where C2 has it return
    [bufsize + 1] or a number of bytes in 0..bufsize. *)
Theorem C2_decompress_dereferences_null_input fuel m bufsize :
  null_pair NULL 0 (Ptr m) bufsize = false
  ∧ null_pair NULL 0 NULL 0 = false
  ∧ Encoder.loads (Encoder.new_decompress NULL 0) = [0]
  ∧ null_load NULL (Encoder.new_decompress NULL 0) = true
  ∧ ret (fpaq0f2_decompress fuel NULL 0 (Ptr m) bufsize) = None
  ∧ ret (fpaq0f2_decompress fuel NULL 0 NULL 0) = None.
Proof.
  split; [done|]. split; [done|]. split; [done|].
  split; [apply null_load_new_decompress|].
  unfold fpaq0f2_decompress. rewrite null_load_new_decompress. done.
Qed.

(** ** The bounds of the inner loops *)

Lemma shifted_step a b k :
  (k < 4)%nat →
  0 <= a → a <= b → b < 2 ^ 32 → a / 2 ^ 24 = b / 2 ^ 24 →
  a mod 256 ^ Z.of_nat k = 0 → b mod 256 ^ Z.of_nat k = 256 ^ Z.of_nat k - 1 →
  (a mod 2 ^ 24 * 256) mod 256 ^ Z.of_nat (S k) = 0
  ∧ (b mod 2 ^ 24 * 256 + 255) mod 256 ^ Z.of_nat (S k) = 256 ^ Z.of_nat (S k) - 1.
Proof.
  intros Hk Ha Hab Hb Htop.
  destruct k as [|[|[|[|k]]]]; [| | | |lia]; simpl Z.of_nat;
    intros Ha' Hb'; split; Z.div_mod_to_equations; lia.
Qed.

Lemma shifted_emit k e :
  (k < 4)%nat → interval_le e → Encoder.msb_equal e = true →
  shifted k e → shifted (S k) (Encoder.emit e).
Proof.
  intros Hk Hle Hmsb [Ha Hb]. rewrite msb_equal_div in Hmsb by done.
  destruct Hle as (H1 & H12 & H2). apply Z.eqb_eq in Hmsb.
  destruct (shift_words _ _ H1 H12 H2 Hmsb) as (Hx1 & Hx2 & _).
  unfold shifted. cbn [Encoder.emit Encoder.x1 Encoder.x2]. rewrite Hx1, Hx2.
  by apply shifted_step.
Qed.

Lemma shifted_refill k e :
  (k < 4)%nat → interval_le e → Encoder.msb_equal e = true →
  shifted k e → shifted (S k) (Encoder.refill e).
Proof.
  intros Hk Hle Hmsb [Ha Hb]. rewrite msb_equal_div in Hmsb by done.
  destruct Hle as (H1 & H12 & H2). apply Z.eqb_eq in Hmsb.
  destruct (shift_words _ _ H1 H12 H2 Hmsb) as (Hx1 & Hx2 & _).
  unfold shifted. cbn [Encoder.refill Encoder.x1 Encoder.x2]. rewrite Hx1, Hx2.
  by apply shifted_step.
Qed.

Lemma shifted_4_differ e :
  interval_le e → shifted 4 e → Encoder.msb_equal e = false.
Proof.
  intros Hle [Ha Hb]. rewrite msb_equal_div by done.
  destruct Hle as (H1 & H12 & H2). simpl Z.of_nat in *.
  apply Z.eqb_neq. Z.div_mod_to_equations. lia.
Qed.

Lemma shifted_0 e : shifted 0 e.
Proof. split; simpl; Z.div_mod_to_equations; lia. Qed.

Lemma shift_out_exits_from k n e e' :
  (k + n = 4)%nat → interval_le e → shifted k e →
  Encoder.shift_out n e = (true, e') → Encoder.msb_equal e' = false.
Proof.
  revert k e. induction n as [|n IH]; intros k e Hkn Hle Hk Hs; simpl in Hs.
  - assert (k = 4%nat) as -> by lia.
    rewrite (shifted_4_differ e Hle Hk) in Hs. simplify_eq.
    by apply shifted_4_differ.
  - destruct (Encoder.msb_equal e) eqn:Hmsb; [|by simplify_eq].
    destruct (Encoder.bufIdx e <? Encoder.bufSize e); [|done].
    apply (IH (S k) (Encoder.emit e)); [lia| | |done].
    + by apply interval_emit.
    + apply shifted_emit; [lia|done|done|done].
Qed.

(** The shift loop of [encode] and [flush] ends by its own test within four
    rounds: the coder it leaves with [true] has unequal top bytes. *)
Lemma shift_out_exits e e' :
  interval_le e → Encoder.shift_out 4 e = (true, e') → Encoder.msb_equal e' = false.
Proof. intros Hle. apply (shift_out_exits_from 0); [done|done|apply shifted_0]. Qed.

Lemma shift_in_exits_from k n e :
  (k + n = 4)%nat → interval_le e → shifted k e →
  Encoder.msb_equal (Encoder.shift_in n e) = false.
Proof.
  revert k e. induction n as [|n IH]; intros k e Hkn Hle Hk; simpl.
  - assert (k = 4%nat) as -> by lia.
    rewrite (shifted_4_differ e Hle Hk). by apply shifted_4_differ.
  - destruct (Encoder.msb_equal e) eqn:Hmsb; [|done].
    apply (IH (S k) (Encoder.refill e)); [lia| |].
    + by apply interval_refill.
    + apply shifted_refill; [lia|done|done|done].
Qed.

(** So does the shift loop of [decode]. *)
Lemma shift_in_exits e :
  interval_le e → Encoder.msb_equal (Encoder.shift_in 4 e) = false.
Proof. intros Hle. apply (shift_in_exits_from 0); [done|done|apply shifted_0]. Qed.

(** The loop that collects a byte in [fpaq0f2_decompress] ends by its own
    test: from [c] in [2^k, 2^(k+1)) with [k + n = 8] and bits from
    [decode] it leaves [c] in 256..511. *)
Lemma decode_bits_exits n k c e c' e' :
  (k + n = 8)%nat → coder_ok e →
  2 ^ Z.of_nat k <= c < 2 ^ Z.of_nat (S k) →
  decode_bits n c e = (c', e') →
  256 <= c' < 512 ∧ coder_ok e'.
Proof.
  revert k c e. induction n as [|n IH]; intros k c e Hkn Hok Hc Hd;
    cbn [decode_bits] in Hd.
  - assert (k = 8%nat) as -> by lia. simpl Z.of_nat in Hc.
    destruct (c <? 256); simplify_eq; split; (lia || done).
  - assert (Hlt : c < 256).
    { assert (Z.of_nat (S k) <= 8) by lia.
      assert (2 ^ Z.of_nat (S k) <= 2 ^ 8) by (apply Z.pow_le_mono_r; lia). lia. }
    destruct (Z.ltb_spec c 256); [|lia].
    destruct (Encoder.decode e) as [y e1] eqn:He.
    destruct (coder_ok_decode _ _ _ Hok He) as [Hok1 Hy].
    apply (IH (S k) _ _ ltac:(lia) Hok1) in Hd; [done|].
    rewrite !Nat2Z.inj_succ, !Z.pow_succ_r in * by lia. lia.
Qed.

(** ** Round trip: windows of the byte stream *)

Lemma nth_is_byte (l : list Z) j : Forall is_byte l → 0 <= nth j l 0 < 256.
Proof.
  intros Hl. revert j. induction Hl as [|b l Hb _ IH]; intros [|j]; simpl;
    try lia; [done|apply IH].
Qed.

Lemma window_range l : Forall is_byte l → 0 <= window l < 2 ^ 32.
Proof.
  intros Hl. unfold window.
  pose proof (nth_is_byte l 0 Hl). pose proof (nth_is_byte l 1 Hl).
  pose proof (nth_is_byte l 2 Hl). pose proof (nth_is_byte l 3 Hl). lia.
Qed.

Lemma window_cons b l :
  Forall is_byte l → window (b :: l) = b * 2 ^ 24 + window l / 256.
Proof.
  intros Hl. unfold window. simpl.
  pose proof (nth_is_byte l 0 Hl). pose proof (nth_is_byte l 1 Hl).
  pose proof (nth_is_byte l 2 Hl). pose proof (nth_is_byte l 3 Hl).
  Z.div_mod_to_equations. lia.
Qed.

Lemma window_tail b l :
  is_byte b → Forall is_byte l →
  window l = window (b :: l) mod 2 ^ 24 * 256 + nth 3 l 0.
Proof.
  intros Hb Hl. unfold window. simpl. unfold is_byte in Hb.
  pose proof (nth_is_byte l 0 Hl). pose proof (nth_is_byte l 1 Hl).
  pose proof (nth_is_byte l 2 Hl). pose proof (nth_is_byte l 3 Hl).
  Z.div_mod_to_equations. lia.
Qed.

Lemma stored_bytes_cons i b log : stored_bytes ((i, b) :: log) = stored_bytes log ++ [b].
Proof. done. Qed.

Lemma length_stored_bytes log : length (stored_bytes log) = length log.
Proof. unfold stored_bytes. by rewrite List.length_rev, length_fmap. Qed.

Lemma pending_refill d j :
  0 <= Encoder.bufIdx d → Encoder.bufSize d < 2 ^ 32 →
  pending (Encoder.refill d) j = pending d (S j).
Proof.
  intros Hi Hsz. unfold pending. cbn [Encoder.refill Encoder.bufIdx Encoder.bufSize Encoder.inBuf].
  destruct (Z.ltb_spec (Encoder.bufIdx d) (Encoder.bufSize d)) as [Hlt|Hge].
  - rewrite U32_small by lia. by replace (Encoder.bufIdx d + 1 + Z.of_nat j)
      with (Encoder.bufIdx d + Z.of_nat (S j)) by lia.
  - destruct (Z.ltb_spec (Encoder.bufIdx d + Z.of_nat j) (Encoder.bufSize d)); [lia|].
    destruct (Z.ltb_spec (Encoder.bufIdx d + Z.of_nat (S j)) (Encoder.bufSize d)); [lia|done].
Qed.

Lemma x_refill d :
  0 <= Encoder.x d < 2 ^ 32 →
  Encoder.x (Encoder.refill d) = Encoder.x d mod 2 ^ 24 * 256 + pending d 0.
Proof.
  intros Hx. unfold pending. cbn [Encoder.refill Encoder.x]. rewrite Z.add_0_r.
  set (c := if _ <? _ then _ else 0).
  assert (Hc : 0 <= c < 256).
  { subst c. destruct (_ <? _); [apply U8_range|lia]. }
  rewrite Z.shiftl_mul_pow2 by lia. unfold U32. rewrite Zplus_mod_idemp_l.
  Z.div_mod_to_equations. lia.
Qed.

(** One shift loop on both sides: the encoder stores the bytes [bs]; a word
    in the interval it ends with, put after [bs], lies in the interval it
    started from; and a decoder with the same interval ends with the same
    interval, its window moved past [bs]. *)
Lemma shift_lockstep n e e' d :
  Encoder.shift_out n e = (true, e') →
  interval_le e → cursor_ok e →
  Encoder.x1 d = Encoder.x1 e → Encoder.x2 d = Encoder.x2 e →
  0 <= Encoder.bufIdx d → Encoder.bufSize d < 2 ^ 32 →
  ∃ bs,
    stored_bytes (Encoder.outBuf e') = stored_bytes (Encoder.outBuf e) ++ bs
    ∧ Forall is_byte bs
    ∧ (∀ rest, Forall is_byte rest →
         Encoder.x1 e' <= window rest <= Encoder.x2 e' →
         Encoder.x1 e <= window (bs ++ rest) <= Encoder.x2 e)
    ∧ Encoder.x1 (Encoder.shift_in n d) = Encoder.x1 e'
    ∧ Encoder.x2 (Encoder.shift_in n d) = Encoder.x2 e'
    ∧ 0 <= Encoder.bufIdx (Encoder.shift_in n d)
    ∧ Encoder.bufSize (Encoder.shift_in n d) = Encoder.bufSize d
    ∧ (∀ rest, Forall is_byte rest →
         Encoder.x d = window (bs ++ rest) →
         (∀ j, pending d j = nth (4 + j) (bs ++ rest) 0) →
         Encoder.x (Encoder.shift_in n d) = window rest
         ∧ ∀ j, pending (Encoder.shift_in n d) j = nth (4 + j) rest 0).
Proof.
  revert e d. induction n as [|n IH]; intros e d Hs Hle Hcur Hx1 Hx2 Hi Hsz;
    cbn [Encoder.shift_out Encoder.shift_in] in *.
  - assert (e' = e) as -> by (destruct (Encoder.msb_equal e); by simplify_eq).
    exists []. rewrite app_nil_r.
    assert (Encoder.shift_in 0 d = d) as Hd by (simpl; by destruct (Encoder.msb_equal d)).
    simpl in Hd. rewrite Hd. repeat split; try done; tauto.
  - assert (Hmsb : Encoder.msb_equal d = Encoder.msb_equal e).
    { unfold Encoder.msb_equal. by rewrite Hx1, Hx2. }
    rewrite Hmsb. destruct (Encoder.msb_equal e) eqn:Hme.
    + destruct (Z.ltb_spec (Encoder.bufIdx e) (Encoder.bufSize e)) as [Hroom|]; [|done].
      destruct (interval_emit e Hle Hme) as [Hle1 _].
      destruct (cursor_ok_emit e Hcur Hroom) as [Hcur1 _].
      destruct (IH (Encoder.emit e) (Encoder.refill d) Hs Hle1 Hcur1) as
        (bs & Hlog & Hbs & Hin & Hd1 & Hd2 & Hdi & Hdsz & Hdx).
      { simpl. by rewrite Hx1. }
      { simpl. by rewrite Hx2. }
      { simpl. destruct (_ <? _); [|done]. pose proof (U32_range (Encoder.bufIdx d + 1)). lia. }
      { done. }
      set (b := U8 (Z.shiftr (Encoder.x2 e) 24)).
      assert (Hb : is_byte b) by apply U8_range.
      rewrite msb_equal_div in Hme by done. apply Z.eqb_eq in Hme.
      destruct Hle as (H1 & H12 & H2).
      destruct (shift_words _ _ H1 H12 H2 Hme) as (Hs1 & Hs2 & _).
      assert (Hbv : b = Encoder.x2 e / 2 ^ 24).
      { subst b. rewrite Z.shiftr_div_pow2 by lia. unfold U8.
        apply Z.mod_small. Z.div_mod_to_equations. lia. }
      exists (b :: bs). split; [|split; [|split; [|split; [|split; [|split; [|split]]]]]];
        try done.
      * rewrite Hlog. cbn [Encoder.emit Encoder.outBuf].
        rewrite stored_bytes_cons. by rewrite <- app_assoc.
      * by constructor.
      * intros rest Hrest Hw. specialize (Hin rest Hrest Hw).
        cbn [Encoder.emit Encoder.x1 Encoder.x2] in Hin. rewrite Hs1, Hs2 in Hin.
        assert (Hall : Forall is_byte (bs ++ rest)) by (by apply Forall_app).
        simpl. rewrite window_cons by done.
        pose proof (window_range _ Hall). rewrite Hbv.
        Z.div_mod_to_equations. lia.
      * intros rest Hrest Hx Hpend.
        assert (Hall : Forall is_byte (bs ++ rest)) by (by apply Forall_app).
        apply Hdx; [done| |].
        -- rewrite x_refill by (rewrite Hx; apply window_range; by constructor).
           rewrite (Hpend 0%nat), Hx. simpl. symmetry. by apply window_tail.
        -- intros j. rewrite pending_refill by done. by rewrite (Hpend (S j)).
    + simplify_eq. exists []. rewrite app_nil_r. repeat split; try done; tauto.
Qed.

(** ** Round trip: one bit, then a run of bits *)

Lemma mode_shift_out n e b e' :
  Encoder.shift_out n e = (b, e') → Encoder.mode e' = Encoder.mode e.
Proof.
  revert e. induction n as [|n IH]; intros e Hs; simpl in Hs.
  - destruct (Encoder.msb_equal e); by simplify_eq.
  - destruct (Encoder.msb_equal e); [|by simplify_eq].
    destruct (_ <? _); [|by simplify_eq]. by rewrite (IH _ Hs).
Qed.

Lemma mode_encode y e b e' :
  Encoder.encode y e = (b, e') → Encoder.mode e' = Encoder.mode e.
Proof.
  unfold Encoder.encode. destruct (Predictor.p (Encoder.predictor e)) as [p pr].
  intros Hs. by rewrite (mode_shift_out _ _ _ _ Hs).
Qed.

Lemma in_step_coder_ok fut e d : in_step fut e d → coder_ok e → coder_ok d.
Proof.
  intros (Hpr & H1 & H2 & _) ((Hx1 & Hx12 & Hx2) & Hlt & Hsm).
  unfold coder_ok, interval_le. rewrite Hpr, H1, H2. done.
Qed.

(** One call of [encode] and the call of [decode] that answers it. *)
Lemma encode_lockstep y e e1 :
  coder_ok e → cursor_ok e → y = 0 ∨ y = 1 →
  Encoder.encode y e = (true, e1) →
  ∃ bs,
    stored_bytes (Encoder.outBuf e1) = stored_bytes (Encoder.outBuf e) ++ bs
    ∧ Forall is_byte bs
    ∧ ∀ rest, Forall is_byte rest →
        Encoder.x1 e1 <= window rest <= Encoder.x2 e1 →
        Encoder.x1 e <= window (bs ++ rest) <= Encoder.x2 e
        ∧ ∀ d, in_step (bs ++ rest) e d →
            ∃ d1, Encoder.decode d = (y, d1) ∧ in_step rest e1 d1.
Proof.
  intros Hok Hcur Hy He. destruct Hok as (Hle & Hlt & Hsm).
  unfold Encoder.encode in He.
  destruct (predictor_p_range _ Hsm) as [Hp _].
  destruct (Predictor.p (Encoder.predictor e)) as [p pr] eqn:Hpp. simpl in Hp.
  rewrite (U32_small p) in He by lia.
  set (xm := Encoder.xmid (Encoder.x1 e) (Encoder.x2 e) p) in *.
  destruct (narrow_interval y p (Predictor.update y pr) e Hle Hlt Hp) as (Hxm & Hle1 & _).
  fold xm in Hxm, Hle1.
  set (en := Encoder.narrow y xm (Predictor.update y pr) e) in *.
  assert (Hcurn : cursor_ok en) by done.
  destruct (shift_lockstep 4 en e1 en He Hle1 Hcurn eq_refl eq_refl) as
    (bs & Hlog & Hbs & Hin & _); [apply Hcurn|apply Hcurn|].
  exists bs. split; [done|]. split; [done|].
  intros rest Hrest Hw. specialize (Hin rest Hrest Hw).
  assert (Hn1 : Encoder.x1 e <= Encoder.x1 en ∧ Encoder.x2 en <= Encoder.x2 e).
  { subst en. simpl. destruct (y =? 0); rewrite ?U32_small by (destruct Hle; lia); lia. }
  split; [lia|].
  intros d (Hdpr & Hd1 & Hd2 & Hdx & Hdpend & Hdi & Hdsz).
  unfold Encoder.decode. rewrite Hdpr, Hpp, Hd1, Hd2, (U32_small p) by lia. fold xm.
  assert (Hy' : (if Encoder.x d <=? xm then 1 else 0) = y).
  { rewrite Hdx. subst en. simpl in Hin. destruct Hle as (? & ? & ?).
    destruct Hy as [-> | ->]; simpl in Hin.
    - rewrite U32_small in Hin by lia. destruct (Z.leb_spec (window (bs ++ rest)) xm); lia.
    - destruct (Z.leb_spec (window (bs ++ rest)) xm); lia. }
  rewrite Hy'.
  set (dn := Encoder.narrow y xm (Predictor.update y pr) d).
  eexists. split; [reflexivity|].
  destruct (shift_lockstep 4 en e1 dn He Hle1 Hcurn) as
    (bs' & Hlog' & _ & _ & Hx1 & Hx2 & Hi & Hsz & Hx).
  { subst dn en. simpl. by rewrite Hd1. }
  { subst dn en. simpl. by rewrite Hd2. }
  { done. }
  { done. }
  assert (bs' = bs) as -> by (rewrite Hlog in Hlog'; by apply app_inv_head in Hlog').
  destruct (Hx rest Hrest) as [Hxr Hpr']; [done|done|].
  unfold in_step. rewrite predictor_shift_in, (predictor_shift_out _ _ _ _ He).
  rewrite Hsz. repeat split; done.
Qed.

Lemma flush_future e e2 :
  coder_ok e → cursor_ok e → Encoder.mode e = COMPRESS →
  Encoder.flush e = (true, e2) →
  ∃ fut,
    stored_bytes (Encoder.outBuf e2) = stored_bytes (Encoder.outBuf e) ++ fut
    ∧ Forall is_byte fut
    ∧ Encoder.x1 e <= window fut <= Encoder.x2 e
    ∧ Encoder.bufIdx e2 = Z.of_nat (length (Encoder.outBuf e2))
    ∧ Encoder.bufIdx e2 <= Encoder.bufSize e.
Proof.
  intros (Hle & Hlt & Hsm) Hcur Hmode Hf. unfold Encoder.flush in Hf. rewrite Hmode in Hf.
  destruct (Encoder.shift_out 4 e) as [ok e1] eqn:Hs.
  destruct ok; [|done].
  destruct (Z.ltb_spec (Encoder.bufIdx e1) (Encoder.bufSize e1)) as [Hroom|]; [|done].
  simplify_eq.
  pose proof (shift_out_exits _ _ Hle Hs) as Hdiff.
  destruct (shift_out_interval _ _ _ _ Hs Hle) as (Hle1 & _ & _).
  destruct (shift_out_cursor _ _ _ _ Hs Hcur) as (Hcur1 & Hsz1 & _).
  destruct (shift_lockstep 4 e e1 e Hs Hle Hcur eq_refl eq_refl) as
    (bs & Hlog & Hbs & Hin & _); [apply Hcur|apply Hcur|].
  set (b := U8 (Z.shiftr (Encoder.x2 e1) 24)).
  rewrite msb_equal_div in Hdiff by done. apply Z.eqb_neq in Hdiff.
  destruct Hle1 as (H1 & H12 & H2).
  assert (Hbv : b = Encoder.x2 e1 / 2 ^ 24).
  { subst b. rewrite Z.shiftr_div_pow2 by lia. unfold U8.
    apply Z.mod_small. Z.div_mod_to_equations. lia. }
  assert (Hb : is_byte b) by apply U8_range.
  exists (bs ++ [b]). split; [|split; [|split; [|split]]].
  - cbn [Encoder.put_last Encoder.outBuf]. rewrite stored_bytes_cons, Hlog.
    by rewrite <- app_assoc.
  - apply Forall_app. split; [done|]. by constructor.
  - apply Hin; [constructor; [done|constructor]|].
    unfold window. simpl. rewrite Hbv. Z.div_mod_to_equations. lia.
  - destruct Hcur1 as (? & ? & ? & Hlen). cbn [Encoder.put_last Encoder.outBuf Encoder.bufIdx].
    rewrite U32_small by lia. simpl. lia.
  - destruct Hcur1 as (? & ? & ? & Hlen). cbn [Encoder.put_last Encoder.bufIdx].
    rewrite U32_small by lia. lia.
Qed.

Lemma encode_all_cons y ys e e1 :
  encode_all (y :: ys) e = (true, e1) →
  ∃ e', Encoder.encode y e = (true, e') ∧ encode_all ys e' = (true, e1).
Proof.
  cbn [encode_all]. destruct (Encoder.encode y e) as [ok e'].
  destruct ok; [|done]. intros Hs. by exists e'.
Qed.

Lemma encode_all_ok ys e e1 :
  coder_ok e → cursor_ok e →
  Forall (λ y, y = 0 ∨ y = 1) ys →
  encode_all ys e = (true, e1) →
  coder_ok e1 ∧ cursor_ok e1 ∧ Encoder.mode e1 = Encoder.mode e
  ∧ Encoder.bufSize e1 = Encoder.bufSize e.
Proof.
  intros Hok Hcur Hys. revert e Hok Hcur.
  induction Hys as [|y ys Hy _ IH]; intros e Hok Hcur Hrun.
  - cbn [encode_all] in Hrun. by simplify_eq.
  - destruct (encode_all_cons _ _ _ _ Hrun) as (e' & He & Hrun').
    destruct (encode_progress _ _ _ _ Hok Hcur He) as (Hcur' & Hsz' & Hok').
    destruct (Hok' eq_refl) as [Hok'' _].
    destruct (IH e' Hok'' Hcur' Hrun') as (? & ? & Hm & Hsz).
    rewrite Hm, Hsz, (mode_encode _ _ _ _ He). done.
Qed.

(** A run of bits: [encode_lockstep] for a list of calls. *)
Lemma bits_lockstep ys e e1 fut1 :
  coder_ok e → cursor_ok e →
  Forall (λ y, y = 0 ∨ y = 1) ys →
  encode_all ys e = (true, e1) →
  Forall is_byte fut1 →
  Encoder.x1 e1 <= window fut1 <= Encoder.x2 e1 →
  coder_ok e1 ∧ cursor_ok e1 ∧ Encoder.mode e1 = Encoder.mode e
  ∧ ∃ bs,
      stored_bytes (Encoder.outBuf e1) = stored_bytes (Encoder.outBuf e) ++ bs
      ∧ Forall is_byte bs
      ∧ Encoder.x1 e <= window (bs ++ fut1) <= Encoder.x2 e
      ∧ ∀ d, in_step (bs ++ fut1) e d →
          ∃ d1, decode_all (length ys) d = (ys, d1) ∧ in_step fut1 e1 d1.
Proof.
  intros Hok Hcur Hys. revert e Hok Hcur.
  induction Hys as [|y ys Hy _ IH]; intros e Hok Hcur Hrun Hfut Hw.
  - cbn [encode_all] in Hrun. simplify_eq.
    split; [done|]. split; [done|]. split; [done|].
    exists []. split; [by rewrite app_nil_r|]. split; [done|]. split; [done|].
    intros d Hd. by exists d.
  - destruct (encode_all_cons _ _ _ _ Hrun) as (e' & He & Hrun').
    destruct (encode_progress _ _ _ _ Hok Hcur He) as (Hcur' & _ & Hok').
    destruct (Hok' eq_refl) as [Hok'' _].
    destruct (IH e' Hok'' Hcur' Hrun' Hfut Hw)
      as (Hok1 & Hcur1 & Hmode1 & bs' & Hlog' & Hbs' & Hw' & Hdec').
    destruct (encode_lockstep _ _ _ Hok Hcur Hy He) as (bs & Hlog & Hbs & Hin).
    assert (Hall : Forall is_byte (bs' ++ fut1)) by (by apply Forall_app).
    destruct (Hin _ Hall Hw') as [Hwe Hdec].
    split; [done|]. split; [done|].
    split; [by rewrite Hmode1, (mode_encode _ _ _ _ He)|].
    exists (bs ++ bs'). rewrite <- !app_assoc. split; [|split; [|split]].
    + by rewrite Hlog', Hlog, <- app_assoc.
    + by apply Forall_app.
    + done.
    + intros d Hd. destruct (Hdec d Hd) as (d' & Hd' & Hstep').
      destruct (Hdec' d' Hstep') as (d1 & Hd1 & Hstep1).
      exists d1. split; [|done].
      cbn [length decode_all]. by rewrite Hd', Hd1.
Qed.

(** The bytes a successful run has still to store, read as a word, lie in
    the interval of the coder. *)
Lemma run_future ys e e1 e2 :
  coder_ok e → cursor_ok e → Encoder.mode e = COMPRESS →
  Forall (λ y, y = 0 ∨ y = 1) ys →
  encode_all ys e = (true, e1) → Encoder.flush e1 = (true, e2) →
  ∃ fut,
    stored_bytes (Encoder.outBuf e2) = stored_bytes (Encoder.outBuf e) ++ fut
    ∧ Forall is_byte fut
    ∧ Encoder.x1 e <= window fut <= Encoder.x2 e.
Proof.
  intros Hok Hcur Hmode Hys Hrun Hf.
  destruct (encode_all_ok _ _ _ Hok Hcur Hys Hrun) as (Hok1 & Hcur1 & Hmode1 & _).
  rewrite Hmode in Hmode1.
  destruct (flush_future _ _ Hok1 Hcur1 Hmode1 Hf) as (fut1 & Hlog1 & Hfut1 & Hw1 & _).
  destruct (bits_lockstep ys e e1 fut1 Hok Hcur Hys Hrun Hfut1 Hw1)
    as (_ & _ & _ & bs & Hlog & Hbs & Hw & _).
  exists (bs ++ fut1). split; [|split].
  - by rewrite Hlog1, Hlog, <- app_assoc.
  - by apply Forall_app.
  - done.
Qed.

(** ** Round trip: bytes *)

Lemma byte_bits_are_bits c : Forall (λ y, y = 0 ∨ y = 1) (byte_bits c).
Proof.
  unfold byte_bits. apply Forall_fmap, Forall_forall. intros i _. simpl.
  rewrite land_shiftr_bit by lia. pose proof (bit_range c (Z.of_nat i)). lia.
Qed.

Lemma body_bits_are_bits s : Forall (λ y, y = 0 ∨ y = 1) (body_bits s).
Proof.
  induction s as [|c s IH]; cbn [body_bits]; [constructor|].
  constructor; [by right|]. apply Forall_app. split; [apply byte_bits_are_bits|done].
Qed.

Lemma frame_are_bits s : Forall (λ y, y = 0 ∨ y = 1) (frame s).
Proof.
  apply Forall_app. split; [apply body_bits_are_bits|]. constructor; [by left|constructor].
Qed.

(** Pushing the eight bits of a byte after a leading 1 gives 256 plus the
    byte: checked on each of the 256 bytes. *)
Lemma push_byte_bits b : is_byte b → push_bits 1 (byte_bits b) = 256 + b.
Proof.
  intros Hb.
  assert (Hall : forallb (λ b, push_bits 1 (byte_bits b) =? 256 + b) (seqZ 0 256) = true)
    by (vm_compute; reflexivity).
  rewrite forallb_forall in Hall. apply Z.eqb_eq, Hall.
  apply list_elem_of_In, elem_of_seqZ. unfold is_byte in Hb. lia.
Qed.

Lemma decode_bits_all n k c d :
  (k + n = 8)%nat → coder_ok d →
  2 ^ Z.of_nat k <= c < 2 ^ Z.of_nat (S k) →
  decode_bits n c d = (push_bits c (decode_all n d).1, (decode_all n d).2).
Proof.
  revert k c d. induction n as [|n IH]; intros k c d Hkn Hok Hc;
    cbn [decode_bits decode_all].
  - assert (k = 8%nat) as -> by lia. simpl Z.of_nat in Hc.
    destruct (Z.ltb_spec c 256); [lia|done].
  - assert (Hlt : c < 256).
    { assert (Z.of_nat (S k) <= 8) by lia.
      assert (2 ^ Z.of_nat (S k) <= 2 ^ 8) by (apply Z.pow_le_mono_r; lia). lia. }
    destruct (Z.ltb_spec c 256); [|lia].
    destruct (Encoder.decode d) as [y d1] eqn:Hd.
    destruct (coder_ok_decode _ _ _ Hok Hd) as [Hok1 Hy].
    rewrite (IH (S k) (c + (c + y)) d1); [|lia|done|].
    + by destruct (decode_all n d1).
    + rewrite !Nat2Z.inj_succ, !Z.pow_succ_r in * by lia. lia.
Qed.

Lemma encode_all_app ys zs e e1 :
  encode_all (ys ++ zs) e = (true, e1) →
  ∃ e', encode_all ys e = (true, e') ∧ encode_all zs e' = (true, e1).
Proof.
  revert e. induction ys as [|y ys IH]; intros e Hrun; simpl in Hrun.
  - by exists e.
  - cbn [encode_all]. destruct (Encoder.encode y e) as [ok e'].
    destruct ok; [|done]. by apply IH.
Qed.

Lemma decode_all_cons n d y ys d2 :
  decode_all (S n) d = (y :: ys, d2) →
  ∃ d1, Encoder.decode d = (y, d1) ∧ decode_all n d1 = (ys, d2).
Proof.
  cbn [decode_all]. destruct (Encoder.decode d) as [y' d1].
  destruct (decode_all n d1) as [ys' d2'] eqn:Hn. intros Heq.
  exists d1. split; [congruence|]. rewrite Hn. congruence.
Qed.

Lemma decompress_loop_S fuel bufsize idx out d :
  decompress_loop (S fuel) bufsize idx out d
  = let '(y, d1) := Encoder.decode d in
    if y =? 0 then {| ret := Some idx; stores := out |}
    else
      let '(c, d2) := decode_bits 8 1 d1 in
      if idx <? bufsize then
        decompress_loop fuel bufsize (U32 (idx + 1)) ((idx, U8 (c - 256)) :: out) d2
      else {| ret := Some (size_t (bufsize + 1)); stores := out |}.
Proof. done. Qed.

Lemma frame_cons b s : frame (b :: s) = (1 :: byte_bits b) ++ frame s.
Proof. done. Qed.

Lemma length_byte_bits b : length (byte_bits b) = 8%nat.
Proof. done. Qed.

(** The decoder loop gives back the bytes whose frame the encoder encoded. *)
Lemma decompress_follows s :
  ∀ fuel bufsize idx out e e1 e2 d fut,
    coder_ok e → cursor_ok e → Encoder.mode e = COMPRESS →
    Forall is_byte s →
    encode_all (frame s) e = (true, e1) → Encoder.flush e1 = (true, e2) →
    stored_bytes (Encoder.outBuf e2) = stored_bytes (Encoder.outBuf e) ++ fut →
    in_step fut e d →
    (length s < fuel)%nat →
    0 <= idx → idx + Z.of_nat (length s) <= bufsize →
    idx + Z.of_nat (length s) < 2 ^ 32 →
    ret (decompress_loop fuel bufsize idx out d) = Some (idx + Z.of_nat (length s))
    ∧ stored_bytes (stores (decompress_loop fuel bufsize idx out d))
      = stored_bytes out ++ s.
Proof.
  induction s as [|b s IH];
    intros fuel bufsize idx out e e1 e2 d fut Hok Hcur Hmode Hs Hrun Hf Hlog Hstep
      Hfuel Hidx Hcap H32.
  - destruct fuel as [|fuel]; [simpl in Hfuel; lia|].
    destruct (encode_all_ok _ _ _ Hok Hcur (frame_are_bits []) Hrun)
      as (Hok1 & Hcur1 & Hmode1 & _).
    rewrite Hmode in Hmode1.
    destruct (flush_future e1 e2 Hok1 Hcur1 Hmode1 Hf) as (fut1 & Hlog1 & Hfut1 & Hw1 & _).
    destruct (bits_lockstep (frame []) e e1 fut1 Hok Hcur (frame_are_bits []) Hrun Hfut1 Hw1)
      as (_ & _ & _ & bs & Hlogb & Hbs & _ & Hdec).
    assert (fut = bs ++ fut1) as ->.
    { rewrite Hlog1, Hlogb, <- app_assoc in Hlog. by apply app_inv_head in Hlog. }
    destruct (Hdec d Hstep) as (d1 & Hd & _).
    apply (decode_all_cons 0 d 0 [] d1) in Hd as (d' & Hd & _).
    rewrite decompress_loop_S, Hd. simpl. by rewrite Z.add_0_r, app_nil_r.
  - destruct fuel as [|fuel]; [simpl in Hfuel; lia|].
    apply Forall_cons in Hs as [Hb Hs].
    rewrite frame_cons in Hrun.
    destruct (encode_all_app _ _ _ _ Hrun) as (em & Hrun9 & Hrun').
    assert (Hbits9 : Forall (λ y, y = 0 ∨ y = 1) (1 :: byte_bits b)).
    { constructor; [by right|apply byte_bits_are_bits]. }
    destruct (encode_all_ok _ _ _ Hok Hcur Hbits9 Hrun9) as (Hokm & Hcurm & Hmodem & _).
    rewrite Hmode in Hmodem.
    destruct (run_future (frame s) em e1 e2 Hokm Hcurm Hmodem (frame_are_bits s) Hrun' Hf)
      as (futm & Hlogm & Hfutm & Hwm).
    destruct (bits_lockstep _ e em futm Hok Hcur Hbits9 Hrun9 Hfutm Hwm)
      as (_ & _ & _ & bs & Hlogb & Hbs & _ & Hdec).
    assert (fut = bs ++ futm) as ->.
    { rewrite Hlogm, Hlogb, <- app_assoc in Hlog. by apply app_inv_head in Hlog. }
    destruct (Hdec d Hstep) as (dm & Hd & Hstepm).
    apply (decode_all_cons (length (byte_bits b)) d 1 (byte_bits b) dm) in Hd
      as (d1 & Hd1 & Hd8).
    rewrite length_byte_bits in Hd8.
    assert (Hokd1 : coder_ok d1).
    { apply (coder_ok_decode d 1 d1); [|done]. by eapply in_step_coder_ok. }
    rewrite decompress_loop_S, Hd1.
    rewrite (decode_bits_all 8 0 1 d1 eq_refl Hokd1) by (simpl; lia).
    rewrite Hd8. cbn [fst snd]. rewrite push_byte_bits by done.
    rewrite length_cons in *.
    destruct (Z.ltb_spec idx bufsize); [|lia].
    rewrite (U32_small (idx + 1)) by lia.
    replace (256 + b - 256) with b by lia.
    assert (HU8 : U8 b = b) by (apply Z.mod_small; apply Hb).
    rewrite HU8.
    destruct (IH fuel bufsize (idx + 1) ((idx, b) :: out) em e1 e2 dm futm
                Hokm Hcurm Hmodem Hs Hrun' Hf Hlogm Hstepm)
      as [Hret Hst]; [lia|lia|lia|lia|].
    change (1 =? 0) with false. cbv iota.
    rewrite Hret, Hst, stored_bytes_cons, <- app_assoc. split; [|done].
    f_equal. lia.
Qed.

(** ** Round trip: the constructors and the entry points *)

Lemma fill_fields e :
  Encoder.x (Encoder.fill e)
  = U32 (U32 (Z.shiftl (Encoder.x e) 8)
         + (if Encoder.bufIdx e <=? Encoder.bufSize e
            then load (Encoder.inBuf e) (Encoder.bufIdx e) else 0))
  ∧ Encoder.bufIdx (Encoder.fill e)
    = (if Encoder.bufIdx e <=? Encoder.bufSize e
       then U32 (Encoder.bufIdx e + 1) else Encoder.bufIdx e)
  ∧ Encoder.bufSize (Encoder.fill e) = Encoder.bufSize e
  ∧ Encoder.inBuf (Encoder.fill e) = Encoder.inBuf e.
Proof.
  unfold Encoder.fill. destruct (_ <=? _); simpl; [|done].
  rewrite land_255. pose proof (U8_range (Encoder.inBuf e (Encoder.bufIdx e))).
  unfold load at 1. unfold U8 at 1. rewrite Z.mod_mod by lia. done.
Qed.

(** What the DECOMPRESS constructor leaves in [x] and in the cursor: round
    [i] of its loop loads [inBuf[i]] when [i <= bufSize]. *)
Lemma new_decompress_fields buf size :
  let L := U32 size in
  let byte i := if i <=? L then load (mem_of buf) i else 0 in
  let d := Encoder.new_decompress buf size in
  Encoder.x d = byte 0 * 2 ^ 24 + byte 1 * 2 ^ 16 + byte 2 * 2 ^ 8 + byte 3
  ∧ Encoder.bufIdx d = Z.min 4 (L + 1)
  ∧ Encoder.bufSize d = L
  ∧ Encoder.inBuf d = mem_of buf.
Proof.
  intros L byte d. subst d.
  pose proof (U32_range size) as HL. fold L in HL.
  set (e0 := {| Encoder.predictor := Predictor.new; Encoder.mode := DECOMPRESS;
                Encoder.inBuf := mem_of buf; Encoder.loads := []; Encoder.outBuf := [];
                Encoder.bufIdx := 0; Encoder.bufSize := U32 size;
                Encoder.x1 := 0; Encoder.x2 := 0xffffffff; Encoder.x := 0 |}).
  change (Encoder.new_decompress buf size)
    with (Encoder.fill (Encoder.fill (Encoder.fill (Encoder.fill e0)))).
  destruct (fill_fields e0) as (Hx1 & Hi1 & Hs1 & Hm1).
  destruct (fill_fields (Encoder.fill e0)) as (Hx2 & Hi2 & Hs2 & Hm2).
  destruct (fill_fields (Encoder.fill (Encoder.fill e0))) as (Hx3 & Hi3 & Hs3 & Hm3).
  destruct (fill_fields (Encoder.fill (Encoder.fill (Encoder.fill e0))))
    as (Hx4 & Hi4 & Hs4 & Hm4).
  set (e1 := Encoder.fill e0) in *. set (e2 := Encoder.fill e1) in *.
  set (e3 := Encoder.fill e2) in *. set (e4 := Encoder.fill e3) in *.
  rewrite Hs4, Hs3, Hs2, Hs1, Hm4, Hm3, Hm2, Hm1.
  rewrite ?Hs3, ?Hs2, ?Hs1, ?Hm3, ?Hm2, ?Hm1 in Hx4, Hi4.
  rewrite ?Hs2, ?Hs1, ?Hm2, ?Hm1 in Hx3, Hi3.
  rewrite ?Hs1, ?Hm1 in Hx2, Hi2.
  change (Encoder.bufSize e0) with L in *. change (Encoder.inBuf e0) with (mem_of buf) in *.
  change (Encoder.bufIdx e0) with 0 in *. change (Encoder.x e0) with 0 in *.
  pose proof (U8_range (mem_of buf 0)) as H0. pose proof (U8_range (mem_of buf 1)) as H1.
  pose proof (U8_range (mem_of buf 2)) as H2. pose proof (U8_range (mem_of buf 3)) as H3.
  fold (load (mem_of buf) 0) in H0. fold (load (mem_of buf) 1) in H1.
  fold (load (mem_of buf) 2) in H2. fold (load (mem_of buf) 3) in H3.
  subst byte. cbv beta.
  rewrite Z.shiftl_mul_pow2 in Hx1, Hx2, Hx3, Hx4 by lia.
  destruct (Z.leb_spec 0 L); [|lia].
  change (U32 (0 + 1)) with 1 in Hi1. rewrite Hi1 in Hx2, Hi2.
  destruct (Z.leb_spec 1 L).
  - change (U32 (1 + 1)) with 2 in Hi2. rewrite Hi2 in Hx3, Hi3.
    destruct (Z.leb_spec 2 L).
    + change (U32 (2 + 1)) with 3 in Hi3. rewrite Hi3 in Hx4, Hi4.
      destruct (Z.leb_spec 3 L).
      * change (U32 (3 + 1)) with 4 in Hi4.
        rewrite Hi4, Hx4, Hx3, Hx2, Hx1, ?Hm3, ?Hm2, ?Hm1.
        change (Encoder.inBuf e0) with (mem_of buf).
        split; [word_lia|]. split; [lia|done].
      * rewrite Hi4, Hx4, Hx3, Hx2, Hx1, ?Hm3, ?Hm2, ?Hm1.
        change (Encoder.inBuf e0) with (mem_of buf).
        split; [word_lia|]. split; [lia|done].
    + rewrite Hi3 in Hx4, Hi4.
      destruct (Z.leb_spec 2 L); [lia|]. destruct (Z.leb_spec 3 L); [lia|].
      rewrite Hi4, Hx4, Hx3, Hx2, Hx1, ?Hm3, ?Hm2, ?Hm1.
        change (Encoder.inBuf e0) with (mem_of buf).
        split; [word_lia|]. split; [lia|done].
  - rewrite Hi2 in Hx3, Hi3. destruct (Z.leb_spec 1 L); [lia|].
    rewrite Hi3 in Hx4, Hi4. destruct (Z.leb_spec 1 L); [lia|].
    destruct (Z.leb_spec 2 L); [lia|]. destruct (Z.leb_spec 3 L); [lia|].
    rewrite Hi4, Hx4, Hx3, Hx2, Hx1, ?Hm3, ?Hm2, ?Hm1.
        change (Encoder.inBuf e0) with (mem_of buf).
        split; [word_lia|]. split; [lia|done].
Qed.

Lemma new_decompress_interval buf size :
  Encoder.x1 (Encoder.new_decompress buf size) = 0
  ∧ Encoder.x2 (Encoder.new_decompress buf size) = 0xffffffff.
Proof.
  unfold Encoder.new_decompress. cbn [Nat.iter nat_rect].
  by rewrite !(proj1 (fill_interval _)), !(proj2 (fill_interval _)).
Qed.

(** A decoder built over the bytes [c] the encoder is going to store starts
    in step with the new encoder, provided the load the constructor makes
    at index [length c], when [c] has fewer than four bytes, finds 0. *)
Lemma new_in_step c m size :
  Forall is_byte c →
  Z.of_nat (length c) < 2 ^ 32 →
  (∀ i, (i < length c)%nat → load m (Z.of_nat i) = nth i c 0) →
  (Z.of_nat (length c) < 4 → load m (Z.of_nat (length c)) = 0) →
  in_step c (Encoder.new_compress size)
    (Encoder.new_decompress (Ptr m) (Z.of_nat (length c))).
Proof.
  intros Hc HL Hm Hend.
  destruct (new_decompress_fields (Ptr m) (Z.of_nat (length c))) as (Hx & Hi & Hs & Hb).
  destruct (new_decompress_interval (Ptr m) (Z.of_nat (length c))) as [H1 H2].
  rewrite (U32_small (Z.of_nat (length c))) in Hx, Hi, Hs by lia.
  cbn [mem_of] in Hx, Hb.
  assert (Hbyte : ∀ i : nat,
            (if Z.of_nat i <=? Z.of_nat (length c) then load m (Z.of_nat i) else 0)
            = nth i c 0 ∨ (4 <= i)%nat).
  { intros i. destruct (Nat.lt_ge_cases i 4) as [Hi4|]; [left|by right].
    destruct (Z.leb_spec (Z.of_nat i) (Z.of_nat (length c))).
    - destruct (Nat.eq_dec i (length c)) as [->|].
      + rewrite Hend by lia. by rewrite nth_overflow.
      + apply Hm. lia.
    - rewrite nth_overflow; [done|lia]. }
  unfold in_step. rewrite predictor_new_decompress, H1, H2, Hx, Hi, Hs.
  split; [done|]. split; [done|]. split; [done|]. split; [|split; [|split; [lia|lia]]].
  - unfold window.
    destruct (Hbyte 0%nat) as [Hb0|]; [|lia]. destruct (Hbyte 1%nat) as [Hb1|]; [|lia].
    destruct (Hbyte 2%nat) as [Hb2|]; [|lia]. destruct (Hbyte 3%nat) as [Hb3|]; [|lia].
    change (Z.of_nat 0) with 0 in Hb0. change (Z.of_nat 1) with 1 in Hb1.
    change (Z.of_nat 2) with 2 in Hb2. change (Z.of_nat 3) with 3 in Hb3.
    by rewrite Hb0, Hb1, Hb2, Hb3.
  - intros j. unfold pending. rewrite Hi, Hs, Hb.
    destruct (Z.ltb_spec (Z.min 4 (Z.of_nat (length c) + 1) + Z.of_nat j)
                (Z.of_nat (length c))) as [Hlt|Hge].
    + replace (Z.min 4 (Z.of_nat (length c) + 1) + Z.of_nat j)
        with (Z.of_nat (4 + j)) by lia.
      apply Hm. lia.
    + rewrite nth_overflow; [done|lia].
Qed.

Lemma encode_bits_all c e : encode_bits 8 c e = encode_all (byte_bits c) e.
Proof. done. Qed.

Lemma encode_all_snoc ys zs e e' r :
  encode_all ys e = (true, e') → encode_all zs e' = r → encode_all (ys ++ zs) e = r.
Proof.
  revert e. induction ys as [|y ys IH]; intros e Hys Hzs; cbn [encode_all app] in *.
  - by simplify_eq.
  - destruct (Encoder.encode y e) as [ok e1]. destruct ok; [|done]. by apply IH.
Qed.

Lemma compress_loop_S fuel inp len idx e :
  compress_loop (S fuel) inp len idx e
  = if idx <? len then
      let '(ok, e1) := Encoder.encode 1 e in
      if ok then
        let '(ok, e2) := encode_bits 8 (load inp idx) e1 in
        if ok then compress_loop fuel inp len (U32 (idx + 1)) e2 else Some (false, e2)
      else Some (false, e1)
    else Some (true, e).
Proof. done. Qed.

(** The loop over the input encodes a 1 and the eight bits of each byte. *)
Lemma compress_loop_all s :
  ∀ fuel inp len idx e e',
    0 <= idx → idx + Z.of_nat (length s) = len → len < 2 ^ 32 →
    (∀ j, (j < length s)%nat → load inp (idx + Z.of_nat j) = nth j s 0) →
    compress_loop fuel inp len idx e = Some (true, e') →
    encode_all (body_bits s) e = (true, e').
Proof.
  induction s as [|b s IH]; intros fuel inp len idx e e' Hidx Hlen H32 Hin Hl.
  - simpl in Hlen. destruct fuel; cbn [compress_loop] in Hl;
      (destruct (Z.ltb_spec idx len); [lia|]); by simplify_eq.
  - rewrite length_cons in Hlen.
    destruct fuel as [|fuel].
    { cbn [compress_loop] in Hl. destruct (Z.ltb_spec idx len); [done|lia]. }
    rewrite compress_loop_S in Hl. destruct (Z.ltb_spec idx len); [|lia].
    assert (Hb : load inp idx = b).
    { specialize (Hin 0%nat). simpl in Hin. rewrite Z.add_0_r in Hin. apply Hin. lia. }
    rewrite Hb in Hl.
    destruct (Encoder.encode 1 e) as [ok e1] eqn:He1. destruct ok; [|done].
    rewrite encode_bits_all in Hl.
    destruct (encode_all (byte_bits b) e1) as [ok e2] eqn:He2. destruct ok; [|done].
    rewrite (U32_small (idx + 1)) in Hl by lia.
    apply IH in Hl; [|lia|lia|done|].
    + change (body_bits (b :: s)) with ((1 :: byte_bits b) ++ body_bits s).
      apply (encode_all_snoc _ _ _ e2); [|done].
      cbn [encode_all]. by rewrite He1.
    + intros j Hj. specialize (Hin (S j)). simpl in Hin.
      rewrite <- Hin by lia. f_equal. lia.
Qed.

Lemma compress_success fuel inp len out bufsize L :
  0 <= bufsize < 2 ^ 64 →
  ret (fpaq0f2_compress fuel (Ptr inp) len (Ptr out) bufsize) = Some L →
  1 <= L <= bufsize →
  ∃ e e1 e2,
    compress_loop fuel inp len 0 (Encoder.new_compress bufsize) = Some (true, e)
    ∧ Encoder.encode 0 e = (true, e1)
    ∧ Encoder.flush e1 = (true, e2)
    ∧ L = Encoder.bufIdx e2
    ∧ stores (fpaq0f2_compress fuel (Ptr inp) len (Ptr out) bufsize) = Encoder.outBuf e2.
Proof.
  intros Hcap. unfold fpaq0f2_compress. cbn [is_null andb mem_of].
  assert (Hovf : ¬ 1 <= size_t (bufsize + 1) <= bufsize) by word_lia.
  destruct (compress_loop _ _ _ _ _) as [[b e]|] eqn:Hl; [|done].
  destruct b; [|cbn [ret]; intros; simplify_eq; lia].
  destruct (Encoder.encode 0 e) as [ok e1] eqn:He.
  destruct ok; [|cbn [ret]; intros; simplify_eq; lia].
  destruct (Encoder.flush e1) as [ok e2] eqn:Hf.
  destruct ok; [|cbn [ret]; intros; simplify_eq; lia].
  cbn [ret stores]. intros HL _. exists e, e1, e2.
  split; [done|]. split; [done|]. split; [done|]. split; [|done].
  unfold Encoder.getBufIdx in HL. congruence.
Qed.

(** X3: the round trip, for a decoder whose loads stay inside the compressed
    bytes or find 0 just past them: when [fpaq0f2_compress] has stored the
    [L] bytes [c] for the input [s], [fpaq0f2_decompress] over a memory
    holding [c], with 0 at index [L] if [L < 4], stores [s] and returns its
    length. *)
Theorem round_trip_when_loads_in_bounds s r fuel out bufsize L m fuel' out' bufsize' :
  Forall is_byte s →
  0 <= bufsize < 2 ^ 64 →
  ret (fpaq0f2_compress fuel (Ptr (bytes_then s r)) (Z.of_nat (length s)) (Ptr out) bufsize)
  = Some L →
  1 <= L <= bufsize →
  let c := stored_bytes (stores
    (fpaq0f2_compress fuel (Ptr (bytes_then s r)) (Z.of_nat (length s)) (Ptr out) bufsize)) in
  (∀ i, (i < length c)%nat → load m (Z.of_nat i) = nth i c 0) →
  (L < 4 → load m L = 0) →
  Z.of_nat (length s) <= bufsize' →
  (length s < fuel')%nat →
  L = Z.of_nat (length c)
  ∧ ret (fpaq0f2_decompress fuel' (Ptr m) L (Ptr out') bufsize') = Some (Z.of_nat (length s))
  ∧ stored_bytes (stores (fpaq0f2_decompress fuel' (Ptr m) L (Ptr out') bufsize')) = s.
Proof.
  intros Hs Hcap Hret HL c Hm Hend Hcap' Hfuel'.
  destruct (compress_success _ _ _ _ _ _ Hcap Hret HL) as (e & e1 & e2 & Hl & He & Hf & HLe & Hst).
  subst c. rewrite Hst in *. clear Hst Hret.
  set (e0 := Encoder.new_compress bufsize) in *.
  assert (Hok0 : coder_ok e0) by apply coder_ok_new_compress.
  assert (Hcur0 : cursor_ok e0) by apply cursor_ok_new_compress.
  assert (H32 : Z.of_nat (length s) < 2 ^ 32).
  { destruct (Z.lt_ge_cases (Z.of_nat (length s)) (2 ^ 32)) as [|Hge]; [done|].
    assert (H0 : 0 <= 0 < 2 ^ 32) by lia.
    by pose proof (compress_loop_long _ _ _ _ _ _ _ Hge H0 Hl). }
  assert (Hbody : encode_all (body_bits s) e0 = (true, e)).
  { apply (compress_loop_all s fuel (bytes_then s r) (Z.of_nat (length s)) 0);
      [lia|lia|done| |done].
    intros j Hj. rewrite Z.add_0_l. unfold load, bytes_then.
    destruct (Z.ltb_spec (Z.of_nat j) 0); [lia|]. rewrite Nat2Z.id.
    rewrite (nth_indep s r 0) by done.
    apply Z.mod_small. by apply nth_is_byte. }
  assert (Hrun : encode_all (frame s) e0 = (true, e1)).
  { apply (encode_all_snoc _ _ _ e); [done|]. cbn [encode_all]. by rewrite He. }
  destruct (encode_all_ok _ _ _ Hok0 Hcur0 (frame_are_bits s) Hrun)
    as (Hok1 & Hcur1 & Hmode1 & Hsz1).
  destruct (flush_future e1 e2 Hok1 Hcur1 Hmode1 Hf) as (_ & _ & _ & _ & Hlen2 & Hle2).
  destruct (run_future (frame s) e0 e1 e2 Hok0 Hcur0 eq_refl (frame_are_bits s) Hrun Hf)
    as (fut & Hlog & Hfut & _).
  change (stored_bytes (Encoder.outBuf e0)) with (@nil Z) in Hlog. rewrite app_nil_l in Hlog.
  assert (HLc : L = Z.of_nat (length (stored_bytes (Encoder.outBuf e2)))).
  { rewrite length_stored_bytes. lia. }
  split; [done|].
  assert (HL32 : L < 2 ^ 32).
  { destruct Hcur1 as (_ & _ & ? & _). lia. }
  unfold fpaq0f2_decompress. cbn [is_null andb null_load].
  rewrite HLc. rewrite HLc in Hend, HL32.
  rewrite Hlog in *.
  pose proof (new_in_step fut m bufsize Hfut HL32 Hm Hend) as Hstep.
  destruct (decompress_follows s fuel' bufsize' 0 [] e0 e1 e2 _ fut
              Hok0 Hcur0 eq_refl Hs Hrun Hf Hlog Hstep Hfuel') as [Hr Hb]; [lia|lia|lia|].
  by rewrite Hr, Hb.
Qed.

Lemma round_trip_when_loads_in_bounds_witness :
  let c := [0x7f; 0xc7; 0x47] in
  3 = Z.of_nat (length (stored_bytes (stores
        (fpaq0f2_compress 2 (Ptr (bytes_then [0; 1] 0)) 2 (Ptr (λ _, 0)) 16))))
  ∧ ret (fpaq0f2_decompress 3 (Ptr (bytes_then c 0)) 3 (Ptr (λ _, 0)) 2) = Some 2
  ∧ stored_bytes (stores (fpaq0f2_decompress 3 (Ptr (bytes_then c 0)) 3 (Ptr (λ _, 0)) 2))
    = [0; 1].
Proof.
  apply (round_trip_when_loads_in_bounds [0; 1] 0 2 (λ _, 0) 16 3
           (bytes_then [0x7f; 0xc7; 0x47] 0) 3 (λ _, 0) 2).
  - repeat constructor; unfold is_byte; lia.
  - lia.
  - vm_compute. reflexivity.
  - lia.
  - intros i Hi. vm_compute in Hi.
    destruct i as [|[|[|i]]]; [vm_compute; reflexivity ..|].
    exfalso. apply Nat.leb_le in Hi. simpl in Hi. discriminate Hi.
  - intros _. vm_compute. reflexivity.
  - simpl. lia.
  - simpl. lia.
Defined.

(** ** Termination of [fpaq0f2_compress] *)

(** X4: [fpaq0f2_compress] returns for all arguments, a null pair or not, an
    input longer than the range of its 32-bit index or not: every round of
    its loop stores a byte or narrows the interval, and the call is over
    within [(bufsize mod 2^32 + 1) * 2^32] rounds. *)
Theorem compress_terminates in_ len out bufsize :
  ∃ r, ret (fpaq0f2_compress (Z.to_nat ((U32 bufsize + 1) * 2 ^ 32)) in_ len out bufsize)
       = Some r.
Proof.
  unfold fpaq0f2_compress.
  destruct (is_null in_ && (0 <? len)); [by eexists|].
  destruct (is_null out && (0 <? bufsize)); [by eexists|].
  set (fuel := Z.to_nat _).
  pose proof (compress_loop_returns fuel (mem_of in_) len 0 _
                (coder_ok_new_compress bufsize) (cursor_ok_new_compress bufsize)) as Hret.
  destruct (compress_loop _ _ _ _ _) as [[b e]|] eqn:Hl.
  - destruct b; [|by eexists].
    destruct (Encoder.encode 0 e) as [ok e1]. destruct ok; [|by eexists].
    destruct (Encoder.flush e1) as [ok e2]. destruct ok; by eexists.
  - exfalso. apply Hret; [|done]. subst fuel.
    unfold work_left. simpl. pose proof (U32_range bufsize). lia.
Qed.

(** ** Array accesses of the predictor *)

Lemma sm_reachable_N sm : sm_reachable sm → StateMap.N sm = 0x10000.
Proof. induction 1; done. Qed.

(** X5: in every coder of a run the accesses the next call makes to the three
    tables are in bounds: [state[cxt]] with [cxt] in 0..255, [t[cx]] with
    the key [cx = cxt<<8|state[cxt]] below [N] = 0x10000 cells (the assertion
    of [StateMap::p]), and [dt[n]] with the count [n] of the cell in 6..90. *)
Theorem predictor_accesses_in_bounds e :
  reachable e →
  let pr := Encoder.predictor e in
  let sm := Predictor.sm pr in
  let n := Z.land (StateMap.cell sm (Predictor.key pr)) 255 in
  0 <= Predictor.cxt pr < Z.of_nat (length (Predictor.state pr))
  ∧ length (Predictor.state pr) = 256%nat
  ∧ 0 <= Predictor.key pr < StateMap.N sm
  ∧ StateMap.N sm = Z.of_nat (length (StateMap.t sm))
  ∧ StateMap.N sm = 0x10000
  ∧ 6 <= n <= 90.
Proof.
  intros Hr pr sm n.
  destruct (reachable_state_map e Hr) as (Hok & Hsm & _).
  pose proof (key_range _ Hok) as Hkey. fold pr in Hok, Hkey, Hsm.
  destruct Hok as (Hcx & Hlen & _ & _).
  pose proof (sm_reachable_N _ Hsm) as HN. fold sm in HN, Hsm.
  destruct (sm_reachable_table_ok _ Hsm) as (Htl & _ & Hall).
  assert (Hc : cell_ok (StateMap.cell sm (Predictor.key pr))).
  { unfold StateMap.cell. apply Forall_lookup_total_1; [done|lia]. }
  destruct Hc as (_ & Hn & _). subst n. rewrite land_255.
  repeat split; try lia.
Qed.

Lemma predictor_accesses_in_bounds_witness :
  let pr := Encoder.predictor (Encoder.new_compress 16) in
  let sm := Predictor.sm pr in
  let n := Z.land (StateMap.cell sm (Predictor.key pr)) 255 in
  0 <= Predictor.cxt pr < Z.of_nat (length (Predictor.state pr))
  ∧ length (Predictor.state pr) = 256%nat
  ∧ 0 <= Predictor.key pr < StateMap.N sm
  ∧ StateMap.N sm = Z.of_nat (length (StateMap.t sm))
  ∧ StateMap.N sm = 0x10000
  ∧ 6 <= n <= 90.
Proof.
  exact (predictor_accesses_in_bounds (Encoder.new_compress 16) (reach_compress 16)).
Defined.

(** ** The shift loops end by their own test *)

Lemma shift_out_log n e b e' :
  Encoder.shift_out n e = (b, e') →
  ∃ bs, Encoder.outBuf e' = bs ++ Encoder.outBuf e ∧ (length bs <= n)%nat
        ∧ Encoder.loads e' = Encoder.loads e.
Proof.
  revert e. induction n as [|n IH]; intros e Hs; simpl in Hs.
  - assert (e' = e) as -> by (destruct (Encoder.msb_equal e); by simplify_eq).
    exists []. repeat split; simpl; lia.
  - destruct (Encoder.msb_equal e); [|simplify_eq; exists []; repeat split; simpl; lia].
    destruct (_ <? _); [|simplify_eq; exists []; repeat split; simpl; lia].
    destruct (IH _ Hs) as (bs & Hlog & Hlen & Hld).
    exists (bs ++ [(Encoder.bufIdx e, U8 (Z.shiftr (Encoder.x2 e) 24))]).
    rewrite Hlog, <- app_assoc, length_app. simpl in *.
    repeat split; try done; lia.
Qed.

Lemma shift_in_log n e :
  ∃ ls, Encoder.loads (Encoder.shift_in n e) = ls ++ Encoder.loads e
        ∧ (length ls <= n)%nat
        ∧ Encoder.outBuf (Encoder.shift_in n e) = Encoder.outBuf e.
Proof.
  revert e. induction n as [|n IH]; intros e; simpl.
  - exists []. by destruct (Encoder.msb_equal e).
  - destruct (Encoder.msb_equal e); [|exists []; repeat split; simpl; lia].
    destruct (IH (Encoder.refill e)) as (ls & Hld & Hlen & Hout).
    rewrite Hld, Hout. cbn [Encoder.refill Encoder.loads Encoder.outBuf].
    destruct (_ <? _).
    + exists (ls ++ [Encoder.bufIdx e]). rewrite <- app_assoc, length_app. simpl.
      repeat split; try done; lia.
    + exists ls. repeat split; try done; lia.
Qed.

(** X6: the three shift loops are bounded: in a coder of a run, a call of
    [encode] that returns [true] has stored at most four bytes and leaves
    an interval whose top bytes differ, which is the exit test of its loop;
    a call of [decode] has loaded at most four bytes and leaves such an
    interval too; a [flush] that returns [true] has stored at most five
    bytes. *)
Theorem shift_loops_end_within_four_rounds e :
  reachable e →
  (∀ y e', Encoder.encode y e = (true, e') →
     Encoder.msb_equal e' = false
     ∧ ∃ bs, Encoder.outBuf e' = bs ++ Encoder.outBuf e ∧ (length bs <= 4)%nat)
  ∧ (∀ y e', Encoder.decode e = (y, e') →
     Encoder.msb_equal e' = false
     ∧ ∃ ls, Encoder.loads e' = ls ++ Encoder.loads e ∧ (length ls <= 4)%nat)
  ∧ (∀ e', Encoder.mode e = COMPRESS → Encoder.flush e = (true, e') →
     Encoder.msb_equal e' = false
     ∧ ∃ bs, Encoder.outBuf e' = bs ++ Encoder.outBuf e ∧ (1 <= length bs <= 5)%nat).
Proof.
  intros Hr. destruct (reachable_coder_ok e Hr) as (Hle & Hlt & Hsm).
  destruct (predictor_p_range _ Hsm) as [Hp _].
  split; [|split].
  - intros y e' He. unfold Encoder.encode in He.
    destruct (Predictor.p (Encoder.predictor e)) as [p pr]. simpl in Hp.
    rewrite (U32_small p) in He by lia.
    destruct (narrow_interval y p (Predictor.update y pr) e Hle Hlt Hp) as (_ & Hle1 & _).
    split; [by apply (shift_out_exits _ _ Hle1 He)|].
    destruct (shift_out_log _ _ _ _ He) as (bs & Hlog & Hlen & _). by exists bs.
  - intros y e' He. unfold Encoder.decode in He.
    destruct (Predictor.p (Encoder.predictor e)) as [p pr]. simpl in Hp.
    rewrite (U32_small p) in He by lia.
    set (y' := if Encoder.x e <=? _ then 1 else 0) in *.
    assert (e' = Encoder.shift_in 4
              (Encoder.narrow y' (Encoder.xmid (Encoder.x1 e) (Encoder.x2 e) p)
                 (Predictor.update y' pr) e)) as -> by congruence.
    destruct (narrow_interval y' p (Predictor.update y' pr) e Hle Hlt Hp) as (_ & Hle1 & _).
    split; [by apply shift_in_exits|].
    destruct (shift_in_log 4 (Encoder.narrow y' (Encoder.xmid (Encoder.x1 e) (Encoder.x2 e) p)
                 (Predictor.update y' pr) e)) as (ls & Hld & Hlen & _).
    by exists ls.
  - intros e' Hmode Hf. unfold Encoder.flush in Hf. rewrite Hmode in Hf.
    destruct (Encoder.shift_out 4 e) as [ok e1] eqn:Hs. destruct ok; [|done].
    destruct (_ <? _); [|done]. simplify_eq.
    split; [exact (shift_out_exits _ _ Hle Hs)|].
    destruct (shift_out_log _ _ _ _ Hs) as (bs & Hlog & Hlen & _).
    exists ((Encoder.bufIdx e1, U8 (Z.shiftr (Encoder.x2 e1) 24)) :: bs).
    cbn [Encoder.put_last Encoder.outBuf]. rewrite Hlog. simpl. split; [done|lia].
Qed.

Lemma shift_loops_end_within_four_rounds_witness :
  let e := Encoder.new_compress 16 in
  (∀ y e', Encoder.encode y e = (true, e') →
     Encoder.msb_equal e' = false
     ∧ ∃ bs, Encoder.outBuf e' = bs ++ Encoder.outBuf e ∧ (length bs <= 4)%nat)
  ∧ (∀ y e', Encoder.decode e = (y, e') →
     Encoder.msb_equal e' = false
     ∧ ∃ ls, Encoder.loads e' = ls ++ Encoder.loads e ∧ (length ls <= 4)%nat)
  ∧ (∀ e', Encoder.mode e = COMPRESS → Encoder.flush e = (true, e') →
     Encoder.msb_equal e' = false
     ∧ ∃ bs, Encoder.outBuf e' = bs ++ Encoder.outBuf e ∧ (1 <= length bs <= 5)%nat).
Proof.
  exact (shift_loops_end_within_four_rounds (Encoder.new_compress 16) (reach_compress 16)).
Defined.

(** ** The byte loop of [fpaq0f2_decompress] *)

Lemma decode_all_bits n e :
  coder_ok e →
  length (decode_all n e).1 = n
  ∧ Forall (λ y, y = 0 ∨ y = 1) (decode_all n e).1.
Proof.
  revert e. induction n as [|n IH]; intros e Hok; cbn [decode_all]; [done|].
  destruct (Encoder.decode e) as [y e1] eqn:He.
  destruct (coder_ok_decode _ _ _ Hok He) as [Hok1 Hy].
  destruct (IH e1 Hok1) as [Hlen Hall].
  destruct (decode_all n e1) as [ys e2]. cbn [fst] in *.
  split; [simpl; lia|by constructor].
Qed.

Lemma byte_bits_push ys :
  length ys = 8%nat → Forall (λ y, y = 0 ∨ y = 1) ys →
  byte_bits (push_bits 1 ys - 256) = ys.
Proof.
  intros Hlen Hall.
  do 8 (destruct ys as [|? ys]; [done|]). destruct ys; [|done].
  repeat match goal with
         | H : Forall _ (_ :: _) |- _ => apply Forall_cons in H as [[-> | ->] H]
         end; vm_compute; reflexivity.
Qed.

(** X7: [while (c<256) c+=c+e.decode()] from [c = 1] calls [decode] exactly
    eight times and ends with [c] in 256..511; the byte [c - 256] stored has
    the eight bits decoded, the first one as its most significant bit. *)
Theorem byte_loop_takes_eight_bits e c e' :
  reachable e →
  decode_bits 8 1 e = (c, e') →
  ∃ ys,
    decode_all 8 e = (ys, e')
    ∧ length ys = 8%nat
    ∧ Forall (λ y, y = 0 ∨ y = 1) ys
    ∧ c = push_bits 1 ys
    ∧ 256 <= c < 512
    ∧ U8 (c - 256) = c - 256
    ∧ byte_bits (c - 256) = ys.
Proof.
  intros Hr Hd. pose proof (reachable_coder_ok e Hr) as Hok.
  assert (Hc1 : 2 ^ Z.of_nat 0 <= 1 < 2 ^ Z.of_nat 1) by (simpl; lia).
  destruct (decode_bits_exits 8 0 1 e c e' eq_refl Hok Hc1 Hd) as [Hc _].
  pose proof (decode_bits_all 8 0 1 e eq_refl Hok Hc1) as Hall.
  destruct (decode_all_bits 8 e Hok) as [Hlen Hbits].
  rewrite Hd in Hall. clear Hd.
  destruct (decode_all 8 e) as [ys e2]. cbn [fst snd] in Hall, Hlen, Hbits.
  assert (c = push_bits 1 ys) as Hcv by congruence.
  assert (e' = e2) as -> by congruence.
  exists ys. split; [done|]. split; [done|]. split; [done|]. split; [done|].
  split; [done|]. split; [unfold U8; apply Z.mod_small; lia|].
  rewrite Hcv. by apply byte_bits_push.
Qed.

Lemma byte_loop_takes_eight_bits_witness :
  let e := Encoder.new_decompress (Ptr (bytes_then [0x7f; 0xc7; 0x47] 0)) 3 in
  ∃ ys,
    decode_all 8 e = (ys, (decode_bits 8 1 e).2)
    ∧ length ys = 8%nat
    ∧ Forall (λ y, y = 0 ∨ y = 1) ys
    ∧ (decode_bits 8 1 e).1 = push_bits 1 ys
    ∧ 256 <= (decode_bits 8 1 e).1 < 512
    ∧ U8 ((decode_bits 8 1 e).1 - 256) = (decode_bits 8 1 e).1 - 256
    ∧ byte_bits ((decode_bits 8 1 e).1 - 256) = ys.
Proof.
  apply (byte_loop_takes_eight_bits
           (Encoder.new_decompress (Ptr (bytes_then [0x7f; 0xc7; 0x47] 0)) 3)
           (decode_bits 8 1 (Encoder.new_decompress (Ptr (bytes_then [0x7f; 0xc7; 0x47] 0)) 3)).1
           (decode_bits 8 1 (Encoder.new_decompress (Ptr (bytes_then [0x7f; 0xc7; 0x47] 0)) 3)).2).
  - apply reach_decompress.
  - apply surjective_pairing.
Defined.

(** ** What the entry points read of their input *)

Lemma compress_loop_input fuel inp inp' len idx e :
  0 <= idx → (∀ i, 0 <= i < len → load inp' i = load inp i) →
  compress_loop fuel inp' len idx e = compress_loop fuel inp len idx e.
Proof.
  intros Hidx Hin. revert idx e Hidx.
  induction fuel as [|fuel IH]; intros idx e Hidx; cbn [compress_loop]; [done|].
  destruct (Z.ltb_spec idx len); [|done].
  rewrite Hin by lia.
  destruct (Encoder.encode 1 e) as [ok e1]. destruct ok; [|done].
  destruct (encode_bits 8 _ e1) as [ok e2]. destruct ok; [|done].
  apply IH. pose proof (U32_range (idx + 1)). lia.
Qed.

(** X8: [fpaq0f2_compress] reads [in[0..len)] and nothing else of its input:
    over two memories that hold the same bytes there it returns the same
    value and makes the same stores. *)
Theorem compress_reads_only_input fuel m m' len out bufsize :
  (∀ i, 0 <= i < len → load m' i = load m i) →
  fpaq0f2_compress fuel (Ptr m') len out bufsize
  = fpaq0f2_compress fuel (Ptr m) len out bufsize.
Proof.
  intros Hin. unfold fpaq0f2_compress. cbn [is_null andb mem_of].
  by rewrite (compress_loop_input fuel m m' len 0) by (done || lia).
Qed.

Lemma compress_reads_only_input_witness :
  fpaq0f2_compress 2 (Ptr (bytes_then [0; 1] 0xff)) 2 (Ptr (λ _, 0)) 16
  = fpaq0f2_compress 2 (Ptr (bytes_then [0; 1] 0)) 2 (Ptr (λ _, 0)) 16.
Proof.
  apply (compress_reads_only_input 2 (bytes_then [0; 1] 0) (bytes_then [0; 1] 0xff) 2
           (Ptr (λ _, 0)) 16).
  intros i Hi. assert (i = 0 ∨ i = 1) as [-> | ->] by lia; reflexivity.
Defined.

(** *** The loads of a decoder *)

Lemma fill_log e :
  Encoder.loads (Encoder.fill e)
  = (if Encoder.bufIdx e <=? Encoder.bufSize e
     then Encoder.bufIdx e :: Encoder.loads e else Encoder.loads e).
Proof. unfold Encoder.fill. by destruct (_ <=? _). Qed.

(** After [k] rounds of the constructor's loop the cursor is at most [k]. *)
Lemma fill_rounds k buf size :
  (k <= 4)%nat →
  let e := Nat.iter k Encoder.fill
    {| Encoder.predictor := Predictor.new; Encoder.mode := DECOMPRESS;
       Encoder.inBuf := mem_of buf; Encoder.loads := []; Encoder.outBuf := [];
       Encoder.bufIdx := 0; Encoder.bufSize := U32 size;
       Encoder.x1 := 0; Encoder.x2 := 0xffffffff; Encoder.x := 0 |} in
  0 <= Encoder.bufIdx e <= Z.of_nat k
  ∧ Encoder.bufSize e = U32 size
  ∧ Encoder.inBuf e = mem_of buf
  ∧ Forall (footprint (U32 size)) (Encoder.loads e).
Proof.
  induction k as [|k IH]; intros Hk; [by repeat split|].
  cbv zeta. change (Nat.iter (S k) Encoder.fill ?e) with (Encoder.fill (Nat.iter k Encoder.fill e)).
  destruct IH as (Hi & Hs & Hm & Hl); [lia|].
  set (e := Nat.iter k Encoder.fill _) in *.
  destruct (fill_fields e) as (_ & Hi' & Hs' & Hm'). rewrite Hi', Hs', Hm', fill_log, Hs, Hm.
  destruct (Z.leb_spec (Encoder.bufIdx e) (U32 size)).
  - rewrite U32_small by lia. split; [lia|]. split; [done|]. split; [done|].
    constructor; [|done]. unfold footprint. lia.
  - split; [lia|done].
Qed.

Lemma loads_ok_new_decompress buf size : loads_ok (Encoder.new_decompress buf size).
Proof.
  destruct (fill_rounds 4 buf size) as (Hi & Hs & _ & Hl); [lia|].
  unfold loads_ok, Encoder.new_decompress. rewrite Hs. split; [lia|done].
Qed.

Lemma loads_ok_refill e : loads_ok e → loads_ok (Encoder.refill e).
Proof.
  intros [Hi Hl]. unfold loads_ok.
  cbn [Encoder.refill Encoder.bufIdx Encoder.bufSize Encoder.loads].
  destruct (Z.ltb_spec (Encoder.bufIdx e) (Encoder.bufSize e)).
  - split; [apply U32_range|]. constructor; [|done]. unfold footprint. lia.
  - done.
Qed.

Lemma loads_ok_shift_in n e : loads_ok e → loads_ok (Encoder.shift_in n e).
Proof.
  revert e. induction n as [|n IH]; intros e He; simpl.
  - by destruct (Encoder.msb_equal e).
  - destruct (Encoder.msb_equal e); [|done]. by apply IH, loads_ok_refill.
Qed.

Lemma loads_ok_decode e : loads_ok e → loads_ok (Encoder.decode e).2.
Proof.
  intros He. unfold Encoder.decode.
  destruct (Predictor.p (Encoder.predictor e)) as [p pr]. cbn [snd].
  by apply loads_ok_shift_in.
Qed.

Lemma loads_ok_shift_out n e b e' :
  Encoder.shift_out n e = (b, e') → loads_ok e → loads_ok e'.
Proof.
  revert e. induction n as [|n IH]; intros e Hs He; simpl in Hs.
  - destruct (Encoder.msb_equal e); by simplify_eq.
  - destruct (Encoder.msb_equal e); [|by simplify_eq].
    destruct (_ <? _); [|by simplify_eq].
    apply (IH _ Hs). destruct He as [Hi Hl]. split; [apply U32_range|done].
Qed.

Lemma reachable_loads_ok e : reachable e → loads_ok e.
Proof.
  induction 1 as [size|buf size|e y e' _ IH Hy He|e y e' _ IH He].
  - split; [done|constructor].
  - apply loads_ok_new_decompress.
  - unfold Encoder.encode in He.
    destruct (Predictor.p (Encoder.predictor e)) as [p pr].
    by apply (loads_ok_shift_out _ _ _ _ He).
  - pose proof (loads_ok_decode e IH) as H'. by rewrite He in H'.
Qed.

(** X9: every load a coder of a run has made from [inBuf] went to an index below
    [bufSize], but for the load that the DECOMPRESS constructor makes at
    index [bufSize] itself when [bufSize] is less than 4.  With
    [bufSize >= 4] all the loads are inside [inBuf[0..bufSize)]. *)
Theorem decoder_loads_in_bounds e :
  reachable e →
  Forall (λ i, 0 <= i < Encoder.bufSize e
               ∨ (i = Encoder.bufSize e ∧ Encoder.bufSize e < 4)) (Encoder.loads e)
  ∧ (4 <= Encoder.bufSize e →
     Forall (λ i, 0 <= i < Encoder.bufSize e) (Encoder.loads e)).
Proof.
  intros Hr. destruct (reachable_loads_ok e Hr) as [_ Hl]. split; [done|].
  intros H4. eapply Forall_impl; [exact Hl|]. unfold footprint. intros i Hi. simpl. lia.
Qed.

Lemma decoder_loads_in_bounds_witness :
  let e := (Encoder.decode (Encoder.new_decompress (Ptr (bytes_then [1; 2; 3; 4; 5] 0)) 5)).2 in
  Forall (λ i, 0 <= i < Encoder.bufSize e
               ∨ (i = Encoder.bufSize e ∧ Encoder.bufSize e < 4)) (Encoder.loads e)
  ∧ (4 <= Encoder.bufSize e →
     Forall (λ i, 0 <= i < Encoder.bufSize e) (Encoder.loads e)).
Proof.
  apply (decoder_loads_in_bounds
           (Encoder.decode (Encoder.new_decompress (Ptr (bytes_then [1; 2; 3; 4; 5] 0)) 5)).2).
  eapply reach_decode; [apply reach_decompress|]. apply surjective_pairing.
Defined.

(** *** The result of [fpaq0f2_decompress] depends on those bytes only *)

Lemma fill_with_input m e :
  (Encoder.bufIdx e <= Encoder.bufSize e →
   load m (Encoder.bufIdx e) = load (Encoder.inBuf e) (Encoder.bufIdx e)) →
  Encoder.fill (with_input m e) = with_input m (Encoder.fill e).
Proof.
  intros Hm. unfold Encoder.fill, with_input.
  cbn [Encoder.bufIdx Encoder.bufSize Encoder.inBuf Encoder.predictor Encoder.mode
       Encoder.loads Encoder.outBuf Encoder.x1 Encoder.x2 Encoder.x].
  destruct (Z.leb_spec (Encoder.bufIdx e) (Encoder.bufSize e)); [|done].
  cbn [Encoder.bufIdx Encoder.bufSize Encoder.inBuf Encoder.predictor Encoder.mode
       Encoder.loads Encoder.outBuf Encoder.x1 Encoder.x2 Encoder.x].
  by rewrite Hm.
Qed.

Lemma new_decompress_with_input m m' size :
  (∀ i, footprint (U32 size) i → load m' i = load m i) →
  Encoder.new_decompress (Ptr m') size = with_input m' (Encoder.new_decompress (Ptr m) size).
Proof.
  intros Hm. unfold Encoder.new_decompress.
  set (e0 := {| Encoder.predictor := Predictor.new; Encoder.mode := DECOMPRESS;
       Encoder.inBuf := mem_of (Ptr m); Encoder.loads := []; Encoder.outBuf := [];
       Encoder.bufIdx := 0; Encoder.bufSize := U32 size;
       Encoder.x1 := 0; Encoder.x2 := 0xffffffff; Encoder.x := 0 |}).
  change {| Encoder.predictor := Predictor.new; Encoder.mode := DECOMPRESS;
       Encoder.inBuf := mem_of (Ptr m'); Encoder.loads := []; Encoder.outBuf := [];
       Encoder.bufIdx := 0; Encoder.bufSize := U32 size;
       Encoder.x1 := 0; Encoder.x2 := 0xffffffff; Encoder.x := 0 |}
    with (with_input m' e0).
  assert (Hk : ∀ k, (k <= 4)%nat →
            Nat.iter k Encoder.fill (with_input m' e0)
            = with_input m' (Nat.iter k Encoder.fill e0)).
  { induction k as [|k IH]; intros Hk; [done|].
    change (Nat.iter (S k) Encoder.fill ?e) with (Encoder.fill (Nat.iter k Encoder.fill e)).
    rewrite IH by lia.
    destruct (fill_rounds k (Ptr m) size) as (Hi & Hs & Hb & _); [lia|].
    fold e0 in Hi, Hs, Hb.
    apply fill_with_input. rewrite Hs, Hb. intros Hle. apply Hm.
    unfold footprint. lia. }
  by apply Hk.
Qed.

Lemma refill_with_input m e :
  (Encoder.bufIdx e < Encoder.bufSize e →
   load m (Encoder.bufIdx e) = load (Encoder.inBuf e) (Encoder.bufIdx e)) →
  Encoder.refill (with_input m e) = with_input m (Encoder.refill e).
Proof.
  intros Hm. unfold Encoder.refill, with_input.
  cbn [Encoder.bufIdx Encoder.bufSize Encoder.inBuf Encoder.predictor Encoder.mode
       Encoder.loads Encoder.outBuf Encoder.x1 Encoder.x2 Encoder.x].
  destruct (Z.ltb_spec (Encoder.bufIdx e) (Encoder.bufSize e)); [|done].
  by rewrite Hm.
Qed.

Lemma bufSize_shift_in n e :
  Encoder.bufSize (Encoder.shift_in n e) = Encoder.bufSize e
  ∧ Encoder.inBuf (Encoder.shift_in n e) = Encoder.inBuf e.
Proof.
  revert e. induction n as [|n IH]; intros e; simpl.
  - by destruct (Encoder.msb_equal e).
  - destruct (Encoder.msb_equal e); [|done]. by destruct (IH (Encoder.refill e)) as [-> ->].
Qed.

Lemma shift_in_with_input n m e :
  0 <= Encoder.bufIdx e →
  (∀ i, 0 <= i < Encoder.bufSize e → load m i = load (Encoder.inBuf e) i) →
  Encoder.shift_in n (with_input m e) = with_input m (Encoder.shift_in n e).
Proof.
  revert e. induction n as [|n IH]; intros e Hi Hm; cbn [Encoder.shift_in].
  - change (Encoder.msb_equal (with_input m e)) with (Encoder.msb_equal e).
    by destruct (Encoder.msb_equal e).
  - change (Encoder.msb_equal (with_input m e)) with (Encoder.msb_equal e).
    destruct (Encoder.msb_equal e); [|done].
    rewrite refill_with_input by (intros; apply Hm; lia).
    apply IH; [|done].
    cbn [Encoder.refill Encoder.bufIdx]. destruct (_ <? _); [apply U32_range|done].
Qed.

Lemma bufIdx_shift_in n e :
  0 <= Encoder.bufIdx e → 0 <= Encoder.bufIdx (Encoder.shift_in n e).
Proof.
  revert e. induction n as [|n IH]; intros e Hi; simpl.
  - by destruct (Encoder.msb_equal e).
  - destruct (Encoder.msb_equal e); [|done]. apply IH.
    cbn [Encoder.refill Encoder.bufIdx]. destruct (_ <? _); [apply U32_range|done].
Qed.

Lemma decode_with_input m e :
  0 <= Encoder.bufIdx e →
  (∀ i, 0 <= i < Encoder.bufSize e → load m i = load (Encoder.inBuf e) i) →
  Encoder.decode (with_input m e)
  = ((Encoder.decode e).1, with_input m (Encoder.decode e).2)
  ∧ 0 <= Encoder.bufIdx (Encoder.decode e).2
  ∧ Encoder.bufSize (Encoder.decode e).2 = Encoder.bufSize e
  ∧ Encoder.inBuf (Encoder.decode e).2 = Encoder.inBuf e.
Proof.
  intros Hi Hm. unfold Encoder.decode.
  change (Encoder.predictor (with_input m e)) with (Encoder.predictor e).
  change (Encoder.x1 (with_input m e)) with (Encoder.x1 e).
  change (Encoder.x2 (with_input m e)) with (Encoder.x2 e).
  change (Encoder.x (with_input m e)) with (Encoder.x e).
  destruct (Predictor.p (Encoder.predictor e)) as [p pr]. cbn [fst snd].
  set (xm := Encoder.xmid _ _ _). set (y := if _ <=? _ then 1 else 0).
  change (Encoder.narrow y xm (Predictor.update y pr) (with_input m e))
    with (with_input m (Encoder.narrow y xm (Predictor.update y pr) e)).
  rewrite shift_in_with_input by done.
  destruct (bufSize_shift_in 4 (Encoder.narrow y xm (Predictor.update y pr) e)) as [-> ->].
  split; [done|]. split; [|done]. by apply bufIdx_shift_in.
Qed.

Lemma decode_bits_with_input n m c e :
  0 <= Encoder.bufIdx e →
  (∀ i, 0 <= i < Encoder.bufSize e → load m i = load (Encoder.inBuf e) i) →
  decode_bits n c (with_input m e)
  = ((decode_bits n c e).1, with_input m (decode_bits n c e).2)
  ∧ 0 <= Encoder.bufIdx (decode_bits n c e).2
  ∧ Encoder.bufSize (decode_bits n c e).2 = Encoder.bufSize e
  ∧ Encoder.inBuf (decode_bits n c e).2 = Encoder.inBuf e.
Proof.
  revert c e. induction n as [|n IH]; intros c e Hi Hm; cbn [decode_bits].
  - by destruct (c <? 256).
  - destruct (c <? 256); [|done].
    destruct (decode_with_input m e Hi Hm) as (-> & Hi1 & Hs1 & Hb1).
    destruct (Encoder.decode e) as [y e1]. cbn [fst snd] in *.
    destruct (IH (c + (c + y)) e1) as (-> & Hi2 & Hs2 & Hb2);
      [done|by rewrite Hs1, Hb1|].
    rewrite Hs2, Hb2. done.
Qed.

Lemma decompress_loop_with_input fuel bufsize idx out m e :
  0 <= Encoder.bufIdx e →
  (∀ i, 0 <= i < Encoder.bufSize e → load m i = load (Encoder.inBuf e) i) →
  decompress_loop fuel bufsize idx out (with_input m e)
  = decompress_loop fuel bufsize idx out e.
Proof.
  revert idx out e. induction fuel as [|fuel IH]; intros idx out e Hi Hm;
    cbn [decompress_loop]; [done|].
  destruct (decode_with_input m e Hi Hm) as (-> & Hi1 & Hs1 & Hb1).
  destruct (Encoder.decode e) as [y e1]. cbn [fst snd] in *.
  destruct (y =? 0); [done|].
  destruct (decode_bits_with_input 8 m 1 e1) as (-> & Hi2 & Hs2 & Hb2);
    [done|by rewrite Hs1, Hb1|].
  destruct (decode_bits 8 1 e1) as [c e2]. cbn [fst snd] in *.
  destruct (idx <? bufsize); [|done].
  apply IH; [done|]. by rewrite Hs2, Hs1, Hb2, Hb1.
Qed.

(** X10: [fpaq0f2_decompress] reads [in[0..len)] and, when [len] is less than 4,
    [in[len]], and nothing else of its input: over two memories that hold
    the same bytes there it returns the same value and makes the same
    stores ([len] as the coder keeps it, modulo 2^32). *)
Theorem decompress_reads_only_input fuel m m' len out bufsize :
  (∀ i, 0 <= i < U32 len ∨ (i = U32 len ∧ U32 len < 4) → load m' i = load m i) →
  fpaq0f2_decompress fuel (Ptr m') len out bufsize
  = fpaq0f2_decompress fuel (Ptr m) len out bufsize.
Proof.
  intros Hin. unfold fpaq0f2_decompress. cbn [is_null andb null_load].
  destruct (is_null out && (0 <? bufsize)); [done|].
  rewrite (new_decompress_with_input m m' len) by exact Hin.
  destruct (fill_rounds 4 (Ptr m) len) as (Hi & Hs & Hb & _); [lia|].
  apply decompress_loop_with_input.
  - unfold Encoder.new_decompress. lia.
  - unfold Encoder.new_decompress. rewrite Hs, Hb. intros i Hi'. apply Hin. lia.
Qed.

Lemma decompress_reads_only_input_witness :
  fpaq0f2_decompress 3 (Ptr (bytes_then [1; 2; 3; 4] 0xff)) 4 (Ptr (λ _, 0)) 16
  = fpaq0f2_decompress 3 (Ptr (bytes_then [1; 2; 3; 4] 0)) 4 (Ptr (λ _, 0)) 16.
Proof.
  apply (decompress_reads_only_input 3 (bytes_then [1; 2; 3; 4] 0)
           (bytes_then [1; 2; 3; 4] 0xff) 4 (Ptr (λ _, 0)) 16).
  intros i Hi. change (U32 4) with 4 in Hi.
  assert (i = 0 ∨ i = 1 ∨ i = 2 ∨ i = 3) as [-> | [-> | [-> | ->]]] by lia; reflexivity.
Defined.

(** ** The order of the stores, and what an overflow leaves *)

Lemma seqZ_snoc n : 0 <= n → seqZ 0 (n + 1) = seqZ 0 n ++ [n].
Proof.
  intros Hn. replace (n + 1) with (Z.of_nat (S (Z.to_nat n))) by lia.
  rewrite seqZ_S. by rewrite !Z2Nat.id by lia.
Qed.

Lemma ordered_emit e :
  ordered e → Encoder.bufIdx e < Encoder.bufSize e → ordered (Encoder.emit e).
Proof.
  intros [Hcur Hord] Hlt. destruct (cursor_ok_emit e Hcur Hlt) as [Hcur' Hidx].
  split; [done|]. rewrite Hidx. destruct Hcur as (Hi & _).
  rewrite seqZ_snoc by done. rewrite <- Hord. done.
Qed.

Lemma kept_refl e b :
  ordered e → (b = false → Encoder.bufIdx e = Encoder.bufSize e) → kept e b e.
Proof. intros Hord Hb. unfold kept. repeat split; try done; try apply Hord; try lia. Qed.

Lemma kept_trans e e1 b e2 : kept e true e1 → kept e1 b e2 → kept e b e2.
Proof.
  intros (_ & Hs1 & Hm1 & Hi1 & _) (Ho2 & Hs2 & Hm2 & Hi2 & Hf2).
  unfold kept. repeat split; try apply Ho2; try congruence; try lia. done.
Qed.

Lemma kept_shift_out n e b e' :
  Encoder.shift_out n e = (b, e') → ordered e → kept e b e'.
Proof.
  revert e. induction n as [|n IH]; intros e Hs Hord; simpl in Hs.
  - assert (b = true ∧ e' = e) as [-> ->]
      by (destruct (Encoder.msb_equal e); by simplify_eq).
    by apply kept_refl.
  - destruct (Encoder.msb_equal e); [|simplify_eq; by apply kept_refl].
    destruct (Z.ltb_spec (Encoder.bufIdx e) (Encoder.bufSize e)).
    + apply (kept_trans e (Encoder.emit e)); [|by apply (IH _ Hs), ordered_emit].
      destruct (cursor_ok_emit e (proj1 Hord)) as [_ Hidx]; [done|].
      unfold kept. split; [by apply ordered_emit|]. rewrite Hidx.
      repeat split; try done. lia.
    + simplify_eq. apply kept_refl; [done|]. intros _.
      destruct Hord as [(_ & Hle & _) _]. lia.
Qed.

Lemma kept_encode y e b e' :
  Encoder.encode y e = (b, e') → ordered e → kept e b e'.
Proof.
  unfold Encoder.encode. destruct (Predictor.p (Encoder.predictor e)) as [p pr].
  intros Hs Hord. by apply (kept_shift_out _ _ _ _ Hs).
Qed.

Lemma kept_encode_bits k c e b e' :
  encode_bits k c e = (b, e') → ordered e → kept e b e'.
Proof.
  revert e. induction k as [|k IH]; intros e Hs Hord; simpl in Hs.
  - simplify_eq. by apply kept_refl.
  - destruct (Encoder.encode _ e) as [ok e1] eqn:He.
    pose proof (kept_encode _ _ _ _ He Hord) as Hk1.
    destruct ok; [|by simplify_eq].
    apply (kept_trans e e1); [done|]. apply (IH _ Hs). apply Hk1.
Qed.

Lemma kept_compress_loop fuel inp len idx e b e' :
  compress_loop fuel inp len idx e = Some (b, e') → ordered e → kept e b e'.
Proof.
  revert idx e. induction fuel as [|fuel IH]; intros idx e Hs Hord;
    cbn [compress_loop] in Hs.
  - destruct (idx <? len); [done|]. simplify_eq. by apply kept_refl.
  - destruct (idx <? len); [|simplify_eq; by apply kept_refl].
    destruct (Encoder.encode 1 e) as [ok e1] eqn:He.
    pose proof (kept_encode _ _ _ _ He Hord) as Hk1.
    destruct ok; [|by simplify_eq].
    destruct (encode_bits 8 _ e1) as [ok e2] eqn:Hb.
    pose proof (kept_encode_bits _ _ _ _ _ Hb (proj1 Hk1)) as Hk2.
    destruct ok; [|simplify_eq; by apply (kept_trans e e1)].
    apply (kept_trans e e1); [done|]. apply (kept_trans e1 e2); [done|].
    apply (IH _ _ Hs). apply Hk2.
Qed.

Lemma kept_flush e b e' :
  Encoder.mode e = COMPRESS →
  Encoder.flush e = (b, e') → ordered e →
  kept e b e' ∧ (b = true → Encoder.bufIdx e + 1 <= Encoder.bufIdx e').
Proof.
  intros Hmode Hf Hord. unfold Encoder.flush in Hf. rewrite Hmode in Hf.
  destruct (Encoder.shift_out 4 e) as [ok e1] eqn:Hs.
  pose proof (kept_shift_out _ _ _ _ Hs Hord) as Hk1.
  destruct ok; [|by simplify_eq].
  destruct Hk1 as (Hord1 & Hsz1 & Hm1 & Hi1 & _).
  destruct (Z.ltb_spec (Encoder.bufIdx e1) (Encoder.bufSize e1)); simplify_eq.
  - destruct Hord1 as [Hcur1 Ho1]. pose proof Hcur1 as (Hi & Hle & Hsz & Hlen).
    assert (Hidx : Encoder.bufIdx (Encoder.put_last e1) = Encoder.bufIdx e1 + 1).
    { cbn [Encoder.put_last Encoder.bufIdx]. apply U32_small. lia. }
    split; [|lia]. unfold kept, ordered, cursor_ok. rewrite Hidx.
    cbn [Encoder.put_last Encoder.bufSize Encoder.outBuf Encoder.mode].
    repeat split; try done; try lia.
    + simpl. lia.
    + rewrite seqZ_snoc by done. rewrite <- Ho1. done.
  - split; [|done]. unfold kept. repeat split; try done; try apply Hord1.
    intros _. destruct Hord1 as [(_ & Hle & _) _]. lia.
Qed.

Lemma ordered_new_compress size : ordered (Encoder.new_compress size).
Proof. split; [apply cursor_ok_new_compress|done]. Qed.

(** X11: the stores of [fpaq0f2_compress] go to [out[0]], [out[1]], ... in this
    order, each index once.  When the call returns the number of bytes
    written, that number is at least 1 and at most [bufsize] as the coder
    keeps it, modulo 2^32; when it returns the overflow value [bufsize + 1],
    the coder has filled all the [bufsize mod 2^32] bytes it was given. *)
Theorem compress_stores_in_order fuel in_ len out bufsize r :
  0 <= bufsize < 2 ^ 64 →
  null_pair in_ len out bufsize = false →
  ret (fpaq0f2_compress fuel in_ len out bufsize) = Some r →
  store_indices (stores (fpaq0f2_compress fuel in_ len out bufsize))
  = seqZ 0 (Z.of_nat (length (stores (fpaq0f2_compress fuel in_ len out bufsize))))
  ∧ ((r = Z.of_nat (length (stores (fpaq0f2_compress fuel in_ len out bufsize)))
      ∧ 1 <= r <= U32 bufsize)
     ∨ (r = size_t (bufsize + 1)
        ∧ Z.of_nat (length (stores (fpaq0f2_compress fuel in_ len out bufsize)))
          = U32 bufsize)).
Proof.
  intros Hcap [Hin Hout]%null_pair_false. unfold fpaq0f2_compress.
  rewrite Hin, Hout.
  destruct (compress_loop _ _ _ _ _) as [[b e]|] eqn:Hl; [|done].
  pose proof (kept_compress_loop _ _ _ _ _ _ _ Hl (ordered_new_compress bufsize)) as Hk.
  assert (Hfull : ∀ e0 e', kept e0 false e' → Encoder.bufSize e0 = U32 bufsize →
            store_indices (Encoder.outBuf e')
            = seqZ 0 (Z.of_nat (length (Encoder.outBuf e')))
            ∧ Z.of_nat (length (Encoder.outBuf e')) = U32 bufsize).
  { intros e0 e' ([(Hi & Hle & Hsz32 & Hlen) Ho] & Hsz & _ & _ & Hf) Hsz0.
    split; [by rewrite Ho, Hlen|]. rewrite <- Hlen, Hf by done. congruence. }
  destruct b.
  - destruct Hk as (Hord & Hsz & Hmode & _).
    change (Encoder.mode (Encoder.new_compress bufsize)) with COMPRESS in Hmode.
    change (Encoder.bufSize (Encoder.new_compress bufsize)) with (U32 bufsize) in Hsz.
    destruct (Encoder.encode 0 e) as [ok e1] eqn:He.
    pose proof (kept_encode _ _ _ _ He Hord) as Hk1.
    destruct ok.
    + destruct Hk1 as (Hord1 & Hsz1 & Hmode1 & _).
      destruct (Encoder.flush e1) as [ok e2] eqn:Hf.
      destruct (kept_flush _ _ _ (eq_trans Hmode1 Hmode) Hf Hord1) as [Hk2 Hone].
      destruct ok; cbn [ret stores]; intros Hr; simplify_eq.
      * destruct Hk2 as ([(Hi & Hle & Hsz32 & Hlen) Ho] & Hsz2 & _).
        specialize (Hone eq_refl). destruct Hord1 as [(Hi1 & _) _].
        unfold Encoder.getBufIdx. split; [by rewrite Ho, Hlen|]. left.
        split; [done|]. rewrite <- Hsz, <- Hsz1, <- Hsz2. lia.
      * destruct (Hfull e1 e2 Hk2) as [? ?]; [congruence|]. split; [done|]. by right.
    + cbn [ret stores]. intros Hr. simplify_eq.
      destruct (Hfull e e1 Hk1) as [? ?]; [congruence|]. split; [done|]. by right.
  - cbn [ret stores]. intros Hr. simplify_eq.
    destruct (Hfull _ e Hk) as [? ?]; [done|]. split; [done|]. by right.
Qed.

Lemma compress_stores_in_order_witness :
  let log := stores (fpaq0f2_compress 2 (Ptr (bytes_then [0; 1] 0)) 2 (Ptr (λ _, 0)) 16) in
  store_indices log = seqZ 0 (Z.of_nat (length log))
  ∧ ((3 = Z.of_nat (length log) ∧ 1 <= 3 <= U32 16)
     ∨ (3 = size_t (16 + 1) ∧ Z.of_nat (length log) = U32 16)).
Proof.
  apply (compress_stores_in_order 2 (Ptr (bytes_then [0; 1] 0)) 2 (Ptr (λ _, 0)) 16 3).
  - lia.
  - reflexivity.
  - vm_compute. reflexivity.
Defined.




(** ** A capacity that is always enough *)

Lemma shift_out_room n e :
  ordered e → Encoder.bufIdx e + Z.of_nat n <= Encoder.bufSize e →
  ∃ e', Encoder.shift_out n e = (true, e')
        ∧ Encoder.bufIdx e' <= Encoder.bufIdx e + Z.of_nat n.
Proof.
  revert e. induction n as [|n IH]; intros e Hord Hroom; simpl.
  - exists e. split; [by destruct (Encoder.msb_equal e)|lia].
  - destruct (Encoder.msb_equal e); [|exists e; split; [done|lia]].
    destruct (Z.ltb_spec (Encoder.bufIdx e) (Encoder.bufSize e)); [|lia].
    destruct (cursor_ok_emit e (proj1 Hord)) as [_ Hidx]; [done|].
    destruct (IH (Encoder.emit e)) as (e' & Hs & Hi); [by apply ordered_emit|
       rewrite Hidx; change (Encoder.bufSize (Encoder.emit e)) with (Encoder.bufSize e); lia|].
    exists e'. split; [done|]. rewrite Hidx in Hi. lia.
Qed.

Lemma encode_room y e :
  ordered e → Encoder.bufIdx e + 4 <= Encoder.bufSize e →
  ∃ e', Encoder.encode y e = (true, e') ∧ Encoder.bufIdx e' <= Encoder.bufIdx e + 4.
Proof.
  intros Hord Hroom. unfold Encoder.encode.
  destruct (Predictor.p (Encoder.predictor e)) as [p pr].
  apply (shift_out_room 4 (Encoder.narrow y _ _ e)); [done|simpl; lia].
Qed.

Lemma encode_bits_room k c e :
  ordered e → Encoder.bufIdx e + 4 * Z.of_nat k <= Encoder.bufSize e →
  ∃ e', encode_bits k c e = (true, e')
        ∧ Encoder.bufIdx e' <= Encoder.bufIdx e + 4 * Z.of_nat k.
Proof.
  revert e. induction k as [|k IH]; intros e Hord Hroom; cbn [encode_bits].
  - exists e. split; [done|lia].
  - destruct (encode_room (Z.land (Z.shiftr c (Z.of_nat k)) 1) e Hord) as (e1 & He & Hi1); [lia|].
    rewrite He. destruct (kept_encode _ _ _ _ He Hord) as (Hord1 & Hsz1 & _).
    destruct (IH e1 Hord1) as (e' & Hb & Hi'); [lia|].
    exists e'. split; [done|lia].
Qed.

Lemma compress_loop_room fuel inp len idx e :
  ordered e → 0 <= idx <= len → len < 2 ^ 32 →
  len - idx <= Z.of_nat fuel →
  Encoder.bufIdx e + 36 * (len - idx) <= Encoder.bufSize e →
  ∃ e', compress_loop fuel inp len idx e = Some (true, e')
        ∧ Encoder.bufIdx e' <= Encoder.bufIdx e + 36 * (len - idx).
Proof.
  intros Hord Hidx Hlen. revert idx e Hord Hidx.
  induction fuel as [|fuel IH]; intros idx e Hord Hidx Hfuel Hroom; cbn [compress_loop].
  - destruct (Z.ltb_spec idx len); [lia|]. exists e. split; [done|lia].
  - destruct (Z.ltb_spec idx len); [|exists e; split; [done|lia]].
    destruct (encode_room 1 e Hord) as (e1 & He & Hi1); [lia|]. rewrite He.
    destruct (kept_encode _ _ _ _ He Hord) as (Hord1 & Hsz1 & _).
    destruct (encode_bits_room 8 (load inp idx) e1 Hord1) as (e2 & Hb & Hi2); [lia|].
    rewrite Hb. destruct (kept_encode_bits _ _ _ _ _ Hb Hord1) as (Hord2 & Hsz2 & _).
    rewrite (U32_small (idx + 1)) by lia.
    destruct (IH (idx + 1) e2 Hord2) as (e' & Hl & Hi'); [lia|lia|lia|].
    exists e'. split; [done|lia].
Qed.

(** X13: a buffer of [36 * len + 9] bytes is always enough: a call of [encode]
    stores at most four bytes and [flush] at most five, so with such a
    capacity below 2^32 [fpaq0f2_compress] returns, within [len] rounds of
    its loop, the number of bytes written and not the overflow value. *)
Theorem compress_fits in_ len out bufsize :
  0 <= len < 2 ^ 32 →
  36 * len + 9 <= bufsize < 2 ^ 32 →
  null_pair in_ len out bufsize = false →
  ∃ r, ret (fpaq0f2_compress (Z.to_nat len) in_ len out bufsize) = Some r
       ∧ 1 <= r <= 36 * len + 9
       ∧ r = Z.of_nat (length (stores (fpaq0f2_compress (Z.to_nat len) in_ len out bufsize))).
Proof.
  intros Hlen Hcap [Hin Hout]%null_pair_false. unfold fpaq0f2_compress.
  rewrite Hin, Hout.
  pose proof (ordered_new_compress bufsize) as Hord0.
  destruct (compress_loop_room (Z.to_nat len) (mem_of in_) len 0
              (Encoder.new_compress bufsize) Hord0) as (e & Hl & Hi); [lia|lia|lia| |].
  { cbn [Encoder.new_compress Encoder.bufIdx Encoder.bufSize]. rewrite U32_small; lia. }
  rewrite Hl. destruct (kept_compress_loop _ _ _ _ _ _ _ Hl Hord0) as (Hord & Hsz & Hmode & _).
  change (Encoder.bufIdx (Encoder.new_compress bufsize)) with 0 in Hi.
  change (Encoder.mode (Encoder.new_compress bufsize)) with COMPRESS in Hmode.
  change (Encoder.bufSize (Encoder.new_compress bufsize)) with (U32 bufsize) in Hsz.
  rewrite (U32_small bufsize) in Hsz by lia.
  destruct (encode_room 0 e Hord) as (e1 & He & Hi1); [lia|]. rewrite He.
  destruct (kept_encode _ _ _ _ He Hord) as (Hord1 & Hsz1 & Hmode1 & _).
  destruct (Encoder.flush e1) as [ok e2] eqn:Hf.
  destruct (kept_flush e1 ok e2) as [Hk2 Hone]; [congruence|done|done|].
  assert (Hok : ok = true ∧ Encoder.bufIdx e2 <= Encoder.bufIdx e1 + 5).
  { unfold Encoder.flush in Hf. rewrite Hmode1, Hmode in Hf.
    destruct (shift_out_room 4 e1 Hord1) as (e1' & Hs & Hi'); [lia|].
    rewrite Hs in Hf.
    destruct (kept_shift_out _ _ _ _ Hs Hord1) as ([(Hj & Hjle & Hj32 & _) _] & Hsz' & _).
    destruct (Z.ltb_spec (Encoder.bufIdx e1') (Encoder.bufSize e1')); [|lia].
    simplify_eq. split; [done|]. cbn [Encoder.put_last Encoder.bufIdx].
    rewrite U32_small by lia. lia. }
  destruct Hok as [-> Hi2']. cbn [ret stores]. eexists. split; [reflexivity|].
  unfold Encoder.getBufIdx. specialize (Hone eq_refl).
  destruct Hk2 as ([(Hi2 & Hle2 & _ & Hlen2) _] & _).
  destruct Hord1 as [(Hi1' & _) _].
  split; [lia|done].
Qed.

Lemma compress_fits_witness :
  ∃ r, ret (fpaq0f2_compress (Z.to_nat 2) (Ptr (bytes_then [0; 1] 0)) 2 (Ptr (λ _, 0)) 81)
       = Some r
       ∧ 1 <= r <= 36 * 2 + 9
       ∧ r = Z.of_nat (length (stores
               (fpaq0f2_compress (Z.to_nat 2) (Ptr (bytes_then [0; 1] 0)) 2 (Ptr (λ _, 0)) 81))).
Proof.
  apply (compress_fits (Ptr (bytes_then [0; 1] 0)) 2 (Ptr (λ _, 0)) 81); [lia|lia|reflexivity].
Defined.

(** ** The compressed bytes do not depend on the capacity *)

Lemma shift_out_with_size n size e e1 :
  ordered e → Encoder.shift_out n e = (true, e1) → Encoder.bufIdx e1 <= size →
  Encoder.shift_out n (with_size size e) = (true, with_size size e1).
Proof.
  revert e. induction n as [|n IH]; intros e Hord Hs Hsz; simpl in *.
  - change (Encoder.msb_equal (with_size size e)) with (Encoder.msb_equal e).
    destruct (Encoder.msb_equal e); by simplify_eq.
  - change (Encoder.msb_equal (with_size size e)) with (Encoder.msb_equal e).
    destruct (Encoder.msb_equal e); [|by simplify_eq].
    destruct (Z.ltb_spec (Encoder.bufIdx e) (Encoder.bufSize e)); [|done].
    pose proof (kept_shift_out _ _ _ _ Hs (ordered_emit e Hord ltac:(done)))
      as (_ & _ & _ & Hmono & _).
    destruct (cursor_ok_emit e (proj1 Hord)) as [_ Hidx]; [done|].
    change (Encoder.bufIdx (with_size size e)) with (Encoder.bufIdx e).
    change (Encoder.bufSize (with_size size e)) with size.
    destruct (Z.ltb_spec (Encoder.bufIdx e) size); [|lia].
    change (Encoder.emit (with_size size e)) with (with_size size (Encoder.emit e)).
    apply IH; [by apply ordered_emit|done|done].
Qed.

Lemma encode_with_size y size e e1 :
  ordered e → Encoder.encode y e = (true, e1) → Encoder.bufIdx e1 <= size →
  Encoder.encode y (with_size size e) = (true, with_size size e1).
Proof.
  intros Hord He Hsz. unfold Encoder.encode in *.
  change (Encoder.predictor (with_size size e)) with (Encoder.predictor e).
  change (Encoder.x1 (with_size size e)) with (Encoder.x1 e).
  change (Encoder.x2 (with_size size e)) with (Encoder.x2 e).
  destruct (Predictor.p (Encoder.predictor e)) as [p pr].
  set (xm := Encoder.xmid _ _ _) in *.
  change (Encoder.narrow y xm (Predictor.update y pr) (with_size size e))
    with (with_size size (Encoder.narrow y xm (Predictor.update y pr) e)).
  by apply shift_out_with_size.
Qed.

Lemma encode_bits_with_size k c size e e1 :
  ordered e → encode_bits k c e = (true, e1) → Encoder.bufIdx e1 <= size →
  encode_bits k c (with_size size e) = (true, with_size size e1).
Proof.
  revert e. induction k as [|k IH]; intros e Hord Hb Hsz; cbn [encode_bits] in *.
  - by simplify_eq.
  - destruct (Encoder.encode _ e) as [ok e'] eqn:He. destruct ok; [|done].
    destruct (kept_encode _ _ _ _ He Hord) as (Hord' & _).
    destruct (kept_encode_bits _ _ _ _ _ Hb Hord') as (_ & _ & _ & Hmono & _).
    rewrite (encode_with_size _ size e e' Hord He) by lia.
    by apply IH.
Qed.

Lemma compress_loop_with_size fuel inp len idx size e e1 :
  ordered e → compress_loop fuel inp len idx e = Some (true, e1) →
  Encoder.bufIdx e1 <= size →
  compress_loop fuel inp len idx (with_size size e) = Some (true, with_size size e1).
Proof.
  revert idx e. induction fuel as [|fuel IH]; intros idx e Hord Hl Hsz;
    cbn [compress_loop] in *.
  - destruct (idx <? len); by simplify_eq.
  - destruct (idx <? len); [|by simplify_eq].
    destruct (Encoder.encode 1 e) as [ok e'] eqn:He. destruct ok; [|done].
    destruct (kept_encode _ _ _ _ He Hord) as (Hord' & _).
    destruct (encode_bits 8 _ e') as [ok e''] eqn:Hb. destruct ok; [|done].
    destruct (kept_encode_bits _ _ _ _ _ Hb Hord') as (Hord'' & _ & _ & Hmono' & _).
    destruct (kept_compress_loop _ _ _ _ _ _ _ Hl Hord'') as (_ & _ & _ & Hmono'' & _).
    rewrite (encode_with_size _ size e e' Hord He) by lia.
    rewrite (encode_bits_with_size _ _ size e' e'' Hord' Hb) by lia.
    by apply IH.
Qed.

Lemma flush_with_size size e e1 :
  ordered e → Encoder.flush e = (true, e1) → Encoder.bufIdx e1 <= size →
  Encoder.flush (with_size size e) = (true, with_size size e1).
Proof.
  intros Hord Hf Hsz. unfold Encoder.flush in *.
  change (Encoder.mode (with_size size e)) with (Encoder.mode e).
  destruct (Encoder.mode e); [|by simplify_eq].
  destruct (Encoder.shift_out 4 e) as [ok e'] eqn:Hs. destruct ok; [|done].
  destruct (kept_shift_out _ _ _ _ Hs Hord) as ([(Hi & Hle & Hsz32 & _) _] & _).
  destruct (Z.ltb_spec (Encoder.bufIdx e') (Encoder.bufSize e')); [|done].
  simplify_eq. cbn [Encoder.put_last Encoder.bufIdx] in Hsz.
  rewrite U32_small in Hsz by lia.
  rewrite (shift_out_with_size 4 size e e' Hord Hs) by lia.
  change (Encoder.bufIdx (with_size size e')) with (Encoder.bufIdx e').
  change (Encoder.bufSize (with_size size e')) with size.
  destruct (Z.ltb_spec (Encoder.bufIdx e') size); [done|lia].
Qed.

(** X14: when [fpaq0f2_compress] has returned the length [L] of its output, it
    returns [L] and stores the same bytes with every other capacity that is
    at least [L] (as the coder keeps it, modulo 2^32): what is written does
    not depend on the room left. *)
Theorem compress_same_with_other_capacity fuel inp len out out' bufsize bufsize' L :
  0 <= bufsize < 2 ^ 64 →
  ret (fpaq0f2_compress fuel (Ptr inp) len (Ptr out) bufsize) = Some L →
  1 <= L <= bufsize →
  L <= U32 bufsize' →
  fpaq0f2_compress fuel (Ptr inp) len (Ptr out') bufsize'
  = fpaq0f2_compress fuel (Ptr inp) len (Ptr out) bufsize.
Proof.
  intros Hcap Hret HL HL'.
  destruct (compress_success _ _ _ _ _ _ Hcap Hret HL) as (e & e1 & e2 & Hl & He & Hf & HLe & Hst).
  assert (Heq : fpaq0f2_compress fuel (Ptr inp) len (Ptr out) bufsize
          = {| ret := Some L; stores := Encoder.outBuf e2 |}).
  { destruct (fpaq0f2_compress fuel (Ptr inp) len (Ptr out) bufsize) as [r s].
    cbn [ret stores] in *. congruence. }
  rewrite Heq. clear Heq Hret Hst.
  pose proof (ordered_new_compress bufsize) as Hord0.
  destruct (kept_compress_loop _ _ _ _ _ _ _ Hl Hord0) as (Hord & _ & Hmode & _).
  change (Encoder.mode (Encoder.new_compress bufsize)) with COMPRESS in Hmode.
  destruct (kept_encode _ _ _ _ He Hord) as (Hord1 & _ & Hmode1 & Hmono1 & _).
  destruct (kept_flush e1 true e2) as [(_ & _ & _ & Hmono2 & _) _]; [congruence|done|done|].
  unfold fpaq0f2_compress. cbn [is_null andb mem_of].
  change (Encoder.new_compress bufsize')
    with (with_size (U32 bufsize') (Encoder.new_compress bufsize)).
  rewrite (compress_loop_with_size _ _ _ _ (U32 bufsize') _ e Hord0 Hl) by lia.
  rewrite (encode_with_size 0 (U32 bufsize') e e1 Hord He) by lia.
  rewrite (flush_with_size (U32 bufsize') e1 e2 Hord1 Hf) by lia.
  unfold Encoder.getBufIdx. cbn [with_size Encoder.bufIdx Encoder.outBuf]. congruence.
Qed.

Lemma compress_same_with_other_capacity_witness :
  fpaq0f2_compress 2 (Ptr (bytes_then [0; 1] 0)) 2 (Ptr (λ _, 0)) 3
  = fpaq0f2_compress 2 (Ptr (bytes_then [0; 1] 0)) 2 (Ptr (λ _, 0)) 16.
Proof.
  apply (compress_same_with_other_capacity 2 (bytes_then [0; 1] 0) 2 (λ _, 0) (λ _, 0) 16 3 3).
  - lia.
  - vm_compute. reflexivity.
  - lia.
  - vm_compute. discriminate.
Defined.

(** ** [decode] inverts [encode], bit by bit *)

(** X15: whatever bits are given to [encode], framed as bytes or not: when the
    calls and the [flush] after them all return [true], a decoder built
    over the bytes stored (with 0 at the index after them if they are fewer
    than four) returns the same bits from its calls of [decode], in the
    same order. *)
Theorem decode_inverts_encode ys size e1 e2 m :
  Forall (λ y, y = 0 ∨ y = 1) ys →
  encode_all ys (Encoder.new_compress size) = (true, e1) →
  Encoder.flush e1 = (true, e2) →
  (∀ i, (i < length (stored_bytes (Encoder.outBuf e2)))%nat →
        load m (Z.of_nat i) = nth i (stored_bytes (Encoder.outBuf e2)) 0) →
  (Encoder.bufIdx e2 < 4 → load m (Encoder.bufIdx e2) = 0) →
  (decode_all (length ys) (Encoder.new_decompress (Ptr m) (Encoder.bufIdx e2))).1 = ys.
Proof.
  intros Hys Hrun Hf Hm Hend.
  set (e0 := Encoder.new_compress size) in *.
  assert (Hok0 : coder_ok e0) by apply coder_ok_new_compress.
  assert (Hcur0 : cursor_ok e0) by apply cursor_ok_new_compress.
  destruct (encode_all_ok _ _ _ Hok0 Hcur0 Hys Hrun) as (Hok1 & Hcur1 & Hmode1 & Hsz1).
  destruct (flush_future e1 e2 Hok1 Hcur1 Hmode1 Hf) as (fut1 & Hlog1 & Hfut1 & Hw1 & Hlen2 & Hle2).
  destruct (bits_lockstep ys e0 e1 fut1 Hok0 Hcur0 Hys Hrun Hfut1 Hw1)
    as (_ & _ & _ & bs & Hlog & Hbs & _ & Hdec).
  change (stored_bytes (Encoder.outBuf e0)) with (@nil Z) in Hlog. rewrite app_nil_l in Hlog.
  assert (Hc : stored_bytes (Encoder.outBuf e2) = bs ++ fut1) by (by rewrite Hlog1, Hlog).
  assert (HL : Encoder.bufIdx e2 = Z.of_nat (length (bs ++ fut1))).
  { rewrite <- Hc, length_stored_bytes. done. }
  rewrite Hc in Hm. rewrite HL in Hend |- *.
  assert (H32 : Z.of_nat (length (bs ++ fut1)) < 2 ^ 32).
  { destruct Hcur1 as (_ & _ & ? & _). lia. }
  pose proof (new_in_step (bs ++ fut1) m size ltac:(by apply Forall_app) H32 Hm Hend) as Hstep.
  destruct (Hdec _ Hstep) as (d1 & Hd & _). by rewrite Hd.
Qed.

Lemma decode_inverts_encode_witness :
  let ys := [1; 0; 1; 1; 0] in
  let e1 := (encode_all ys (Encoder.new_compress 16)).2 in
  let e2 := (Encoder.flush e1).2 in
  let m := bytes_then (stored_bytes (Encoder.outBuf e2)) 0 in
  (decode_all (length ys) (Encoder.new_decompress (Ptr m) (Encoder.bufIdx e2))).1 = ys.
Proof.
  apply (decode_inverts_encode [1; 0; 1; 1; 0] 16
           (encode_all [1; 0; 1; 1; 0] (Encoder.new_compress 16)).2
           (Encoder.flush (encode_all [1; 0; 1; 1; 0] (Encoder.new_compress 16)).2).2
           (bytes_then (stored_bytes (Encoder.outBuf
              (Encoder.flush (encode_all [1; 0; 1; 1; 0] (Encoder.new_compress 16)).2).2)) 0)).
  - repeat constructor; lia.
  - assert (H : (encode_all [1; 0; 1; 1; 0] (Encoder.new_compress 16)).1 = true)
      by (vm_compute; reflexivity).
    destruct (encode_all [1; 0; 1; 1; 0] (Encoder.new_compress 16)) as [ok e].
    cbn [fst snd] in *. by rewrite H.
  - assert (H : (Encoder.flush (encode_all [1; 0; 1; 1; 0] (Encoder.new_compress 16)).2).1 = true)
      by (vm_compute; reflexivity).
    destruct (Encoder.flush _) as [ok e]. cbn [fst snd] in *. by rewrite H.
  - intros i Hi. unfold load, bytes_then.
    destruct (Z.ltb_spec (Z.of_nat i) 0); [lia|]. rewrite Nat2Z.id.
    vm_compute in Hi. apply Nat.leb_le in Hi.
    destruct i as [|[|i]]; [vm_compute; reflexivity ..|]. simpl in Hi. discriminate Hi.
  - intros _. vm_compute. reflexivity.
Defined.

(** ** The bit position inside a symbol *)

Lemma cxt_observe pr y :
  Predictor.cxt (observe pr y)
  = (if 256 <=? Predictor.cxt pr + (Predictor.cxt pr + y) then 0
     else Predictor.cxt pr + (Predictor.cxt pr + y)).
Proof. done. Qed.

Lemma push_bits_app c ys zs : push_bits c (ys ++ zs) = push_bits (push_bits c ys) zs.
Proof. revert c. induction ys as [|y ys IH]; intros c; simpl; [done|]. apply IH. Qed.

Lemma push_bits_range ys :
  ∀ c k, Forall (λ y, y = 0 ∨ y = 1) ys →
    2 ^ Z.of_nat k <= c < 2 ^ Z.of_nat (S k) →
    2 ^ Z.of_nat (k + length ys) <= push_bits c ys < 2 ^ Z.of_nat (S (k + length ys)).
Proof.
  induction ys as [|y ys IH]; intros c k Hys Hc; simpl.
  - by rewrite Nat.add_0_r.
  - apply Forall_cons in Hys as [Hy Hys].
    replace (k + S (length ys))%nat with (S k + length ys)%nat by lia.
    apply IH; [done|]. rewrite !Nat2Z.inj_succ, !Z.pow_succ_r in * by lia. lia.
Qed.

Lemma cxt_walk ys :
  ∀ pr k, Forall (λ y, y = 0 ∨ y = 1) ys →
    2 ^ Z.of_nat k <= Predictor.cxt pr < 2 ^ Z.of_nat (S k) →
    (k + length ys < 8)%nat →
    Predictor.cxt (foldl observe pr ys) = push_bits (Predictor.cxt pr) ys.
Proof.
  induction ys as [|y ys IH]; intros pr k Hys Hc Hlen; simpl; [done|].
  apply Forall_cons in Hys as [Hy Hys]. simpl in Hlen.
  assert (Hstep : Predictor.cxt (observe pr y) = Predictor.cxt pr + (Predictor.cxt pr + y)
                  ∧ 2 ^ Z.of_nat (S k) <= Predictor.cxt (observe pr y) < 2 ^ Z.of_nat (S (S k))).
  { rewrite cxt_observe.
    assert (2 ^ Z.of_nat (S (S k)) <= 2 ^ 8) by (apply Z.pow_le_mono_r; lia).
    rewrite !Nat2Z.inj_succ, !Z.pow_succ_r in * by lia.
    destruct (Z.leb_spec 256 (Predictor.cxt pr + (Predictor.cxt pr + y))); lia. }
  destruct Hstep as [Heq Hr]. rewrite (IH _ (S k)) by (done || lia). by rewrite Heq.
Qed.

(** X16: the context of the predictor follows the position inside a symbol: from
    context 0, after the flag bit 1 and [j < 8] bits of the byte the context
    is the number written 1 followed by those bits, a value in
    [2^j, 2^(j+1)); after the eighth bit of the byte it is 0 again, and so
    it is after the flag bit 0 that ends the stream. *)
Theorem context_follows_symbol pr ys :
  Predictor.cxt pr = 0 →
  Forall (λ y, y = 0 ∨ y = 1) ys →
  ((length ys < 8)%nat →
   Predictor.cxt (foldl observe pr (1 :: ys)) = push_bits 1 ys
   ∧ 2 ^ Z.of_nat (length ys) <= push_bits 1 ys < 2 ^ Z.of_nat (S (length ys)))
  ∧ (length ys = 8%nat → Predictor.cxt (foldl observe pr (1 :: ys)) = 0)
  ∧ Predictor.cxt (observe pr 0) = 0.
Proof.
  intros H0 Hys.
  assert (H1 : Predictor.cxt (observe pr 1) = 1) by (by rewrite cxt_observe, H0).
  assert (Hr1 : 2 ^ Z.of_nat 0 <= Predictor.cxt (observe pr 1) < 2 ^ Z.of_nat 1)
    by (rewrite H1; simpl; lia).
  split; [|split].
  - intros Hlen. cbn [foldl].
    rewrite (cxt_walk ys (observe pr 1) 0 Hys Hr1) by lia. rewrite H1. split; [done|].
    apply (push_bits_range ys 1 0 Hys). simpl. lia.
  - cbn [foldl]. revert Hys.
    induction ys as [|y ys' _] using rev_ind; intros Hys Hlen; [done|].
    rewrite length_app in Hlen. simpl in Hlen.
    apply Forall_app in Hys as [Hys' Hy]. apply Forall_cons in Hy as [Hy _].
    rewrite foldl_app. cbn [foldl]. rewrite cxt_observe.
    rewrite (cxt_walk ys' (observe pr 1) 0 Hys' Hr1) by lia. rewrite H1.
    pose proof (push_bits_range ys' 1 0 Hys') as Hr. simpl in Hr.
    replace (length ys') with 7%nat in Hr by lia. simpl in Hr.
    destruct (Z.leb_spec 256 (push_bits 1 ys' + (push_bits 1 ys' + y))); lia.
  - by rewrite cxt_observe, H0.
Qed.

Lemma context_follows_symbol_witness :
  ((length [1; 0; 1] < 8)%nat →
   Predictor.cxt (foldl observe Predictor.new (1 :: [1; 0; 1])) = push_bits 1 [1; 0; 1]
   ∧ 2 ^ Z.of_nat (length [1; 0; 1]) <= push_bits 1 [1; 0; 1]
     < 2 ^ Z.of_nat (S (length [1; 0; 1])))
  ∧ (length [1; 0; 1] = 8%nat →
     Predictor.cxt (foldl observe Predictor.new (1 :: [1; 0; 1])) = 0)
  ∧ Predictor.cxt (observe Predictor.new 0) = 0.
Proof.
  apply (context_follows_symbol Predictor.new [1; 0; 1]); [reflexivity|].
  repeat constructor; lia.
Defined.

Lemma encode_observes y e b e' :
  Encoder.encode y e = (b, e') → Encoder.predictor e' = observe (Encoder.predictor e) y.
Proof.
  unfold Encoder.encode, observe.
  destruct (Predictor.p (Encoder.predictor e)) as [p pr]. intros Hs.
  by rewrite (predictor_shift_out _ _ _ _ Hs).
Qed.

Lemma decode_observes e y e' :
  Encoder.decode e = (y, e') → Encoder.predictor e' = observe (Encoder.predictor e) y.
Proof.
  unfold Encoder.decode, observe.
  destruct (Predictor.p (Encoder.predictor e)) as [p pr]. intros Hs.
  assert ((if Encoder.x e <=? Encoder.xmid (Encoder.x1 e) (Encoder.x2 e) (U32 p)
           then 1 else 0) = y) as Hy by congruence.
  rewrite Hy in Hs.
  assert (e' = Encoder.shift_in 4
            (Encoder.narrow y (Encoder.xmid (Encoder.x1 e) (Encoder.x2 e) (U32 p))
               (Predictor.update y pr) e)) as -> by congruence.
  by rewrite predictor_shift_in.
Qed.

(** ** The empty input *)

Lemma first_prediction : fst (Predictor.p Predictor.new) = 0x8000.
Proof. vm_compute. reflexivity. Qed.

Lemma encode_end_of_new size :
  ∃ pr, Encoder.encode 0 (Encoder.new_compress size)
        = (true, Encoder.narrow 0 0x7fffffff pr (Encoder.new_compress size)).
Proof.
  unfold Encoder.encode. pose proof first_prediction as Hp.
  change (Encoder.predictor (Encoder.new_compress size)) with Predictor.new.
  destruct (Predictor.p Predictor.new) as [p pr]. cbn [fst] in Hp. subst p.
  exists (Predictor.update 0 pr).
  change (Encoder.xmid (Encoder.x1 (Encoder.new_compress size))
            (Encoder.x2 (Encoder.new_compress size)) (U32 0x8000)) with 0x7fffffff.
  done.
Qed.

(** X17: with [len = 0] nothing is read of [in], which may be null: the call
    encodes the end flag alone and, given room for one byte, stores 0xff at
    [out[0]] and returns 1; with no room (a capacity that is 0 modulo 2^32)
    it stores nothing and returns [bufsize + 1]. *)
Theorem compress_empty_input fuel in_ out bufsize :
  is_null out && (0 <? bufsize) = false →
  fpaq0f2_compress fuel in_ 0 out bufsize
  = if 0 <? U32 bufsize
    then {| ret := Some 1; stores := [(0, 0xff)] |}
    else {| ret := Some (size_t (bufsize + 1)); stores := [] |}.
Proof.
  intros Hout. unfold fpaq0f2_compress.
  rewrite andb_false_r, Hout.
  assert (compress_loop fuel (mem_of in_) 0 0 (Encoder.new_compress bufsize)
          = Some (true, Encoder.new_compress bufsize)) as -> by (by destruct fuel).
  destruct (encode_end_of_new bufsize) as (pr & ->).
  set (e1 := Encoder.narrow 0 0x7fffffff pr (Encoder.new_compress bufsize)).
  unfold Encoder.flush. change (Encoder.mode e1) with COMPRESS. cbv iota.
  assert (Encoder.shift_out 4 e1 = (true, e1)) as -> by done.
  change (Encoder.bufIdx e1) with 0. change (Encoder.bufSize e1) with (U32 bufsize).
  by destruct (0 <? U32 bufsize).
Qed.

Lemma compress_empty_input_witness :
  fpaq0f2_compress 0 NULL 0 (Ptr (λ _, 0)) 16
  = if 0 <? U32 16
    then {| ret := Some 1; stores := [(0, 0xff)] |}
    else {| ret := Some (size_t (16 + 1)); stores := [] |}.
Proof. apply (compress_empty_input 0 NULL (Ptr (λ _, 0)) 16). reflexivity. Defined.

(** ** What the DECOMPRESS constructor leaves *)

Lemma fill_rounds_exact k buf size :
  (k <= 4)%nat → 4 <= U32 size →
  let e := Nat.iter k Encoder.fill
    {| Encoder.predictor := Predictor.new; Encoder.mode := DECOMPRESS;
       Encoder.inBuf := mem_of buf; Encoder.loads := []; Encoder.outBuf := [];
       Encoder.bufIdx := 0; Encoder.bufSize := U32 size;
       Encoder.x1 := 0; Encoder.x2 := 0xffffffff; Encoder.x := 0 |} in
  Encoder.bufIdx e = Z.of_nat k
  ∧ Encoder.loads e = rev (seqZ 0 (Z.of_nat k)).
Proof.
  intros Hk H4. induction k as [|k IH]; [done|].
  cbv zeta. change (Nat.iter (S k) Encoder.fill ?e) with (Encoder.fill (Nat.iter k Encoder.fill e)).
  destruct IH as (Hi & Hl); [lia|].
  destruct (fill_rounds k buf size) as (_ & Hs & _); [lia|].
  set (e := Nat.iter k Encoder.fill _) in *.
  destruct (fill_fields e) as (_ & Hi' & _). rewrite Hi', fill_log, Hs, Hi, Hl.
  destruct (Z.leb_spec (Z.of_nat k) (U32 size)); [|lia].
  rewrite U32_small by lia. split; [lia|].
  rewrite seqZ_S, rev_app_distr. done.
Qed.

(** X18: over an input of at least four bytes the DECOMPRESS constructor loads
    [in[0]] to [in[3]] and no other byte, leaves them in [x] as a
    big-endian word, and leaves the cursor at 4 and the interval at
    [0, 0xffffffff]. *)
Theorem decoder_starts_with_four_bytes buf size :
  4 <= U32 size →
  let d := Encoder.new_decompress buf size in
  let m := mem_of buf in
  Encoder.x d = load m 0 * 2 ^ 24 + load m 1 * 2 ^ 16 + load m 2 * 2 ^ 8 + load m 3
  ∧ Encoder.loads d = [3; 2; 1; 0]
  ∧ Encoder.bufIdx d = 4
  ∧ Encoder.bufSize d = U32 size
  ∧ Encoder.x1 d = 0 ∧ Encoder.x2 d = 0xffffffff.
Proof.
  intros H4 d m.
  destruct (new_decompress_fields buf size) as (Hx & Hi & Hs & _).
  destruct (new_decompress_interval buf size) as [H1 H2].
  destruct (fill_rounds_exact 4 buf size) as [_ Hl]; [lia|done|].
  fold d in Hx, Hi, Hs, H1, H2. fold m in Hx.
  destruct (Z.leb_spec 0 (U32 size)); [|lia]. destruct (Z.leb_spec 1 (U32 size)); [|lia].
  destruct (Z.leb_spec 2 (U32 size)); [|lia]. destruct (Z.leb_spec 3 (U32 size)); [|lia].
  split; [done|]. split; [exact Hl|]. split; [lia|done].
Qed.

Lemma decoder_starts_with_four_bytes_witness :
  let d := Encoder.new_decompress (Ptr (bytes_then [1; 2; 3; 4; 5] 0)) 5 in
  let m := mem_of (Ptr (bytes_then [1; 2; 3; 4; 5] 0)) in
  Encoder.x d = load m 0 * 2 ^ 24 + load m 1 * 2 ^ 16 + load m 2 * 2 ^ 8 + load m 3
  ∧ Encoder.loads d = [3; 2; 1; 0]
  ∧ Encoder.bufIdx d = 4
  ∧ Encoder.bufSize d = U32 5
  ∧ Encoder.x1 d = 0 ∧ Encoder.x2 d = 0xffffffff.
Proof.
  apply (decoder_starts_with_four_bytes (Ptr (bytes_then [1; 2; 3; 4; 5] 0)) 5).
  vm_compute. discriminate.
Defined.

(** ** A capacity that is too small *)

(** [decompress_follows] with too little room: the loop stores the bytes
    that fit and returns the overflow value. *)
Lemma decompress_follows_short s :
  ∀ fuel bufsize idx out e e1 e2 d fut,
    coder_ok e → cursor_ok e → Encoder.mode e = COMPRESS →
    Forall is_byte s →
    encode_all (frame s) e = (true, e1) → Encoder.flush e1 = (true, e2) →
    stored_bytes (Encoder.outBuf e2) = stored_bytes (Encoder.outBuf e) ++ fut →
    in_step fut e d →
    (length s < fuel)%nat →
    0 <= idx <= bufsize → bufsize < idx + Z.of_nat (length s) →
    idx + Z.of_nat (length s) < 2 ^ 32 →
    ret (decompress_loop fuel bufsize idx out d) = Some (bufsize + 1)
    ∧ stored_bytes (stores (decompress_loop fuel bufsize idx out d))
      = stored_bytes out ++ take (Z.to_nat (bufsize - idx)) s.
Proof.
  induction s as [|b s IH];
    intros fuel bufsize idx out e e1 e2 d fut Hok Hcur Hmode Hs Hrun Hf Hlog Hstep
      Hfuel Hidx Hcap H32.
  - simpl in Hcap. lia.
  - destruct fuel as [|fuel]; [simpl in Hfuel; lia|].
    apply Forall_cons in Hs as [Hb Hs].
    rewrite frame_cons in Hrun.
    destruct (encode_all_app _ _ _ _ Hrun) as (em & Hrun9 & Hrun').
    assert (Hbits9 : Forall (λ y, y = 0 ∨ y = 1) (1 :: byte_bits b)).
    { constructor; [by right|apply byte_bits_are_bits]. }
    destruct (encode_all_ok _ _ _ Hok Hcur Hbits9 Hrun9) as (Hokm & Hcurm & Hmodem & _).
    rewrite Hmode in Hmodem.
    destruct (run_future (frame s) em e1 e2 Hokm Hcurm Hmodem (frame_are_bits s) Hrun' Hf)
      as (futm & Hlogm & Hfutm & Hwm).
    destruct (bits_lockstep _ e em futm Hok Hcur Hbits9 Hrun9 Hfutm Hwm)
      as (_ & _ & _ & bs & Hlogb & Hbs & _ & Hdec).
    assert (fut = bs ++ futm) as ->.
    { rewrite Hlogm, Hlogb, <- app_assoc in Hlog. by apply app_inv_head in Hlog. }
    destruct (Hdec d Hstep) as (dm & Hd & Hstepm).
    apply (decode_all_cons (length (byte_bits b)) d 1 (byte_bits b) dm) in Hd
      as (d1 & Hd1 & Hd8).
    rewrite length_byte_bits in Hd8.
    assert (Hokd1 : coder_ok d1).
    { apply (coder_ok_decode d 1 d1); [|done]. by eapply in_step_coder_ok. }
    rewrite decompress_loop_S, Hd1.
    rewrite (decode_bits_all 8 0 1 d1 eq_refl Hokd1) by (simpl; lia).
    rewrite Hd8. cbn [fst snd]. rewrite push_byte_bits by done.
    rewrite length_cons in *.
    change (1 =? 0) with false. cbv iota.
    destruct (Z.ltb_spec idx bufsize).
    + rewrite (U32_small (idx + 1)) by lia.
      replace (256 + b - 256) with b by lia.
      assert (HU8 : U8 b = b) by (apply Z.mod_small; apply Hb).
      rewrite HU8.
      destruct (IH fuel bufsize (idx + 1) ((idx, b) :: out) em e1 e2 dm futm
                  Hokm Hcurm Hmodem Hs Hrun' Hf Hlogm Hstepm)
        as [Hret Hst]; [lia|lia|lia|lia|].
      rewrite Hret, Hst, stored_bytes_cons, <- app_assoc. split; [done|].
      replace (Z.to_nat (bufsize - idx)) with (S (Z.to_nat (bufsize - (idx + 1)))) by lia.
      done.
    + cbn [ret stores]. split; [f_equal; word_lia|].
      replace (Z.to_nat (bufsize - idx)) with 0%nat by lia. by rewrite app_nil_r.
Qed.

(** X19: when the output buffer of [fpaq0f2_decompress] is smaller than the data,
    the call returns [bufsize + 1] and has stored the first [bufsize] bytes
    of the data (for a decoder whose loads stay inside the compressed bytes
    or find 0 just past them). *)
Theorem decompress_overflow_keeps_prefix s r fuel out bufsize L m fuel' out' bufsize' :
  Forall is_byte s →
  0 <= bufsize < 2 ^ 64 →
  ret (fpaq0f2_compress fuel (Ptr (bytes_then s r)) (Z.of_nat (length s)) (Ptr out) bufsize)
  = Some L →
  1 <= L <= bufsize →
  let c := stored_bytes (stores
    (fpaq0f2_compress fuel (Ptr (bytes_then s r)) (Z.of_nat (length s)) (Ptr out) bufsize)) in
  (∀ i, (i < length c)%nat → load m (Z.of_nat i) = nth i c 0) →
  (L < 4 → load m L = 0) →
  0 <= bufsize' < Z.of_nat (length s) →
  (length s < fuel')%nat →
  ret (fpaq0f2_decompress fuel' (Ptr m) L (Ptr out') bufsize') = Some (bufsize' + 1)
  ∧ stored_bytes (stores (fpaq0f2_decompress fuel' (Ptr m) L (Ptr out') bufsize'))
    = take (Z.to_nat bufsize') s.
Proof.
  intros Hs Hcap Hret HL c Hm Hend Hcap' Hfuel'.
  destruct (compress_success _ _ _ _ _ _ Hcap Hret HL) as (e & e1 & e2 & Hl & He & Hf & HLe & Hst).
  subst c. rewrite Hst in *. clear Hst Hret.
  set (e0 := Encoder.new_compress bufsize) in *.
  assert (Hok0 : coder_ok e0) by apply coder_ok_new_compress.
  assert (Hcur0 : cursor_ok e0) by apply cursor_ok_new_compress.
  assert (H32 : Z.of_nat (length s) < 2 ^ 32).
  { destruct (Z.lt_ge_cases (Z.of_nat (length s)) (2 ^ 32)) as [|Hge]; [done|].
    assert (H0 : 0 <= 0 < 2 ^ 32) by lia.
    by pose proof (compress_loop_long _ _ _ _ _ _ _ Hge H0 Hl). }
  assert (Hbody : encode_all (body_bits s) e0 = (true, e)).
  { apply (compress_loop_all s fuel (bytes_then s r) (Z.of_nat (length s)) 0);
      [lia|lia|done| |done].
    intros j Hj. rewrite Z.add_0_l. unfold load, bytes_then.
    destruct (Z.ltb_spec (Z.of_nat j) 0); [lia|]. rewrite Nat2Z.id.
    rewrite (nth_indep s r 0) by done.
    apply Z.mod_small. by apply nth_is_byte. }
  assert (Hrun : encode_all (frame s) e0 = (true, e1)).
  { apply (encode_all_snoc _ _ _ e); [done|]. cbn [encode_all]. by rewrite He. }
  destruct (encode_all_ok _ _ _ Hok0 Hcur0 (frame_are_bits s) Hrun)
    as (Hok1 & Hcur1 & Hmode1 & Hsz1).
  destruct (flush_future e1 e2 Hok1 Hcur1 Hmode1 Hf) as (_ & _ & _ & _ & Hlen2 & Hle2).
  destruct (run_future (frame s) e0 e1 e2 Hok0 Hcur0 eq_refl (frame_are_bits s) Hrun Hf)
    as (fut & Hlog & Hfut & _).
  change (stored_bytes (Encoder.outBuf e0)) with (@nil Z) in Hlog. rewrite app_nil_l in Hlog.
  assert (HLc : L = Z.of_nat (length (stored_bytes (Encoder.outBuf e2)))).
  { rewrite length_stored_bytes. lia. }
  assert (HL32 : L < 2 ^ 32).
  { destruct Hcur1 as (_ & _ & ? & _). lia. }
  unfold fpaq0f2_decompress. cbn [is_null andb null_load].
  rewrite HLc. rewrite HLc in Hend, HL32.
  rewrite Hlog in *.
  pose proof (new_in_step fut m bufsize Hfut HL32 Hm Hend) as Hstep.
  destruct (decompress_follows_short s fuel' bufsize' 0 [] e0 e1 e2 _ fut
              Hok0 Hcur0 eq_refl Hs Hrun Hf Hlog Hstep Hfuel') as [Hr Hb]; [lia|lia|lia|].
  rewrite Hr, Hb. by rewrite Z.sub_0_r.
Qed.

Lemma decompress_overflow_keeps_prefix_witness :
  ret (fpaq0f2_decompress 3 (Ptr (bytes_then [0x7f; 0xc7; 0x47] 0)) 3 (Ptr (λ _, 0)) 1)
  = Some (1 + 1)
  ∧ stored_bytes (stores
      (fpaq0f2_decompress 3 (Ptr (bytes_then [0x7f; 0xc7; 0x47] 0)) 3 (Ptr (λ _, 0)) 1))
    = take (Z.to_nat 1) [0; 1].
Proof.
  apply (decompress_overflow_keeps_prefix [0; 1] 0 2 (λ _, 0) 16 3
           (bytes_then [0x7f; 0xc7; 0x47] 0) 3 (λ _, 0) 1).
  - repeat constructor; unfold is_byte; lia.
  - lia.
  - vm_compute. reflexivity.
  - lia.
  - intros i Hi. vm_compute in Hi.
    destruct i as [|[|[|i]]]; [vm_compute; reflexivity ..|].
    exfalso. apply Nat.leb_le in Hi. simpl in Hi. discriminate Hi.
  - intros _. vm_compute. reflexivity.
  - simpl. lia.
  - simpl. lia.
Defined.

(** ** What an overflow of [fpaq0f2_compress] leaves in the buffer *)

Lemma grows_refl e : grows e e.
Proof. by exists []. Qed.

Lemma grows_trans e e1 e2 : grows e e1 → grows e1 e2 → grows e e2.
Proof. intros [bs Hbs] [bs' Hbs']. exists (bs' ++ bs). by rewrite Hbs', Hbs, app_assoc. Qed.

Lemma grows_shift_out n e b e' : Encoder.shift_out n e = (b, e') → grows e e'.
Proof. intros Hs. destruct (shift_out_log _ _ _ _ Hs) as (bs & Hlog & _). by exists bs. Qed.

Lemma grows_encode y e b e' : Encoder.encode y e = (b, e') → grows e e'.
Proof.
  unfold Encoder.encode. destruct (Predictor.p (Encoder.predictor e)) as [p pr].
  intros Hs. apply grows_shift_out in Hs. done.
Qed.

Lemma grows_encode_bits k c e b e' : encode_bits k c e = (b, e') → grows e e'.
Proof.
  revert e. induction k as [|k IH]; intros e Hs; simpl in Hs.
  - simplify_eq. apply grows_refl.
  - destruct (Encoder.encode _ e) as [ok e1] eqn:He. apply grows_encode in He.
    destruct ok; [|by simplify_eq]. by apply (grows_trans e e1), (IH _ Hs).
Qed.

Lemma grows_compress_loop fuel inp len idx e b e' :
  compress_loop fuel inp len idx e = Some (b, e') → grows e e'.
Proof.
  revert idx e. induction fuel as [|fuel IH]; intros idx e Hs; cbn [compress_loop] in Hs.
  - destruct (idx <? len); [done|]. simplify_eq. apply grows_refl.
  - destruct (idx <? len); [|simplify_eq; apply grows_refl].
    destruct (Encoder.encode 1 e) as [ok e1] eqn:He. apply grows_encode in He.
    destruct ok; [|by simplify_eq].
    destruct (encode_bits 8 _ e1) as [ok e2] eqn:Hb. apply grows_encode_bits in Hb.
    destruct ok; [|simplify_eq; by apply (grows_trans e e1)].
    apply (grows_trans e e1); [done|]. by apply (grows_trans e1 e2), (IH _ _ Hs).
Qed.

Lemma grows_flush e b e' : Encoder.flush e = (b, e') → grows e e'.
Proof.
  unfold Encoder.flush. destruct (Encoder.mode e); [|intros; simplify_eq; apply grows_refl].
  destruct (Encoder.shift_out 4 e) as [ok e1] eqn:Hs. apply grows_shift_out in Hs.
  destruct ok; [|by intros; simplify_eq].
  destruct (_ <? _); intros; simplify_eq; [|done].
  apply (grows_trans e e1); [done|]. by eexists [_].
Qed.

(** The first [size] bytes stored do not change once [size] bytes or more
    have been stored. *)
Lemma take_grows size e e' :
  grows e e' → size <= Z.of_nat (length (Encoder.outBuf e)) →
  take (Z.to_nat size) (stored_bytes (Encoder.outBuf e'))
  = take (Z.to_nat size) (stored_bytes (Encoder.outBuf e)).
Proof.
  intros [bs Hbs] Hlen. rewrite Hbs. unfold stored_bytes.
  rewrite fmap_app, rev_app_distr. apply take_app_le.
  rewrite length_rev, length_fmap. lia.
Qed.

Lemma take_all_stored size e :
  size = Z.of_nat (length (Encoder.outBuf e)) →
  take (Z.to_nat size) (stored_bytes (Encoder.outBuf e)) = stored_bytes (Encoder.outBuf e).
Proof. intros ->. apply firstn_all2. rewrite length_stored_bytes. lia. Qed.

Lemma shift_out_short n size e e1 :
  ordered e → Encoder.shift_out n e = (true, e1) →
  Encoder.bufIdx e <= size → size < Encoder.bufIdx e1 →
  ∃ e', Encoder.shift_out n (with_size size e) = (false, e')
        ∧ stored_bytes (Encoder.outBuf e')
          = take (Z.to_nat size) (stored_bytes (Encoder.outBuf e1)).
Proof.
  revert e. induction n as [|n IH]; intros e Hord Hs Hle Hlt.
  - simpl in Hs. destruct (Encoder.msb_equal e); simplify_eq; lia.
  - pose proof (grows_shift_out _ _ _ _ Hs) as Hg. simpl in Hs. simpl.
    change (Encoder.msb_equal (with_size size e)) with (Encoder.msb_equal e).
    destruct (Encoder.msb_equal e); [|simplify_eq; lia].
    destruct (Z.ltb_spec (Encoder.bufIdx e) (Encoder.bufSize e)); [|done].
    change (Encoder.bufIdx (with_size size e)) with (Encoder.bufIdx e).
    change (Encoder.bufSize (with_size size e)) with size.
    destruct (cursor_ok_emit e (proj1 Hord)) as [_ Hidx]; [done|].
    destruct (Z.ltb_spec (Encoder.bufIdx e) size).
    + change (Encoder.emit (with_size size e)) with (with_size size (Encoder.emit e)).
      apply IH; [by apply ordered_emit|done|lia|done].
    + exists (with_size size e). split; [done|].
      destruct Hord as [(_ & _ & _ & Hlen) _].
      change (Encoder.outBuf (with_size size e)) with (Encoder.outBuf e).
      rewrite (take_grows size e e1) by (done || lia).
      symmetry. apply take_all_stored. lia.
Qed.

Lemma encode_short y size e e1 :
  ordered e → Encoder.encode y e = (true, e1) →
  Encoder.bufIdx e <= size → size < Encoder.bufIdx e1 →
  ∃ e', Encoder.encode y (with_size size e) = (false, e')
        ∧ stored_bytes (Encoder.outBuf e')
          = take (Z.to_nat size) (stored_bytes (Encoder.outBuf e1)).
Proof.
  intros Hord He Hle Hlt. unfold Encoder.encode in *.
  change (Encoder.predictor (with_size size e)) with (Encoder.predictor e).
  change (Encoder.x1 (with_size size e)) with (Encoder.x1 e).
  change (Encoder.x2 (with_size size e)) with (Encoder.x2 e).
  destruct (Predictor.p (Encoder.predictor e)) as [p pr].
  set (xm := Encoder.xmid _ _ _) in *.
  change (Encoder.narrow y xm (Predictor.update y pr) (with_size size e))
    with (with_size size (Encoder.narrow y xm (Predictor.update y pr) e)).
  by apply shift_out_short.
Qed.

(** Past the point where the smaller buffer is full, the bytes in it are
    the first bytes of whatever the larger run goes on to store. *)
Lemma stored_prefix size e e1 e' :
  ordered e → grows e e1 → size < Encoder.bufIdx e →
  stored_bytes (Encoder.outBuf e') = take (Z.to_nat size) (stored_bytes (Encoder.outBuf e)) →
  stored_bytes (Encoder.outBuf e') = take (Z.to_nat size) (stored_bytes (Encoder.outBuf e1)).
Proof.
  intros [(_ & _ & _ & Hlen) _] Hg Hlt ->. symmetry. apply take_grows; [done|lia].
Qed.

Lemma encode_bits_short k c size e e1 :
  ordered e → encode_bits k c e = (true, e1) →
  Encoder.bufIdx e <= size → size < Encoder.bufIdx e1 →
  ∃ e', encode_bits k c (with_size size e) = (false, e')
        ∧ stored_bytes (Encoder.outBuf e')
          = take (Z.to_nat size) (stored_bytes (Encoder.outBuf e1)).
Proof.
  revert e. induction k as [|k IH]; intros e Hord Hb Hle Hlt; cbn [encode_bits] in *.
  - simplify_eq. lia.
  - destruct (Encoder.encode _ e) as [ok ea] eqn:He. destruct ok; [|done].
    destruct (kept_encode _ _ _ _ He Hord) as (Horda & _).
    destruct (Z.le_gt_cases (Encoder.bufIdx ea) size).
    + rewrite (encode_with_size _ size e ea Hord He) by done. by apply IH.
    + destruct (encode_short _ size e ea Hord He) as (e' & -> & Hst); [done|lia|].
      exists e'. split; [done|].
      apply (stored_prefix size ea e1 e' Horda); [|lia|done].
      by apply grows_encode_bits in Hb.
Qed.

Lemma compress_loop_short fuel inp len idx size e e1 :
  ordered e → compress_loop fuel inp len idx e = Some (true, e1) →
  Encoder.bufIdx e <= size → size < Encoder.bufIdx e1 →
  ∃ e', compress_loop fuel inp len idx (with_size size e) = Some (false, e')
        ∧ stored_bytes (Encoder.outBuf e')
          = take (Z.to_nat size) (stored_bytes (Encoder.outBuf e1)).
Proof.
  revert idx e. induction fuel as [|fuel IH]; intros idx e Hord Hl Hle Hlt;
    cbn [compress_loop] in *.
  - destruct (idx <? len); [done|]. simplify_eq. lia.
  - destruct (idx <? len); [|simplify_eq; lia].
    destruct (Encoder.encode 1 e) as [ok ea] eqn:He. destruct ok; [|done].
    destruct (kept_encode _ _ _ _ He Hord) as (Horda & _).
    destruct (encode_bits 8 _ ea) as [ok eb] eqn:Hb. destruct ok; [|done].
    destruct (kept_encode_bits _ _ _ _ _ Hb Horda) as (Hordb & _ & _ & Hmono & _).
    destruct (Z.le_gt_cases (Encoder.bufIdx ea) size).
    + rewrite (encode_with_size _ size e ea Hord He) by done.
      destruct (Z.le_gt_cases (Encoder.bufIdx eb) size).
      * rewrite (encode_bits_with_size _ _ size ea eb Horda Hb) by done. by apply IH.
      * destruct (encode_bits_short _ _ size ea eb Horda Hb) as (e' & -> & Hst); [done|lia|].
        exists e'. split; [done|].
        apply (stored_prefix size eb e1 e' Hordb); [|lia|done].
        by apply grows_compress_loop in Hl.
    + destruct (encode_short _ size e ea Hord He) as (e' & -> & Hst); [done|lia|].
      exists e'. split; [done|].
      apply (stored_prefix size ea e1 e' Horda); [|lia|done].
      apply (grows_trans ea eb); [by apply grows_encode_bits in Hb|].
      by apply grows_compress_loop in Hl.
Qed.

Lemma flush_short size e e1 :
  ordered e → Encoder.flush e = (true, e1) →
  Encoder.bufIdx e <= size → size < Encoder.bufIdx e1 →
  ∃ e', Encoder.flush (with_size size e) = (false, e')
        ∧ stored_bytes (Encoder.outBuf e')
          = take (Z.to_nat size) (stored_bytes (Encoder.outBuf e1)).
Proof.
  intros Hord Hf Hle Hlt. unfold Encoder.flush in *.
  change (Encoder.mode (with_size size e)) with (Encoder.mode e).
  destruct (Encoder.mode e); [|simplify_eq; lia].
  destruct (Encoder.shift_out 4 e) as [ok ea] eqn:Hs. destruct ok; [|done].
  destruct (kept_shift_out _ _ _ _ Hs Hord) as (Horda & _).
  pose proof Horda as [(Hi & Hile & Hsz32 & Hlen) _].
  destruct (Z.ltb_spec (Encoder.bufIdx ea) (Encoder.bufSize ea)); [|done].
  simplify_eq.
  assert (Hg : grows ea (Encoder.put_last ea)) by (by eexists [_]).
  destruct (Z.le_gt_cases (Encoder.bufIdx ea) size).
  - rewrite (shift_out_with_size 4 size e ea Hord Hs) by done.
    change (Encoder.bufIdx (with_size size ea)) with (Encoder.bufIdx ea).
    change (Encoder.bufSize (with_size size ea)) with size.
    cbn [Encoder.put_last Encoder.bufIdx] in Hlt. rewrite U32_small in Hlt by lia.
    destruct (Z.ltb_spec (Encoder.bufIdx ea) size); [lia|].
    exists (with_size size ea). split; [done|].
    change (Encoder.outBuf (with_size size ea)) with (Encoder.outBuf ea).
    rewrite (take_grows size ea (Encoder.put_last ea)) by (done || lia).
    symmetry. apply take_all_stored. lia.
  - destruct (shift_out_short 4 size e ea Hord Hs) as (e' & -> & Hst); [done|lia|].
    exists e'. split; [done|].
    by apply (stored_prefix size ea (Encoder.put_last ea) e' Horda).
Qed.

(** X20: when the output buffer of [fpaq0f2_compress] is smaller than the
    compressed data, the call returns [bufsize + 1] and has stored the
    first [bufsize] bytes (modulo 2^32, as the coder keeps the capacity) of
    what it stores when the buffer is large enough. *)
Theorem compress_overflow_keeps_prefix fuel inp len out out' bufsize bufsize' L :
  0 <= bufsize < 2 ^ 64 →
  ret (fpaq0f2_compress fuel (Ptr inp) len (Ptr out) bufsize) = Some L →
  1 <= L <= bufsize →
  U32 bufsize' < L →
  ret (fpaq0f2_compress fuel (Ptr inp) len (Ptr out') bufsize') = Some (size_t (bufsize' + 1))
  ∧ stored_bytes (stores (fpaq0f2_compress fuel (Ptr inp) len (Ptr out') bufsize'))
    = take (Z.to_nat (U32 bufsize'))
        (stored_bytes (stores (fpaq0f2_compress fuel (Ptr inp) len (Ptr out) bufsize))).
Proof.
  intros Hcap Hret HL HL'.
  destruct (compress_success _ _ _ _ _ _ Hcap Hret HL) as (e & e1 & e2 & Hl & He & Hf & HLe & Hst).
  rewrite Hst. clear Hst Hret.
  pose proof (U32_range bufsize') as Hsize. set (size := U32 bufsize') in *.
  pose proof (ordered_new_compress bufsize) as Hord0.
  destruct (kept_compress_loop _ _ _ _ _ _ _ Hl Hord0) as (Hord & _).
  destruct (kept_encode _ _ _ _ He Hord) as (Hord1 & _).
  unfold fpaq0f2_compress. cbn [is_null andb mem_of].
  change (Encoder.new_compress bufsize')
    with (with_size size (Encoder.new_compress bufsize)).
  destruct (Z.le_gt_cases (Encoder.bufIdx e) size).
  - rewrite (compress_loop_with_size _ _ _ _ size _ e Hord0 Hl) by done.
    destruct (Z.le_gt_cases (Encoder.bufIdx e1) size).
    + rewrite (encode_with_size 0 size e e1 Hord He) by done.
      destruct (flush_short size e1 e2 Hord1 Hf) as (e' & -> & Hst'); [done|lia|].
      done.
    + destruct (encode_short 0 size e e1 Hord He) as (e' & -> & Hst'); [done|lia|].
      cbn [ret stores]. split; [done|].
      apply (stored_prefix size e1 e2 e' Hord1); [|lia|done].
      by apply grows_flush in Hf.
  - destruct (compress_loop_short _ _ _ _ size _ e Hord0 Hl) as (e' & -> & Hst');
      [simpl; lia|lia|].
    cbn [ret stores]. split; [done|].
    apply (stored_prefix size e e2 e' Hord); [|lia|done].
    apply (grows_trans e e1); [by apply grows_encode in He|by apply grows_flush in Hf].
Qed.

Lemma compress_overflow_keeps_prefix_witness :
  ret (fpaq0f2_compress 2 (Ptr (bytes_then [0; 1] 0)) 2 (Ptr (λ _, 0)) 2) = Some (size_t (2 + 1))
  ∧ stored_bytes (stores (fpaq0f2_compress 2 (Ptr (bytes_then [0; 1] 0)) 2 (Ptr (λ _, 0)) 2))
    = take (Z.to_nat (U32 2))
        (stored_bytes (stores
           (fpaq0f2_compress 2 (Ptr (bytes_then [0; 1] 0)) 2 (Ptr (λ _, 0)) 16))).
Proof.
  apply (compress_overflow_keeps_prefix 2 (bytes_then [0; 1] 0) 2 (λ _, 0) (λ _, 0) 16 2 3).
  - lia.
  - vm_compute. reflexivity.
  - lia.
  - vm_compute. reflexivity.
Defined.


(** ** A prediction that stays put and is not saturated *)

Lemma reachable_run ys e :
  reachable e → Forall (λ y, y = 0 ∨ y = 1) ys →
  (encode_all ys e).1 = true → reachable (encode_all ys e).2.
Proof.
  intros Hr Hys. revert e Hr.
  induction Hys as [|y ys Hy _ IH]; intros e Hr; cbn [encode_all]; [done|].
  destruct (Encoder.encode y e) as [ok e1] eqn:He.
  destruct ok; [|done]. apply IH. by apply (reach_encode e y e1).
Qed.

Lemma p_after_update sm cx y limit :
  0 <= cx < Z.of_nat (length (StateMap.t sm)) →
  fst (StateMap.p cx (StateMap.update y limit (snd (StateMap.p cx sm))))
  = Z.shiftr (StateMap.update_cell y limit (StateMap.cell sm cx)) 16
  ∧ StateMap.cell (StateMap.update y limit (snd (StateMap.p cx sm))) cx
    = StateMap.update_cell y limit (StateMap.cell sm cx)
  ∧ length (StateMap.t (StateMap.update y limit (snd (StateMap.p cx sm))))
    = length (StateMap.t sm).
Proof.
  intros Hcx.
  assert (Hc : StateMap.cell (StateMap.update y limit (snd (StateMap.p cx sm))) cx
               = StateMap.update_cell y limit (StateMap.cell sm cx)).
  { unfold StateMap.cell at 1. simpl. by apply lookup_total_insert_Z. }
  split; [|split; [done|]].
  - change (fst (StateMap.p cx ?m)) with (Z.shiftr (StateMap.cell m cx) 16).
    by rewrite Hc.
  - simpl. by rewrite length_insert.
Qed.

(** Two steps toward 1 from the cell 0xffb1085a (count 90): the first
    leaves the prediction at 65457, the second raises it. *)
Lemma two_steps_from_cell sm cx :
  0 <= cx < Z.of_nat (length (StateMap.t sm)) →
  StateMap.cell sm cx = 4289792090 →
  let sm1 := StateMap.update 1 90 (snd (StateMap.p cx sm)) in
  let sm2 := StateMap.update 1 90 (snd (StateMap.p cx sm1)) in
  fst (StateMap.p cx sm) = 65457
  ∧ fst (StateMap.p cx sm1) = 65457
  ∧ fst (StateMap.p cx sm2) = 65458.
Proof.
  intros Hcx Hc sm1 sm2.
  destruct (p_after_update sm cx 1 90 Hcx) as (Hp1 & Hc1 & Hl1). fold sm1 in Hp1, Hc1, Hl1.
  destruct (p_after_update sm1 cx 1 90) as (Hp2 & _); [by rewrite Hl1|]. fold sm2 in Hp2.
  split; [|split].
  - change (fst (StateMap.p cx sm)) with (Z.shiftr (StateMap.cell sm cx) 16). by rewrite Hc.
  - rewrite Hp1, Hc. vm_compute. reflexivity.
  - rewrite Hp2, Hc1, Hc. vm_compute. reflexivity.
Qed.

Lemma stays_put_then_rises e :
  reachable e →
  Predictor.key (Encoder.predictor e) = 255 →
  StateMap.cell (Predictor.sm (Encoder.predictor e)) 255 = 4289792090 →
  let sm := Predictor.sm (Encoder.predictor e) in
  let cx := Predictor.key (Encoder.predictor e) in
  let v := fst (StateMap.p cx sm) in
  let sm1 := StateMap.update 1 90 (snd (StateMap.p cx sm)) in
  let up := fst (StateMap.p cx sm1) in
  let sm2 := StateMap.update 1 90 (snd (StateMap.p cx sm1)) in
  reachable e ∧ sm_reachable sm ∧ cx = 255
  ∧ v = 65457 ∧ up = v ∧ fst (StateMap.p cx sm2) = 65458.
Proof.
  intros Hr Hkey Hcell. cbv zeta. rewrite Hkey.
  pose proof (proj1 (proj2 (reachable_state_map _ Hr))) as Hsm.
  destruct (sm_reachable_table_ok _ Hsm) as (Hlen & _).
  destruct (two_steps_from_cell (Predictor.sm (Encoder.predictor e)) 255) as (Hv & Hup & Hup2);
    [lia|exact Hcell|].
  split; [exact Hr|]. split; [exact Hsm|]. split; [reflexivity|].
  split; [exact Hv|]. split; [|exact Hup2]. by rewrite Hup, Hv.
Qed.

(** C8, as stated, fails.  When [fpaq0f2_compress] has encoded 312 zero
    bytes, the flag bit of the next byte is predicted in context 255 with
    [v = 65457]; after [update(1)] the prediction is 65457 again, and it is
    not saturated: after one more [update(1)] it is 65458. *)
Lemma C8_equality_before_saturation :
  let e := (encode_all (body_bits (replicate 312 0)) (Encoder.new_compress 400)).2 in
  let sm := Predictor.sm (Encoder.predictor e) in
  let cx := Predictor.key (Encoder.predictor e) in
  let v := fst (StateMap.p cx sm) in
  let sm1 := StateMap.update 1 90 (snd (StateMap.p cx sm)) in
  let up := fst (StateMap.p cx sm1) in
  let sm2 := StateMap.update 1 90 (snd (StateMap.p cx sm1)) in
  reachable e ∧ sm_reachable sm ∧ cx = 255
  ∧ v = 65457 ∧ up = v ∧ fst (StateMap.p cx sm2) = 65458.
Proof.
  intros e. apply (stays_put_then_rises e).
  - apply reachable_run; [apply reach_compress|apply body_bits_are_bits|].
    vm_compute. reflexivity.
  - vm_compute. reflexivity.
  - vm_compute. reflexivity.
Qed.
